(** * BucketBird: the YouTube import service

    A shallow embedding of [backend/internal/service/youtube_import.go]
    and the proofs of the properties its specification states and of
    further properties the code has.

    - Go strings are byte sequences and are modelled as [string] (a list
      of 8-bit [ascii] values); the functions of the [strings] package
      that look at runes are written on the UTF-8 bytes.
    - [int] and [int64] values are [Z] with the wrap-around written out
      ([wrap64], [add64]).
    - A Go [map[string]string] is a [gmap string string].
    - The object store, the YouTube client, the clock and the source
      stream are external collaborators.  They are values that the
      service functions receive and thread: the bucket with the failures
      its coming calls are going to meet, the answers of the client, the
      readings of the clock, the reads the stream is going to deliver.
    - An error is the text of its message; [nil] is [None] or the left
      injection of a sum.
    - The progress events of the batch ([emitProgress]) only feed the
      observer: [ImportYouTube] leaves them out, and
      [ImportYouTubeEvents] lists them.  The calls of the callback of
      the progress reader are recorded. *)

From Stdlib Require Import ZArith Ascii String List Bool Lia Permutation Sorted.
From stdpp Require Import base option gmap strings list fin_maps pretty.

Import ListNotations.
Local Open Scope string_scope.
Local Open Scope Z_scope.

(* ===================================================================== *)
(** ** The parts of Go's [strings] package the service calls *)
(* ===================================================================== *)

Module GoStrings.

Definition byte_of (n : nat) : ascii := ascii_of_nat n.

Definition code (c : ascii) : nat := nat_of_ascii c.

Definition isEmpty (s : string) : bool :=
  match s with EmptyString => true | String _ _ => false end.

Fixpoint drop (n : nat) (s : string) : string :=
  match n, s with
  | O, _ => s
  | S _, EmptyString => EmptyString
  | S k, String _ r => drop k r
  end.

Fixpoint take (n : nat) (s : string) : string :=
  match n, s with
  | O, _ => EmptyString
  | S _, EmptyString => EmptyString
  | S k, String c r => String c (take k r)
  end.

(** [strings.HasPrefix]. *)
Fixpoint HasPrefix (s p : string) {struct p} : bool :=
  match p, s with
  | EmptyString, _ => true
  | String _ _, EmptyString => false
  | String a p', String b s' => if Ascii.eqb a b then HasPrefix s' p' else false
  end.

(** [strings.HasSuffix]: [len(s) >= len(x) && s[len(s)-len(x):] == x]. *)
Definition HasSuffix (s x : string) : bool :=
  (String.length x <=? String.length s)%nat &&
  String.eqb (drop (String.length s - String.length x) s) x.

(** [strings.Contains]. *)
Fixpoint Contains (s sub : string) : bool :=
  HasPrefix s sub ||
  match s with
  | EmptyString => false
  | String _ r => Contains r sub
  end.

(** [strings.Index]: [None] stands for Go's [-1]. *)
Fixpoint Index (s sub : string) : option nat :=
  if HasPrefix s sub then Some O
  else match s with
       | EmptyString => None
       | String _ r => S <$> Index r sub
       end.

(** [strings.TrimPrefix]. *)
Definition TrimPrefix (s p : string) : string :=
  if HasPrefix s p then drop (String.length p) s else s.

(** [strings.ReplaceAll] for a non-empty [old]: the occurrences are
    found left to right without overlap, in one pass.  [skip] counts
    the bytes of a matched occurrence still to be passed over. *)
Fixpoint replace_go (old new : string) (skip : nat) (s : string) : string :=
  match s with
  | EmptyString => EmptyString
  | String c r =>
      match skip with
      | S k => replace_go old new k r
      | O =>
          if HasPrefix s old
          then new ++ replace_go old new (String.length old - 1) r
          else String c (replace_go old new O r)
      end
  end.

Definition ReplaceAll (s old new : string) : string :=
  replace_go old new O s.

Definition inCutset (cutset : string) (c : ascii) : bool :=
  Contains cutset (String c EmptyString).

Fixpoint trimLeftBytes (f : ascii -> bool) (s : string) : string :=
  match s with
  | EmptyString => EmptyString
  | String c r => if f c then trimLeftBytes f r else s
  end.

Fixpoint trimRightBytes (f : ascii -> bool) (s : string) : string :=
  match s with
  | EmptyString => EmptyString
  | String c r =>
      let r' := trimRightBytes f r in
      if isEmpty r' && f c then EmptyString else String c r'
  end.

(** [strings.Trim] for a cutset of ASCII bytes. *)
Definition Trim (s cutset : string) : string :=
  trimRightBytes (inCutset cutset) (trimLeftBytes (inCutset cutset) s).

(** The UTF-8 encodings of the runes for which [unicode.IsSpace]
    holds: tab, LF, VT, FF, CR, space, U+0085, U+00A0, U+1680,
    U+2000..U+200A, U+2028, U+2029, U+202F, U+205F and U+3000. *)
Definition bytes (l : list nat) : string :=
  string_of_list_ascii (List.map byte_of l).

Definition spaceRunes : list string :=
  List.map bytes
    [ [9]; [10]; [11]; [12]; [13]; [32];
      [194; 133]; [194; 160]; [225; 154; 128];
      [226; 128; 128]; [226; 128; 129]; [226; 128; 130]; [226; 128; 131];
      [226; 128; 132]; [226; 128; 133]; [226; 128; 134]; [226; 128; 135];
      [226; 128; 136]; [226; 128; 137]; [226; 128; 138];
      [226; 128; 168]; [226; 128; 169]; [226; 128; 175];
      [226; 129; 159]; [227; 128; 128] ]%nat.

(** Width in bytes of the white-space rune [s] starts with, or [0]. *)
Definition leadingSpaceWidth (s : string) : nat :=
  match List.find (HasPrefix s) spaceRunes with
  | Some r => String.length r
  | None => O
  end.

(** Width in bytes of the white-space rune [s] ends with, or [0]. *)
Definition trailingSpaceWidth (s : string) : nat :=
  match List.find (HasSuffix s) spaceRunes with
  | Some r => String.length r
  | None => O
  end.

Fixpoint trimLeftSpace (fuel : nat) (s : string) : string :=
  match fuel with
  | O => s
  | S k =>
      match leadingSpaceWidth s with
      | O => s
      | S w => trimLeftSpace k (drop (S w) s)
      end
  end.

Fixpoint trimRightSpace (fuel : nat) (s : string) : string :=
  match fuel with
  | O => s
  | S k =>
      match trailingSpaceWidth s with
      | O => s
      | S w => trimRightSpace k (take (String.length s - S w) s)
      end
  end.

(** [strings.TrimSpace]: every leading and trailing white-space rune
    goes.  Each round removes at least one byte, so [length s] rounds
    are enough. *)
Definition TrimSpace (s : string) : string :=
  let l := trimLeftSpace (String.length s) s in
  trimRightSpace (String.length l) l.

Definition isAsciiSpace (c : ascii) : bool :=
  existsb (Nat.eqb (code c)) [9; 10; 11; 12; 13; 32]%nat.

(** [strings.Fields] on a string whose white space is ASCII (the only
    call site passes a string already reduced to ASCII).  [cur] is the
    field being read. *)
Fixpoint fields_go (cur : option string) (s : string) : list string :=
  match s with
  | EmptyString =>
      match cur with Some w => [w] | None => [] end
  | String c r =>
      if isAsciiSpace c
      then match cur with
           | Some w => w :: fields_go None r
           | None => fields_go None r
           end
      else fields_go (Some (default EmptyString cur ++ String c EmptyString)) r
  end.

Definition Fields (s : string) : list string := fields_go None s.

(** [strings.Join]. *)
Fixpoint Join (elems : list string) (sep : string) : string :=
  match elems with
  | [] => EmptyString
  | [e] => e
  | e :: rest => e ++ sep ++ Join rest sep
  end.

Definition isUpper (c : ascii) : bool :=
  (65 <=? code c)%nat && (code c <=? 90)%nat.

Definition lowerByte (c : ascii) : ascii :=
  if isUpper c then byte_of (code c + 32) else c.

(** [strings.ToLower] on the ASCII letters.  Go also lowers non-ASCII
    runes; the only ones that lower to an ASCII letter are U+212A (to
    k) and U+0130 (to i), letters that occur in none of the patterns
    the result is searched for. *)
Fixpoint ToLower (s : string) : string :=
  match s with
  | EmptyString => EmptyString
  | String c r => String (lowerByte c) (ToLower r)
  end.

(** One step of [strings.EqualFold] against an ASCII byte [a]: the
    width of the rune at the head of [s] when it folds to [a], or [0].
    Besides the other case of an ASCII letter, the fold orbit of k
    holds U+212A (KELVIN SIGN) and that of s holds U+017F (LONG S). *)
Definition foldWidth (a : ascii) (s : string) : nat :=
  match s with
  | EmptyString => O
  | String b _ =>
      if Ascii.eqb (lowerByte a) (lowerByte b) && (code b <? 128)%nat then 1%nat
      else if Ascii.eqb (lowerByte a) "k"%char && HasPrefix s (bytes [226; 132; 170]%nat) then 3%nat
      else if Ascii.eqb (lowerByte a) "s"%char && HasPrefix s (bytes [197; 191]%nat) then 2%nat
      else O
  end.

(** [strings.EqualFold s t] for an ASCII [t] (the only call site
    compares with a constant ASCII key).  [skip] counts the bytes of
    the rune of [s] just matched that are still to be passed over. *)
Fixpoint equalFold_go (skip : nat) (s t : string) : bool :=
  match skip, s with
  | S k, String _ r => equalFold_go k r t
  | S _, EmptyString => false
  | O, _ =>
      match t with
      | EmptyString => isEmpty s
      | String a t' =>
          match s with
          | EmptyString => false
          | String _ r =>
              match foldWidth a s with
              | O => false
              | S w => equalFold_go w r t'
              end
          end
      end
  end.

Definition EqualFold (s t : string) : bool := equalFold_go O s t.

End GoStrings.

Import GoStrings.

(* ===================================================================== *)
(** ** Data model *)
(* ===================================================================== *)

(** [int64] arithmetic: the result is reduced into [-2^63, 2^63). *)
Definition min_int64 : Z := - 2 ^ 63.
Definition max_int64 : Z := 2 ^ 63 - 1.

Definition wrap64 (x : Z) : Z := (x + 2 ^ 63) mod 2 ^ 64 - 2 ^ 63.

Definition add64 (x y : Z) : Z := wrap64 (x + y).

(** The fields of [youtube.Format] the service reads. *)
Record Format := {
  ItagNo : Z;
  MimeType : string;
  Bitrate : Z;
  AudioChannels : Z;
  ContentLength : Z
}.

(** [youtube.Video]. *)
Record Video := {
  ID : string;
  Title : string;
  Formats : list Format
}.

(** [youtube.PlaylistEntry] and [youtube.Playlist]. *)
Record PlaylistEntry := {
  EntryID : string;
  EntryTitle : string
}.

Record Playlist := {
  Videos : list PlaylistEntry
}.

Record YouTubeImportInput := {
  URL : string;
  DestinationPrefix : string
}.

Record YouTubeImportedItem := {
  ItemTitle : string;
  Key : string;
  VideoID : string;
  SizeBytes : Z;
  ContentType : string
}.

Record YouTubeImportError := {
  ErrTitle : string;
  ErrVideoID : string;
  Error : string
}.

Record YouTubeImportResult := {
  Kind : string;
  Imported : Z;
  Skipped : Z;
  TotalBytes : Z;
  Items : list YouTubeImportedItem;
  Errors : list YouTubeImportError
}.

Definition youtubeVideoIDMetadataKey : string := "bucketbird-video-id".
Definition youtubeVideoTitleMetadataKey : string := "bucketbird-video-title".

(* ===================================================================== *)
(** ** Naming and de-duplication helpers *)
(* ===================================================================== *)

Definition inRange (lo hi : nat) (c : ascii) : bool :=
  (lo <=? code c)%nat && (code c <=? hi)%nat.

(** The complement of the class of [fileNameSanitizer]: letters,
    digits, hyphen, dot, underscore and space. *)
Definition fileNameAllowed (c : ascii) : bool :=
  inRange 97 122 c || inRange 65 90 c || inRange 48 57 c ||
  existsb (Ascii.eqb c) ["-"; "."; "_"; " "]%char.

(** [fileNameSanitizer.ReplaceAllString(value, "")]: every maximal run
    of bytes outside the class is deleted.  A rune outside ASCII is made
    of bytes outside the class only, so the bytes can be judged one by
    one. *)
Fixpoint stripDisallowed (s : string) : string :=
  match s with
  | EmptyString => EmptyString
  | String c r =>
      if fileNameAllowed c then String c (stripDisallowed r) else stripDisallowed r
  end.

Definition sanitizeFileName (value : string) : string :=
  let value := stripDisallowed value in
  let value := TrimSpace value in
  let value := ReplaceAll value "/" "-" in
  let value := ReplaceAll value "\" "-" in
  Join (Fields value) "-".

Definition buildYouTubeBaseName (title : string) : string :=
  let name := sanitizeFileName title in
  let name := if isEmpty name then "youtube-video" else name in
  if (80 <? String.length name)%nat then take 80 name else name.

Definition extensionFromMime (mimeType : string) : string :=
  if Contains mimeType "audio/mp4" then ".m4a"
  else if Contains mimeType "mp4" then ".mp4"
  else if Contains mimeType "webm" then ".webm"
  else ".bin".

Definition contentTypeFromMime (mimeType : string) : string :=
  let mimeType :=
    match Index mimeType ";" with
    | Some idx => take idx mimeType
    | None => mimeType
    end in
  TrimSpace mimeType.

Definition buildYouTubeFilename (title : string) (format : Format) : string :=
  buildYouTubeBaseName title ++ extensionFromMime (MimeType format).

Definition buildYouTubeFilenameWithID (title videoID : string) (format : Format) : string :=
  buildYouTubeBaseName title ++ "-" ++ videoID ++ extensionFromMime (MimeType format).

(** The loop over the map returns [true] at the first matching entry;
    the order of a Go map iteration cannot change the answer. *)
Definition metadataMatchesYouTubeVideo (metadata : gmap string string) (videoID : string) : bool :=
  if (size metadata =? 0)%nat || isEmpty videoID then false
  else existsb
         (fun kv => EqualFold (fst kv) youtubeVideoIDMetadataKey && String.eqb (snd kv) videoID)
         (map_to_list metadata).

Definition normalizeObjectPrefix (prefix : string) : string :=
  let prefix := TrimSpace prefix in
  let prefix := TrimPrefix prefix "/" in
  let prefix := ReplaceAll prefix "//" "/" in
  let prefix := Trim prefix "/" in
  if isEmpty prefix then EmptyString else prefix ++ "/".

(** [isNotFoundError] on the text of a non-nil error. *)
Definition isNotFoundText (text : string) : bool :=
  let msg := ToLower text in
  Contains msg "notfound" || Contains msg "status code: 404".

Definition isNotFoundError (err : option string) : bool :=
  match err with
  | None => false
  | Some text => isNotFoundText text
  end.

(* ===================================================================== *)
(** ** Format selection *)
(* ===================================================================== *)

(** [youtube.FormatList.WithAudioChannels]: the formats with an audio
    channel, in their order. *)
Definition WithAudioChannels (l : list Format) : list Format :=
  List.filter (fun f => 0 <? AudioChannels f) l.

Section FormatOrder.

(** The comparison of [youtube.FormatList.Sort]: [formatLess a b] holds
    when [a] is to come before [b], that is when [a] ranks higher.  It
    belongs to the client library and is taken as given. *)
Variable formatLess : Format -> Format -> bool.

(** [Sort] is [sort.SliceStable]: a stable sort.  [x] stood before every
    element of [l] and is put before the first element that does not
    rank strictly higher. *)
Fixpoint insertFormat (x : Format) (l : list Format) : list Format :=
  match l with
  | [] => [x]
  | y :: r => if formatLess y x then y :: insertFormat x r else x :: l
  end.

Fixpoint Sort (l : list Format) : list Format :=
  match l with
  | [] => []
  | x :: r => insertFormat x (Sort r)
  end.

Definition mp4Formats (withAudio : list Format) : list Format :=
  List.filter (fun f => Contains (MimeType f) "mp4") withAudio.

(** The list [selectYouTubeFormat] indexes at 0. *)
Definition candidateFormats (video : Video) : list Format :=
  let withAudio := WithAudioChannels (Formats video) in
  if (0 <? length (mp4Formats withAudio))%nat
  then Sort (mp4Formats withAudio)
  else Sort withAudio.

(** [inr] carries the text of the error.  The last branch is the index
    panic of [candidate[0]] on an empty slice. *)
Definition selectYouTubeFormat (video : Video) : Format + string :=
  let withAudio := WithAudioChannels (Formats video) in
  if (length withAudio =? 0)%nat
  then inr "no downloadable formats with audio were found"
  else match candidateFormats video with
       | selected :: _ => inl selected
       | [] => inr "panic: index out of range"
       end.

End FormatOrder.

(* ===================================================================== *)
(** ** Progress reporter *)
(* ===================================================================== *)

(** The error of one [Read]: [nil], [io.EOF] or another error. *)
Inductive ReadErr :=
| ErrNil
| ErrEOF
| ErrOther (text : string).

(** The source stream ([io.ReadCloser]): what its coming [Read] calls
    return (byte count and error), and how often [Close] was called.  A
    stream with nothing pending is at its end. *)
Record Stream := {
  pending : list (Z * ReadErr);
  closeCalls : nat
}.

Definition Stream_Read (s : Stream) : (Z * ReadErr) * Stream :=
  match pending s with
  | [] => ((0, ErrEOF), s)
  | r :: rest => (r, {| pending := rest; closeCalls := closeCalls s |})
  end.

Definition Stream_Close (s : Stream) : Stream :=
  {| pending := pending s; closeCalls := S (closeCalls s) |}.

(** One call of the progress callback.  The third argument of the
    callback, the throughput, is a [float64] computed from the other
    fields and is not carried. *)
Record Sample := {
  BytesRead : Z;
  TotalBytesExpected : Z
}.

(** What the reporter touches outside itself: the readings [time.Now]
    is going to return (in nanoseconds), and the calls made to the
    callback so far, oldest first. *)
Record Obs := {
  clock : list Z;
  emitted : list Sample
}.

Definition timeNow (o : Obs) : Z * Obs :=
  match clock o with
  | [] => (0, o)
  | t :: rest => (t, {| clock := rest; emitted := emitted o |})
  end.

(** [callback] is [true] for a non-nil function. *)
Record progressReader := {
  rc : Stream;
  total : Z;
  read : Z;
  lastBytes : Z;
  lastTime : Z;
  callback : bool
}.

Definition newProgressReader (stream : Stream) (total : Z) (cb : bool) (o : Obs)
  : progressReader * Obs :=
  let '(now, o) := timeNow o in
  ({| rc := stream; total := total; read := 0; lastBytes := 0;
      lastTime := now; callback := cb |}, o).

Definition halfSecond : Z := 500 * 1000000.

Definition report (force : bool) (p : progressReader) (o : Obs) : progressReader * Obs :=
  if negb (callback p) then (p, o)
  else
    let '(now, o) := timeNow o in
    if negb force && (now - lastTime p <? halfSecond) then (p, o)
    else
      ({| rc := rc p; total := total p; read := read p;
          lastBytes := read p; lastTime := now; callback := callback p |},
       {| clock := clock o;
          emitted := emitted o ++ [{| BytesRead := read p; TotalBytesExpected := total p |}] |}).

Definition progressReader_Read (p : progressReader) (o : Obs)
  : (Z * ReadErr) * progressReader * Obs :=
  let '((n, err), stream) := Stream_Read (rc p) in
  let p := {| rc := stream; total := total p; read := read p;
              lastBytes := lastBytes p; lastTime := lastTime p; callback := callback p |} in
  let '(p, o) :=
    if 0 <? n
    then report false
           {| rc := rc p; total := total p; read := add64 (read p) n;
              lastBytes := lastBytes p; lastTime := lastTime p; callback := callback p |} o
    else (p, o) in
  let '(p, o) :=
    match err with
    | ErrEOF => report true p o
    | _ => (p, o)
    end in
  ((n, err), p, o).

Definition progressReader_Close (p : progressReader) : progressReader :=
  {| rc := Stream_Close (rc p); total := total p; read := read p;
     lastBytes := lastBytes p; lastTime := lastTime p; callback := callback p |}.

Definition progressReader_BytesRead (p : progressReader) : Z := read p.

(** [k] successive [Read] calls; the results are listed oldest first. *)
Fixpoint readTimes (k : nat) (p : progressReader) (o : Obs)
  : list (Z * ReadErr) * progressReader * Obs :=
  match k with
  | O => ([], p, o)
  | S k' =>
      let '(r, p, o) := progressReader_Read p o in
      let '(rs, p, o) := readTimes k' p o in
      (r :: rs, p, o)
  end.

(* ===================================================================== *)
(** ** The object store and the YouTube client *)
(* ===================================================================== *)

Record StoredObject := {
  Metadata : gmap string string;
  ObjContentType : string;
  ObjSize : Z
}.

(** The bucket behind [storage.ObjectStore]: its objects by key, and
    for the coming [HeadObject] and [PutObject] calls whether the call
    fails on its own account ([Some text]) or goes through ([None]; so
    does every call past the end of the list). *)
Record ObjectStore := {
  objects : gmap string StoredObject;
  headFaults : list (option string);
  putFaults : list (option string)
}.

(** The text of the error a lookup of an absent key returns. *)
Definition notFoundText : string := "api error NotFound: Not Found".

Definition nextFault (faults : list (option string)) : option string :=
  match faults with
  | Some text :: _ => Some text
  | _ => None
  end.

(** [store.HeadObject]: the metadata of the object, or the text of the
    error. *)
Definition HeadObject (st : ObjectStore) (bucketName key : string)
  : (gmap string string + string) * ObjectStore :=
  let st' := {| objects := objects st; headFaults := tl (headFaults st);
                putFaults := putFaults st |} in
  match nextFault (headFaults st) with
  | Some text => (inr text, st')
  | None =>
      match objects st !! key with
      | Some obj => (inl (Metadata obj), st')
      | None => (inr notFoundText, st')
      end
  end.

(** The upload reads the body until a [Read] returns an error; [steps]
    is the list of reads the stream still holds and bounds the loop. *)
Fixpoint readBody (steps : list (Z * ReadErr)) (p : progressReader) (o : Obs)
  : ReadErr * progressReader * Obs :=
  let '((_, err), p, o) := progressReader_Read p o in
  match steps with
  | [] => (err, p, o)
  | _ :: rest =>
      match err with
      | ErrNil => readBody rest p o
      | _ => (err, p, o)
      end
  end.

(** [store.PutObject]: [None] is success.  The object appears in the
    bucket only when the whole body was read and the store accepted it. *)
Definition PutObject (st : ObjectStore) (bucketName key : string)
    (body : progressReader) (o : Obs) (contentType : string)
    (metadata : gmap string string)
  : option string * ObjectStore * progressReader * Obs :=
  let st' := {| objects := objects st; headFaults := headFaults st;
                putFaults := tl (putFaults st) |} in
  match nextFault (putFaults st) with
  | Some text => (Some text, st', body, o)
  | None =>
      let '(err, p, o) := readBody (pending (rc body)) body o in
      match err with
      | ErrOther text => (Some text, st', p, o)
      | _ =>
          (None,
           {| objects :=
                <[key := {| Metadata := metadata; ObjContentType := contentType;
                            ObjSize := read p |}]> (objects st);
              headFaults := headFaults st'; putFaults := putFaults st' |},
           p, o)
      end
  end.

(** An error of the client; [IsInvalidPlaylist] is
    [errors.Is(err, youtube.ErrInvalidPlaylist)]. *)
Record ClientError := {
  IsInvalidPlaylist : bool;
  ErrorText : string
}.

(** [youtube.Client]: what each of its calls answers. *)
Record Client := {
  GetPlaylistContext : string -> Playlist + ClientError;
  GetVideoContext : string -> Video + ClientError;
  VideoFromPlaylistEntryContext : PlaylistEntry -> Video + ClientError;
  GetStreamContext : Video -> Format -> (Stream * Z) + ClientError
}.

(* ===================================================================== *)
(** ** Transfer of one item *)
(* ===================================================================== *)

(** What one call of [downloadYouTubeVideo] returns and leaves behind:
    [inl (item, skipped)] or [inr] the error text; the store and the
    reporter's surroundings after the call; and the source stream as the
    deferred calls left it ([None] when no stream was opened). *)
Record Download := {
  outcome : (YouTubeImportedItem * bool) + string;
  storeAfter : ObjectStore;
  obsAfter : Obs;
  streamAfter : option Stream
}.

Definition withContentLength (format : Format) (len : Z) : Format :=
  {| ItagNo := ItagNo format; MimeType := MimeType format; Bitrate := Bitrate format;
     AudioChannels := AudioChannels format; ContentLength := len |}.

Definition joinKey (prefix filename : string) : string :=
  if negb (isEmpty prefix) then prefix ++ filename else filename.

(** The two destination keys of an item. *)
Definition primaryKeyOf (prefix : string) (video : Video) (format : Format) : string :=
  joinKey prefix (buildYouTubeFilename (Title video) format).

Definition legacyKeyOf (prefix : string) (video : Video) (format : Format) : string :=
  joinKey prefix (buildYouTubeFilenameWithID (Title video) (ID video) format).

(** [format.ContentLength] after the size hint of the stream is taken. *)
Definition withSizeHint (format : Format) (sizeHint : Z) : Format :=
  if (ContentLength format =? 0) && (0 <? sizeHint)
  then withContentLength format sizeHint else format.

Definition skippedItem (video : Video) (key contentType : string) : YouTubeImportedItem :=
  {| ItemTitle := Title video; Key := key; VideoID := ID video;
     SizeBytes := 0; ContentType := contentType |}.

Definition uploadMetadata (video : Video) : gmap string string :=
  let metadata : gmap string string := {[ youtubeVideoIDMetadataKey := ID video ]} in
  if negb (isEmpty (Title video))
  then <[youtubeVideoTitleMetadataKey := Title video]> metadata
  else metadata.

Section Transfer.

Variable formatLess : Format -> Format -> bool.

(** The two deferred calls run when the function returns, last
    registered first: [progressReader.Close()], then [stream.Close()].
    The reader holds the very stream, so both act on [rc p]. *)
Definition downloadYouTubeVideo (st : ObjectStore) (o : Obs) (bucketName prefix : string)
    (client : Client) (video : Video) : Download :=
  match selectYouTubeFormat formatLess video with
  | inr text =>
      {| outcome := inr text; storeAfter := st; obsAfter := o; streamAfter := None |}
  | inl format =>
  match GetStreamContext client video format with
  | inr err =>
      {| outcome := inr (ErrorText err); storeAfter := st; obsAfter := o;
         streamAfter := None |}
  | inl (stream, sizeHint) =>
  let format := withSizeHint format sizeHint in
  let contentType := contentTypeFromMime (MimeType format) in
  let primaryKey := primaryKeyOf prefix video format in
  let legacyKey := legacyKeyOf prefix video format in
  let early out st :=
    {| outcome := out; storeAfter := st; obsAfter := o;
       streamAfter := Some (Stream_Close stream) |} in
  let '(primaryHead, st) := HeadObject st bucketName primaryKey in
  let afterPrimary (primaryExists : bool) :=
    let '(legacyHead, st) := HeadObject st bucketName legacyKey in
    match legacyHead with
    | inl _ => early (inl (skippedItem video legacyKey contentType, true)) st
    | inr text =>
        if negb (isNotFoundText text) then early (inr text) st
        else
          let key := if primaryExists then legacyKey else primaryKey in
          let metadata := uploadMetadata video in
          let '(p, o) := newProgressReader stream (ContentLength format) true o in
          let '(putErr, st, p, o) := PutObject st bucketName key p o contentType metadata in
          let closed := Some (Stream_Close (rc (progressReader_Close p))) in
          match putErr with
          | Some text =>
              {| outcome := inr text; storeAfter := st; obsAfter := o;
                 streamAfter := closed |}
          | None =>
              let size := progressReader_BytesRead p in
              let size :=
                if (size =? 0) && (0 <? ContentLength format)
                then ContentLength format else size in
              {| outcome :=
                   inl ({| ItemTitle := Title video; Key := key; VideoID := ID video;
                           SizeBytes := size; ContentType := contentType |}, false);
                 storeAfter := st; obsAfter := o; streamAfter := closed |}
          end
    end in
  match primaryHead with
  | inr text =>
      if negb (isNotFoundText text) then early (inr text) st
      else afterPrimary false
  | inl metadata =>
      if metadataMatchesYouTubeVideo metadata (ID video)
      then early (inl (skippedItem video primaryKey contentType, true)) st
      else afterPrimary true
  end
  end
  end.

(* ===================================================================== *)
(** ** The batch *)
(* ===================================================================== *)

(** What the loop carries from one item to the next. *)
Record LoopState := {
  result : YouTubeImportResult;
  store : ObjectStore;
  obs : Obs
}.

Definition appendError (r : YouTubeImportResult) (e : YouTubeImportError) : YouTubeImportResult :=
  {| Kind := Kind r; Imported := Imported r; Skipped := Skipped r;
     TotalBytes := TotalBytes r; Items := Items r; Errors := Errors r ++ [e] |}.

Definition countSkipped (r : YouTubeImportResult) : YouTubeImportResult :=
  {| Kind := Kind r; Imported := Imported r; Skipped := add64 (Skipped r) 1;
     TotalBytes := TotalBytes r; Items := Items r; Errors := Errors r |}.

Definition appendItem (r : YouTubeImportResult) (item : YouTubeImportedItem) : YouTubeImportResult :=
  {| Kind := Kind r; Imported := add64 (Imported r) 1; Skipped := Skipped r;
     TotalBytes := add64 (TotalBytes r) (SizeBytes item);
     Items := Items r ++ [item]; Errors := Errors r |}.

Definition withKind (r : YouTubeImportResult) (kind : string) : YouTubeImportResult :=
  {| Kind := kind; Imported := Imported r; Skipped := Skipped r;
     TotalBytes := TotalBytes r; Items := Items r; Errors := Errors r |}.

(** The body of the loop of [ImportYouTube] after the cancellation
    check, for one video. *)
Definition importStep (bucketName prefix : string) (client : Client)
    (ls : LoopState) (video : Video) : LoopState :=
  let d := downloadYouTubeVideo (store ls) (obs ls) bucketName prefix client video in
  let r :=
    match outcome d with
    | inr text =>
        appendError (result ls)
          {| ErrTitle := Title video; ErrVideoID := ID video; Error := text |}
    | inl (item, true) => countSkipped (result ls)
    | inl (item, false) => appendItem (result ls) item
    end in
  {| result := r; store := storeAfter d; obs := obsAfter d |}.

(** The loop: [ctxErr i] is what [ctx.Err()] answers before item [i]
    ([None] for [nil]).  [inr] is the fatal return. *)
Fixpoint importLoop (ctxErr : nat -> option string) (bucketName prefix : string)
    (client : Client) (i : nat) (videos : list Video) (ls : LoopState)
  : LoopState + string :=
  match videos with
  | [] => inl ls
  | video :: rest =>
      match ctxErr i with
      | Some text => inr text
      | None =>
          importLoop ctxErr bucketName prefix client (S i) rest
            (importStep bucketName prefix client ls video)
      end
  end.

Fixpoint videosFromPlaylist (client : Client) (entries : list PlaylistEntry)
    (videos : list Video) (r : YouTubeImportResult)
  : list Video * YouTubeImportResult :=
  match entries with
  | [] => (videos, r)
  | entry :: rest =>
      match VideoFromPlaylistEntryContext client entry with
      | inr err =>
          videosFromPlaylist client rest videos
            (appendError r {| ErrTitle := EntryTitle entry; ErrVideoID := EntryID entry;
                              Error := ErrorText err |})
      | inl video => videosFromPlaylist client rest (videos ++ [video]) r
      end
  end.

Definition resolveYouTubeVideos (client : Client) (url : string) (r : YouTubeImportResult)
  : (list Video * string * YouTubeImportResult) + string :=
  match GetPlaylistContext client url with
  | inl playlist =>
      let r := withKind r "playlist" in
      let '(videos, r) := videosFromPlaylist client (Videos playlist) [] r in
      inl (videos, "playlist", r)
  | inr err =>
      if negb (IsInvalidPlaylist err)
      then inr ("failed to load playlist: " ++ ErrorText err)
      else
        match GetVideoContext client url with
        | inr videoErr => inr ("failed to load video: " ++ ErrorText videoErr)
        | inl video => inl ([video], "video", r)
        end
  end.

(** What [ImportYouTube] finds in its receiver and its context: the
    answers of [getBucketName] and [GetObjectStore], the client, the
    cancellation state at each item boundary and the clock. *)
Record BucketService := {
  getBucketName : string + string;
  GetObjectStore : ObjectStore + string;
  youtubeClient : Client;
  ctxErr : nat -> option string;
  startClock : list Z
}.

(** [ImportYouTube]: [inl] holds the returned result (with the store and
    the reporter's surroundings as the call left them), [inr] the text
    of the returned error.  The progress events of the batch only feed
    the observer and are left out, and so is the detached recount of the
    bucket size. *)
Definition ImportYouTube (s : BucketService) (input : YouTubeImportInput)
  : LoopState + string :=
  let url := TrimSpace (URL input) in
  if isEmpty url then inr "youtube url is required"
  else
    match getBucketName s with
    | inr text => inr text
    | inl bucketName =>
        match GetObjectStore s with
        | inr text => inr text
        | inl st =>
            let client := youtubeClient s in
            let r := {| Kind := "video"; Imported := 0; Skipped := 0; TotalBytes := 0;
                        Items := []; Errors := [] |} in
            let prefix := normalizeObjectPrefix (DestinationPrefix input) in
            match resolveYouTubeVideos client url r with
            | inr text => inr text
            | inl (videos, kind, r) =>
                let r := withKind r kind in
                importLoop (ctxErr s) bucketName prefix client O videos
                  {| result := r; store := st;
                     obs := {| clock := startClock s; emitted := [] |} |}
            end
        end
    end.

End Transfer.

(* ===================================================================== *)
(** ** Predicates the statements use *)
(* ===================================================================== *)

Fixpoint allBytes (f : ascii -> bool) (s : string) : bool :=
  match s with
  | EmptyString => true
  | String c r => f c && allBytes f r
  end.

Definition isSlash (c : ascii) : bool := Ascii.eqb c "/".

(** The string is made of slashes only (the empty string included). *)
Definition allSlashes (s : string) : bool := allBytes isSlash s.

(** The string is a sequence of white-space runes. *)
Definition allSpaces (s : string) : Prop :=
  exists ws : list string,
    Forall (fun w => In w spaceRunes) ws /\ s = String.concat EmptyString ws.

(** The third step of [normalizeObjectPrefix]. *)
Definition collapseSlashes (s : string) : string := ReplaceAll s "//" "/".

(** The string handed to the final test of [normalizeObjectPrefix]. *)
Definition trimmedPrefix (prefix : string) : string :=
  Trim (ReplaceAll (TrimPrefix (TrimSpace prefix) "/") "//" "/") "/".

Definition isASCII (c : ascii) : bool := (code c <? 128)%nat.

(** Stated from the words of the specification: the stored metadata
    tags the object with exactly this source identifier, under the
    identity key in whatever letter case the store returns it. *)
Definition carriesSourceId (metadata : gmap string string) (sourceId : string) : Prop :=
  exists k, EqualFold k youtubeVideoIDMetadataKey = true /\ metadata !! k = Some sourceId.

(** The store reports an absent object only for an absent object: no
    failure of a lookup has a text that [isNotFoundError] accepts. *)
Definition soundFaults (faults : list (option string)) : Prop :=
  Forall (fun f => forall text, f = Some text -> isNotFoundText text = false) faults.

(** Stated from the words of the specification: the encodings the
    choice is made among, the audio-capable ones of the preferred family
    or, when there is none, all the audio-capable ones. *)
Definition formatPool (video : Video) : list Format :=
  match mp4Formats (WithAudioChannels (Formats video)) with
  | [] => WithAudioChannels (Formats video)
  | preferred => preferred
  end.

(** The bytes a sequence of reads delivers: a read counts when its byte
    count is positive. *)
Fixpoint streamBytes (reads : list (Z * ReadErr)) : Z :=
  match reads with
  | [] => 0
  | (n, _) :: rest => (if 0 <? n then n else 0) + streamBytes rest
  end.

(** What the two lookups of [downloadYouTubeVideo] lead to: a failure,
    a skip that reports the key, or an upload under the key. *)
Inductive Decision :=
| Fail (text : string)
| Skip (key : string)
| Write (key : string).

(** The decision as the code takes it, from the answers [h1] and [h2] of
    the lookups of the primary and of the legacy key ([h2] is only
    consulted where the code makes the second lookup). *)
Definition transferDecision (h1 h2 : gmap string string + string)
    (videoID primaryKey legacyKey : string) : Decision :=
  let afterPrimary (primaryExists : bool) :=
    match h2 with
    | inl _ => Skip legacyKey
    | inr text =>
        if negb (isNotFoundText text) then Fail text
        else Write (if primaryExists then legacyKey else primaryKey)
    end in
  match h1 with
  | inr text => if negb (isNotFoundText text) then Fail text else afterPrimary false
  | inl metadata =>
      if metadataMatchesYouTubeVideo metadata videoID then Skip primaryKey
      else afterPrimary true
  end.

(** The size an imported item reports. *)
Definition reportedSize (p : progressReader) (format : Format) : Z :=
  if (progressReader_BytesRead p =? 0) && (0 <? ContentLength format)
  then ContentLength format else progressReader_BytesRead p.

(** Stated from the words of the specification: the metadata carries
    the source identifier under the identity key (a boolean reading of
    [carriesSourceId]). *)
Definition tagsSourceId (metadata : gmap string string) (sourceId : string) : bool :=
  existsb
    (fun kv => EqualFold (fst kv) youtubeVideoIDMetadataKey && String.eqb (snd kv) sourceId)
    (map_to_list metadata).


(** The same plan with the first case kept for items that have a source
    identifier. *)
Definition amendedDecision (objs : gmap string StoredObject)
    (sourceId primaryKey legacyKey : string) : Decision :=
  match objs !! primaryKey with
  | Some obj =>
      if negb (isEmpty sourceId) && tagsSourceId (Metadata obj) sourceId
      then Skip primaryKey
      else if bool_decide (is_Some (objs !! legacyKey)) then Skip legacyKey
      else Write legacyKey
  | None =>
      if bool_decide (is_Some (objs !! legacyKey)) then Skip legacyKey
      else Write primaryKey
  end.

(** The number of items the resolver yields for a reference: the
    entries of the playlist, or the one video. *)
Definition resolvedItems (client : Client) (url : string) : nat :=
  match GetPlaylistContext client url with
  | inl playlist => length (Videos playlist)
  | inr _ => 1%nat
  end.

(** The sum of the sizes of a sequence of items, in the integers. *)
Definition sumSizes (items : list YouTubeImportedItem) : Z :=
  fold_right Z.add 0 (List.map SizeBytes items).

(** The same sum as a Go loop over the items computes it, in [int64]. *)
Definition sum64 (items : list YouTubeImportedItem) : Z :=
  fold_left (fun acc item => add64 acc (SizeBytes item)) items 0.

(** The loop of [ImportYouTube] without its cancellation check. *)
Definition importSteps (formatLess : Format -> Format -> bool)
    (bucketName prefix : string) (client : Client)
    (videos : list Video) (ls : LoopState) : LoopState :=
  fold_left (importStep formatLess bucketName prefix client) videos ls.

(** Every key of the items imported so far is in the bucket, no key
    occurs twice, and the failures of the store are sound. *)
Definition keysStored (ls : LoopState) : Prop :=
  soundFaults (headFaults (store ls)) /\
  NoDup (List.map Key (Items (result ls))) /\
  Forall (fun k => is_Some (objects (store ls) !! k)) (List.map Key (Items (result ls))).

(** The result [ImportYouTube] starts from. *)
Definition emptyResult : YouTubeImportResult :=
  {| Kind := "video"; Imported := 0; Skipped := 0; TotalBytes := 0;
     Items := []; Errors := [] |}.

(** The bytes a sanitized file name is made of: letters, digits, hyphen,
    dot and underscore. *)
Definition fileNameSafe (c : ascii) : bool :=
  fileNameAllowed c && negb (Ascii.eqb c " ").

(** The object an imported item stands for is in the bucket under the
    key of the item: it is tagged with the identifier of the item, has
    its content type, and has the size the item reports unless no byte
    was counted during the upload. *)
Definition itemStored (st : ObjectStore) (item : YouTubeImportedItem) : Prop :=
  exists obj,
    objects st !! Key item = Some obj /\
    Metadata obj !! youtubeVideoIDMetadataKey = Some (VideoID item) /\
    ObjContentType obj = ContentType item /\
    (SizeBytes item = ObjSize obj \/ ObjSize obj = 0).

(** No coming lookup of the store fails on its own account. *)
Definition noFaults (faults : list (option string)) : Prop :=
  Forall (fun f => f = None) faults.

(** The bucket holds the video already, as [downloadYouTubeVideo] judges
    it: the object at the primary key carries the identifier of the
    video, or there is an object at the legacy key. *)
Definition alreadyImported (formatLess : Format -> Format -> bool) (client : Client)
    (prefix : string) (objs : gmap string StoredObject) (video : Video) : bool :=
  match selectYouTubeFormat formatLess video with
  | inr _ => false
  | inl f =>
      match GetStreamContext client video f with
      | inr _ => false
      | inl (_, hint) =>
          let format := withSizeHint f hint in
          match objs !! primaryKeyOf prefix video format with
          | Some obj => metadataMatchesYouTubeVideo (Metadata obj) (ID video)
          | None => false
          end
          || bool_decide (is_Some (objs !! legacyKeyOf prefix video format))
      end
  end.

(** The title and the identifier by which a video, an item and an error
    name what they are about. *)
Definition videoName (video : Video) : string * string := (Title video, ID video).
Definition itemName (item : YouTubeImportedItem) : string * string :=
  (ItemTitle item, VideoID item).
Definition errorName (e : YouTubeImportError) : string * string :=
  (ErrTitle e, ErrVideoID e).

(** The entries of a playlist that resolve, and the errors of those
    that do not, each list in the order of the playlist. *)
Definition resolvedEntries (client : Client) (entries : list PlaylistEntry) : list Video :=
  omap (fun entry =>
          match VideoFromPlaylistEntryContext client entry with
          | inl video => Some video
          | inr _ => None
          end) entries.

Definition unresolvedEntries (client : Client) (entries : list PlaylistEntry)
  : list YouTubeImportError :=
  omap (fun entry =>
          match VideoFromPlaylistEntryContext client entry with
          | inl _ => None
          | inr err =>
              Some {| ErrTitle := EntryTitle entry; ErrVideoID := EntryID entry;
                      Error := ErrorText err |}
          end) entries.

(** A path in normal form, taken without its final slash: it is not
    empty, it neither starts nor ends with a slash or with a white-space
    rune, and it holds no two slashes side by side. *)
Definition cleanPath (t : string) : Prop :=
  t <> EmptyString /\
  (forall w, In w spaceRunes -> HasPrefix t w = false /\ HasSuffix t w = false) /\
  HasPrefix t "/" = false /\
  HasSuffix t "/" = false /\
  Contains t "//" = false.

Fixpoint lastByte (s : string) : option ascii :=
  match s with
  | EmptyString => None
  | String c EmptyString => Some c
  | String _ r => lastByte r
  end.


(** Stated from the words of the specification: two bytes are the same
    up to letter case when they are equal, or one is a capital letter A
    to Z and the other is the small letter, 32 above it. *)
Definition sameLetter (a b : ascii) : bool :=
  Ascii.eqb a b ||
  (inRange 65 90 a && (code b =? code a + 32)%nat) ||
  (inRange 65 90 b && (code a =? code b + 32)%nat).

(** Stated from the words of the specification: two strings are equal
    without regard to the case of their letters. *)
Fixpoint equalIgnoringCase (s t : string) : bool :=
  match s, t with
  | EmptyString, EmptyString => true
  | String a s', String b t' => sameLetter a b && equalIgnoringCase s' t'
  | _, _ => false
  end.

(** A test that holds of every pair of bytes. *)
Definition allBytePairs (p : ascii -> ascii -> bool) : bool :=
  forallb (fun i => forallb (fun j => p (byte_of i) (byte_of j)) (List.seq 0 256))
    (List.seq 0 256).

(* ===================================================================== *)
(** ** The calls of the observer *)
(* ===================================================================== *)

(** [YouTubeImportProgress], the event handed to the observer.  Its two
    [float64] fields, the percentage and the throughput, are computed
    from the other fields and are not carried.  A field a struct literal
    of the source leaves out holds its zero value. *)
Module Progress.

Record YouTubeImportProgress := {
  Stage : string; Kind : string; Index : Z; Total : Z;
  Imported : Z; Failed : Z; TotalBytes : Z;
  VideoTitle : string; VideoID : string; Message : string; Error : string;
  Destination : string; BytesRead : Z; TotalBytesExpected : Z;
  Skipped : bool; SkippedCount : Z
}.

Definition resolving (prefix : string) : YouTubeImportProgress :=
  {| Stage := "resolving"; Kind := EmptyString; Index := 0; Total := 0;
     Imported := 0; Failed := 0; TotalBytes := 0;
     VideoTitle := EmptyString; VideoID := EmptyString;
     Message := "Resolving YouTube link"; Error := EmptyString;
     Destination := prefix; BytesRead := 0; TotalBytesExpected := 0;
     Skipped := false; SkippedCount := 0 |}.

(** The event of [videosFromPlaylist] for an entry that does not
    resolve. *)
Definition unresolved (title id text : string) : YouTubeImportProgress :=
  {| Stage := "error"; Kind := "playlist"; Index := 0; Total := 0;
     Imported := 0; Failed := 0; TotalBytes := 0;
     VideoTitle := title; VideoID := id;
     Message := EmptyString; Error := text;
     Destination := EmptyString; BytesRead := 0; TotalBytesExpected := 0;
     Skipped := false; SkippedCount := 0 |}.

Definition resolved (kind : string) (total : Z) (prefix : string) : YouTubeImportProgress :=
  {| Stage := "resolved"; Kind := kind; Index := 0; Total := total;
     Imported := 0; Failed := 0; TotalBytes := 0;
     VideoTitle := EmptyString; VideoID := EmptyString;
     Message := "Found " ++ pretty total ++ " item(s)"; Error := EmptyString;
     Destination := prefix; BytesRead := 0; TotalBytesExpected := 0;
     Skipped := false; SkippedCount := 0 |}.

Definition starting (kind : string) (index total : Z) (title id message : string)
  : YouTubeImportProgress :=
  {| Stage := "starting"; Kind := kind; Index := index; Total := total;
     Imported := 0; Failed := 0; TotalBytes := 0;
     VideoTitle := title; VideoID := id;
     Message := message; Error := EmptyString;
     Destination := EmptyString; BytesRead := 0; TotalBytesExpected := 0;
     Skipped := false; SkippedCount := 0 |}.

Definition downloading (kind : string) (index total : Z) (title id : string)
    (bytesRead expected : Z) : YouTubeImportProgress :=
  {| Stage := "downloading"; Kind := kind; Index := index; Total := total;
     Imported := 0; Failed := 0; TotalBytes := 0;
     VideoTitle := title; VideoID := id;
     Message := EmptyString; Error := EmptyString;
     Destination := EmptyString; BytesRead := bytesRead; TotalBytesExpected := expected;
     Skipped := false; SkippedCount := 0 |}.

Definition failed (kind : string) (index total : Z) (title id text : string)
  : YouTubeImportProgress :=
  {| Stage := "error"; Kind := kind; Index := index; Total := total;
     Imported := 0; Failed := 0; TotalBytes := 0;
     VideoTitle := title; VideoID := id;
     Message := EmptyString; Error := text;
     Destination := EmptyString; BytesRead := 0; TotalBytesExpected := 0;
     Skipped := false; SkippedCount := 0 |}.

Definition skipped (kind : string) (index total : Z) (title id message : string)
  : YouTubeImportProgress :=
  {| Stage := "skipped"; Kind := kind; Index := index; Total := total;
     Imported := 0; Failed := 0; TotalBytes := 0;
     VideoTitle := title; VideoID := id;
     Message := message; Error := EmptyString;
     Destination := EmptyString; BytesRead := 0; TotalBytesExpected := 0;
     Skipped := true; SkippedCount := 0 |}.

Definition downloaded (kind : string) (index total : Z) (title id message : string)
    (imported failures totalBytes : Z) (key : string) : YouTubeImportProgress :=
  {| Stage := "downloaded"; Kind := kind; Index := index; Total := total;
     Imported := imported; Failed := failures; TotalBytes := totalBytes;
     VideoTitle := title; VideoID := id;
     Message := message; Error := EmptyString;
     Destination := key; BytesRead := 0; TotalBytesExpected := 0;
     Skipped := false; SkippedCount := 0 |}.

Definition finished (kind : string) (imported failures skippedCount total totalBytes : Z)
  : YouTubeImportProgress :=
  {| Stage := "finished"; Kind := kind; Index := 0; Total := total;
     Imported := imported; Failed := failures; TotalBytes := totalBytes;
     VideoTitle := EmptyString; VideoID := EmptyString;
     Message := "Import complete"; Error := EmptyString;
     Destination := EmptyString; BytesRead := 0; TotalBytesExpected := 0;
     Skipped := false; SkippedCount := skippedCount |}.

End Progress.

(** The observer is the argument [progress] of [ImportYouTube]:
    [progress] is [true] for a non-nil function, and the log holds the
    events it was called with, oldest first. *)
Definition emitProgress (progress : bool) (event : Progress.YouTubeImportProgress)
    (log : list Progress.YouTubeImportProgress) : list Progress.YouTubeImportProgress :=
  if negb progress then log else (log ++ [event])%list.

(** The calls [videosFromPlaylist] makes: one for each entry that does
    not resolve. *)
Fixpoint playlistEvents (progress : bool) (client : Client) (entries : list PlaylistEntry)
    (log : list Progress.YouTubeImportProgress) : list Progress.YouTubeImportProgress :=
  match entries with
  | [] => log
  | entry :: rest =>
      match VideoFromPlaylistEntryContext client entry with
      | inr err =>
          playlistEvents progress client rest
            (emitProgress progress
               (Progress.unresolved (EntryTitle entry) (EntryID entry) (ErrorText err)) log)
      | inl _ => playlistEvents progress client rest log
      end
  end.

(** The calls [resolveYouTubeVideos] makes. *)
Definition resolveEvents (progress : bool) (client : Client) (url : string)
    (log : list Progress.YouTubeImportProgress) : list Progress.YouTubeImportProgress :=
  match GetPlaylistContext client url with
  | inl playlist => playlistEvents progress client (Videos playlist) log
  | inr _ => log
  end.

Section Lifecycle.

Variable formatLess : Format -> Format -> bool.

(** The verb [%q] of [fmt.Sprintf]: the title as a quoted Go string
    literal.  It belongs to the standard library and is taken as
    given. *)
Variable quote : string -> string.

(** The calls made during the body of the loop for the video at index
    [i], in state [ls]: [starting], then one [downloading] for each
    sample the progress reader hands to [progressFn] during the
    transfer, then the event of the outcome. *)
Definition stepEvents (progress : bool) (kind : string) (total : Z)
    (bucketName prefix : string) (client : Client) (i : nat)
    (ls : LoopState) (video : Video)
    (log : list Progress.YouTubeImportProgress) : list Progress.YouTubeImportProgress :=
  let index := Z.of_nat i + 1 in
  let log :=
    emitProgress progress
      (Progress.starting kind index total (Title video) (ID video)
         ("Downloading " ++ quote (Title video))) log in
  let d := downloadYouTubeVideo formatLess (store ls) (obs ls) bucketName prefix client video in
  let samples := List.skipn (length (emitted (obs ls))) (emitted (obsAfter d)) in
  let log :=
    fold_left
      (fun log sample =>
         emitProgress progress
           (Progress.downloading kind index total (Title video) (ID video)
              (BytesRead sample) (TotalBytesExpected sample)) log)
      samples log in
  match outcome d with
  | inr text =>
      emitProgress progress
        (Progress.failed kind index total (Title video) (ID video) text) log
  | inl (item, true) =>
      emitProgress progress
        (Progress.skipped kind index total (Title video) (ID video)
           (quote (Title video) ++ " already exists, skipping")) log
  | inl (item, false) =>
      let r := appendItem (result ls) item in
      emitProgress progress
        (Progress.downloaded kind index total (Title video) (ID video)
           ("Downloaded " ++ quote (Title video))
           (Imported r) (Z.of_nat (length (Errors r))) (TotalBytes r) (Key item)) log
  end.

(** The calls made by the loop, up to its end or to the item at which
    the context is found cancelled. *)
Fixpoint loopEvents (progress : bool) (kind : string) (total : Z)
    (ctxErr : nat -> option string) (bucketName prefix : string) (client : Client)
    (i : nat) (videos : list Video) (ls : LoopState)
    (log : list Progress.YouTubeImportProgress) : list Progress.YouTubeImportProgress :=
  match videos with
  | [] => log
  | video :: rest =>
      match ctxErr i with
      | Some _ => log
      | None =>
          loopEvents progress kind total ctxErr bucketName prefix client (S i) rest
            (importStep formatLess bucketName prefix client ls video)
            (stepEvents progress kind total bucketName prefix client i ls video log)
      end
  end.

(** The calls of the observer during [ImportYouTube], in their order.
    The values the events carry are those of the run itself:
    [resolveYouTubeVideos], [importStep] and [importLoop] are the
    functions [ImportYouTube] is made of. *)
Definition ImportYouTubeEvents (s : BucketService) (input : YouTubeImportInput)
    (progress : bool) : list Progress.YouTubeImportProgress :=
  let url := TrimSpace (URL input) in
  if isEmpty url then []
  else
    match getBucketName s with
    | inr _ => []
    | inl bucketName =>
        match GetObjectStore s with
        | inr _ => []
        | inl st =>
            let client := youtubeClient s in
            let prefix := normalizeObjectPrefix (DestinationPrefix input) in
            let log := emitProgress progress (Progress.resolving prefix) [] in
            let log := resolveEvents progress client url log in
            match resolveYouTubeVideos client url emptyResult with
            | inr _ => log
            | inl (videos, kind, r) =>
                let r := withKind r kind in
                let total := Z.of_nat (length videos) in
                let log := emitProgress progress (Progress.resolved kind total prefix) log in
                let ls := {| result := r; store := st;
                             obs := {| clock := startClock s; emitted := [] |} |} in
                let log :=
                  loopEvents progress kind total (ctxErr s) bucketName prefix client O
                    videos ls log in
                match importLoop formatLess (ctxErr s) bucketName prefix client O videos ls with
                | inr _ => log
                | inl ls =>
                    emitProgress progress
                      (Progress.finished kind (Imported (result ls))
                         (Z.of_nat (length (Errors (result ls))))
                         (Skipped (result ls)) total (TotalBytes (result ls))) log
                end
            end
        end
    end.

End Lifecycle.

(** The stages of the events of one item: [starting], a number of
    samples, and the stage of the outcome. *)
Definition itemStages (run : nat * string) : list string :=
  "starting" :: (repeat "downloading" (fst run) ++ [snd run])%list.

(** The stage of the event that ends an item. *)
Definition outcomeStage (out : (YouTubeImportedItem * bool) + string) : string :=
  match out with
  | inr _ => "error"
  | inl (_, true) => "skipped"
  | inl (_, false) => "downloaded"
  end.

(** How many of the items ended in the given stage. *)
Definition countStage (stage : string) (runs : list (nat * string)) : nat :=
  length (List.filter (fun run => String.eqb (snd run) stage) runs).

(** What a [starting] event tells of its item: index, total, title and
    identifier. *)
Definition announcement (event : Progress.YouTubeImportProgress) : Z * Z * string * string :=
  (Progress.Index event, Progress.Total event,
   Progress.VideoTitle event, Progress.VideoID event).

Definition isStage (stage : string) (event : Progress.YouTubeImportProgress) : bool :=
  String.eqb (Progress.Stage event) stage.

(** The byte count and the expected total of a sample, and of an event. *)
Definition sampleCounters (sample : Sample) : Z * Z :=
  (BytesRead sample, TotalBytesExpected sample).

Definition eventCounters (event : Progress.YouTubeImportProgress) : Z * Z :=
  (Progress.BytesRead event, Progress.TotalBytesExpected event).

(** Evaluates the comparisons of two stage names. *)
Ltac eval_stage_tests :=
  repeat match goal with
         | |- context [String.eqb ?a ?b] =>
             let v := eval vm_compute in (String.eqb a b) in
             change (String.eqb a b) with v
         end.

(* ===================================================================== *)
(** ** Sample data used by the examples *)
(* ===================================================================== *)

(** A ranking for the examples: the higher bitrate comes first. *)
Definition byBitrate (a b : Format) : bool := Bitrate b <? Bitrate a.

Definition fmtMp4 : Format :=
  {| ItagNo := 18; MimeType := "video/mp4; codecs=avc1"; Bitrate := 500;
     AudioChannels := 2; ContentLength := 1000 |}.

Definition fmtM4a : Format :=
  {| ItagNo := 140; MimeType := "audio/mp4; codecs=mp4a"; Bitrate := 128;
     AudioChannels := 2; ContentLength := 1000 |}.

Definition fmtWebm : Format :=
  {| ItagNo := 251; MimeType := "audio/webm; codecs=opus"; Bitrate := 900;
     AudioChannels := 2; ContentLength := 0 |}.

Definition fmtMute : Format :=
  {| ItagNo := 137; MimeType := "video/mp4; codecs=avc1"; Bitrate := 5000;
     AudioChannels := 0; ContentLength := 9000 |}.

Definition videoA : Video :=
  {| ID := "a1"; Title := "Same Title"; Formats := [fmtMute; fmtM4a; fmtMp4; fmtWebm] |}.

Definition videoB : Video :=
  {| ID := "b2"; Title := "Same  Title!"; Formats := [fmtMp4] |}.

(** Same title as [videoA], but only an audio encoding. *)
Definition videoC : Video :=
  {| ID := "c3"; Title := "Same Title"; Formats := [fmtM4a] |}.

Definition videoMute : Video :=
  {| ID := "m4"; Title := "Silent"; Formats := [fmtMute] |}.


(** A stream of 1000 bytes, delivered in two reads and ended by a third. *)
Definition body1000 : Stream :=
  {| pending := [(400, ErrNil); (600, ErrNil); (0, ErrEOF)]; closeCalls := 0 |}.

Definition entryOf (v : Video) : PlaylistEntry :=
  {| EntryID := ID v; EntryTitle := Title v |}.

Definition lookupVideo (id : string) (vs : list Video) : Video + ClientError :=
  match List.find (fun v => String.eqb (ID v) id) vs with
  | Some v => inl v
  | None => inr {| IsInvalidPlaylist := false; ErrorText := "video unavailable" |}
  end.

(** A client that knows the videos [vs]; the reference [list] names the
    playlist [entries], every other reference names a video. *)
Definition sampleClient (vs : list Video) (entries : list PlaylistEntry) : Client :=
  {| GetPlaylistContext := fun url =>
       if String.eqb url "list" then inl {| Videos := entries |}
       else inr {| IsInvalidPlaylist := true; ErrorText := "invalid playlist" |};
     GetVideoContext := fun url => lookupVideo url vs;
     VideoFromPlaylistEntryContext := fun e => lookupVideo (EntryID e) vs;
     GetStreamContext := fun _ _ => inl (body1000, 0) |}.

Definition emptyStore : ObjectStore :=
  {| objects := ∅; headFaults := []; putFaults := [] |}.

Definition storeWith (key : string) (obj : StoredObject) : ObjectStore :=
  {| objects := {[ key := obj ]}; headFaults := []; putFaults := [] |}.

Definition noObs : Obs := {| clock := []; emitted := [] |}.

Definition sampleService (client : Client) (st : ObjectStore) : BucketService :=
  {| getBucketName := inl "bucket"; GetObjectStore := inl st; youtubeClient := client;
     ctxErr := fun _ => None; startClock := [] |}.


(** An unrelated object: no identity tag at all. *)
Definition foreignObject : StoredObject :=
  {| Metadata := ∅; ObjContentType := "text/plain"; ObjSize := 3 |}.

(** A playlist of five entries: the second does not resolve, the fourth
    has no encoding with audio, the fifth repeats the first. *)
Definition batchService : BucketService :=
  sampleService
    (sampleClient [videoA; videoB; videoMute]
       [entryOf videoA; {| EntryID := "zz"; EntryTitle := "gone" |};
        entryOf videoB; entryOf videoMute; entryOf videoA])
    emptyStore.

Definition batchInput : YouTubeImportInput :=
  {| URL := " list "; DestinationPrefix := "/media" |}.

(** A single video. *)
Definition singleService : BucketService :=
  sampleService (sampleClient [videoA] []) emptyStore.

Definition singleInput : YouTubeImportInput :=
  {| URL := "a1"; DestinationPrefix := EmptyString |}.

(** Two videos of the same title whose encodings differ in extension. *)
Definition mixedService : BucketService :=
  sampleService (sampleClient [videoC; videoB] [entryOf videoC; entryOf videoB]) emptyStore.

Definition mixedInput : YouTubeImportInput :=
  {| URL := "list"; DestinationPrefix := EmptyString |}.

(** A stream of 1000 bytes whose last read brings data and the end. *)
Definition bodyThreeReads : Stream :=
  {| pending := [(400, ErrNil); (300, ErrNil); (300, ErrEOF)]; closeCalls := 0 |}.

(** Clock readings in nanoseconds: at the creation of the reader, then
    0.6 s, 0.7 s, 0.8 s and 0.9 s later. *)
Definition slowClock : Obs :=
  {| clock := [0; 600000000; 700000000; 800000000; 900000000]; emitted := [] |}.

(** A bucket that already holds an unrelated object under the primary
    key of [videoA]. *)
Definition busyService : BucketService :=
  sampleService
    (sampleClient [videoA; videoB; videoMute]
       [entryOf videoA; entryOf videoB; entryOf videoMute])
    (storeWith "media/Same-Title.mp4" foreignObject).

(** The batch of [batchService], cancelled before its third item. *)
Definition cancelledService : BucketService :=
  {| getBucketName := getBucketName batchService;
     GetObjectStore := GetObjectStore batchService;
     youtubeClient := youtubeClient batchService;
     ctxErr := fun i => if (i =? 2)%nat then Some "context canceled" else None;
     startClock := [] |}.

(** The service of [mixedService] once its batch has run: the bucket is
    the one the first run left. *)
Definition mixedServiceAgain : BucketService :=
  sampleService (youtubeClient mixedService)
    match ImportYouTube byBitrate mixedService mixedInput with
    | inl ls => store ls
    | inr _ => emptyStore
    end.

(** A quoting for the examples: the title between two marks. *)
Definition markQuote (title : string) : string := "<" ++ title ++ ">".

(** A source that announces a length and delivers no countable byte:
    its one read ends the stream. *)
Definition bodySilent : Stream :=
  {| pending := [(0, ErrEOF)]; closeCalls := 0 |}.

(** The client of [sampleClient] with the streams of [bodySilent]. *)
Definition silentClient (vs : list Video) (entries : list PlaylistEntry) : Client :=
  {| GetPlaylistContext := GetPlaylistContext (sampleClient vs entries);
     GetVideoContext := GetVideoContext (sampleClient vs entries);
     VideoFromPlaylistEntryContext := VideoFromPlaylistEntryContext (sampleClient vs entries);
     GetStreamContext := fun _ _ => inl (bodySilent, 0) |}.

(** An encoding that declares a length of 6 * 10^18 bytes. *)
Definition fmtHuge : Format :=
  {| ItagNo := 18; MimeType := "video/mp4; codecs=avc1"; Bitrate := 500;
     AudioChannels := 2; ContentLength := 6000000000000000000 |}.

Definition videoHuge1 : Video :=
  {| ID := "h1"; Title := "Huge one"; Formats := [fmtHuge] |}.

Definition videoHuge2 : Video :=
  {| ID := "h2"; Title := "Huge two"; Formats := [fmtHuge] |}.

(** A playlist of two items of the declared length of [fmtHuge]. *)
Definition hugeService : BucketService :=
  sampleService
    (silentClient [videoHuge1; videoHuge2] [entryOf videoHuge1; entryOf videoHuge2])
    emptyStore.






(* ===================================================================== *)
(** ** Facts about the string functions *)
(* ===================================================================== *)

#[local] Arguments Ascii.eqb : simpl never.

Lemma HasPrefix_cons (a b : ascii) (s p : string) :
  HasPrefix (String b s) (String a p) = if Ascii.eqb a b then HasPrefix s p else false.
Proof. reflexivity. Qed.

Lemma append_cons (c : ascii) (a b : string) : String c a ++ b = String c (a ++ b).
Proof. reflexivity. Qed.

Lemma append_empty_r (s : string) : s ++ EmptyString = s.
Proof.
  induction s as [|c r IH]; [reflexivity|].
  now rewrite append_cons, IH.
Qed.

Lemma append_assoc (a b c : string) : (a ++ b) ++ c = a ++ (b ++ c).
Proof.
  induction a as [|x a IH]; [reflexivity|].
  now rewrite !append_cons, IH.
Qed.

Lemma length_append (a b : string) :
  String.length (a ++ b) = (String.length a + String.length b)%nat.
Proof.
  induction a as [|x a IH]; [reflexivity|].
  rewrite append_cons. simpl. now rewrite IH.
Qed.

Lemma inCutset_slash (c : ascii) : inCutset "/" c = isSlash c.
Proof.
  unfold inCutset, isSlash. simpl.
  destruct (Ascii.eqb c "/"); reflexivity.
Qed.

Lemma HasPrefix_refl_app (p s : string) : HasPrefix (p ++ s) p = true.
Proof.
  induction p as [|c p IH]; [reflexivity|].
  rewrite append_cons. simpl. now rewrite Ascii.eqb_refl.
Qed.

Lemma HasPrefix_app_inv (s p : string) :
  HasPrefix s p = true -> exists rest, s = p ++ rest.
Proof.
  revert s. induction p as [|c p IH]; intros s H; simpl in *.
  - now exists s.
  - destruct s as [|d s]; [discriminate|].
    destruct (Ascii.eqb c d) eqn:E; [|discriminate].
    apply Ascii.eqb_eq in E. subst d.
    destruct (IH _ H) as [rest ->]. exists rest. now rewrite append_cons.
Qed.

Lemma HasPrefix_app_l (a b p : string) :
  HasPrefix a p = true -> HasPrefix (a ++ b) p = true.
Proof.
  intros H. destruct (HasPrefix_app_inv _ _ H) as [rest ->].
  rewrite append_assoc. apply HasPrefix_refl_app.
Qed.

Lemma Contains_app_l (a b sub : string) :
  Contains a sub = true -> Contains (a ++ b) sub = true.
Proof.
  induction a as [|c a IH]; intros H.
  - simpl in H. rewrite orb_false_r in H.
    destruct sub; [destruct b; reflexivity | discriminate].
  - rewrite append_cons. simpl in *.
    apply orb_true_iff in H. apply orb_true_iff.
    destruct H as [H|H].
    + left. exact (HasPrefix_app_l (String c a) b sub H).
    + right. now apply IH.
Qed.

Lemma Contains_app_r (a b sub : string) :
  Contains b sub = true -> Contains (a ++ b) sub = true.
Proof.
  induction a as [|c a IH]; intros H; [exact H|].
  rewrite append_cons. simpl.
  apply orb_true_iff. right. now apply IH.
Qed.

Lemma Contains_tail (c : ascii) (r sub : string) :
  Contains (String c r) sub = false -> Contains r sub = false.
Proof. simpl. intros H. now apply orb_false_iff in H. Qed.

Lemma take_drop (k : nat) (s : string) : take k s ++ drop k s = s.
Proof.
  revert s. induction k as [|k IH]; intros [|c r]; simpl; try reflexivity.
  now rewrite append_cons, IH.
Qed.

(** A part of a string cut out by [drop] or [take] brings no new
    occurrence of [sub]. *)
Lemma Contains_drop (k : nat) (s sub : string) :
  Contains s sub = false -> Contains (drop k s) sub = false.
Proof.
  intros H. destruct (Contains (drop k s) sub) eqn:E; [|reflexivity].
  rewrite <- (take_drop k s) in H.
  now rewrite (Contains_app_r _ _ _ E) in H.
Qed.

Lemma Contains_take (k : nat) (s sub : string) :
  Contains s sub = false -> Contains (take k s) sub = false.
Proof.
  intros H. destruct (Contains (take k s) sub) eqn:E; [|reflexivity].
  rewrite <- (take_drop k s) in H.
  now rewrite (Contains_app_l _ _ _ E) in H.
Qed.

Lemma allBytes_drop (f : ascii -> bool) (k : nat) (s : string) :
  allBytes f s = true -> allBytes f (drop k s) = true.
Proof.
  revert s. induction k as [|k IH]; intros [|c r]; simpl; auto.
  intros H. apply andb_true_iff in H. now apply IH.
Qed.

Lemma allBytes_take (f : ascii -> bool) (k : nat) (s : string) :
  allBytes f s = true -> allBytes f (take k s) = true.
Proof.
  revert s. induction k as [|k IH]; intros [|c r]; simpl; auto.
  intros H. apply andb_true_iff in H. destruct H as [Hc Hr].
  rewrite Hc. now apply IH.
Qed.

(** *** White-space trimming cuts a part out of the string *)

Lemma drop_drop (a b : nat) (s : string) : drop b (drop a s) = drop (a + b) s.
Proof.
  revert s. induction a as [|a IH]; intros s; [reflexivity|].
  destruct s as [|c r]; [now destruct b | apply IH].
Qed.

Lemma trimLeftSpace_drop (fuel : nat) (s : string) :
  exists k, trimLeftSpace fuel s = drop k s.
Proof.
  revert s. induction fuel as [|fuel IH]; intros s; cbn [trimLeftSpace].
  - now exists O.
  - destruct (leadingSpaceWidth s) as [|w].
    + now exists O.
    + destruct (IH (drop (S w) s)) as [k ->].
      rewrite drop_drop. eauto.
Qed.

Lemma take_take (a b : nat) (s : string) : take a (take b s) = take (Nat.min a b) s.
Proof.
  revert b s. induction a as [|a IH]; intros [|b] [|c r]; simpl; try reflexivity.
  now rewrite IH.
Qed.

Lemma take_length (s : string) : take (String.length s) s = s.
Proof. induction s as [|c r IH]; cbn; [reflexivity | f_equal; exact IH]. Qed.

Lemma trimRightSpace_take (fuel : nat) (s : string) :
  exists k, trimRightSpace fuel s = take k s.
Proof.
  revert s. induction fuel as [|fuel IH]; intros s; cbn [trimRightSpace].
  - exists (String.length s). now rewrite take_length.
  - destruct (trailingSpaceWidth s) as [|w].
    + exists (String.length s). now rewrite take_length.
    + destruct (IH (take (String.length s - S w) s)) as [k ->].
      rewrite take_take. eauto.
Qed.

Lemma TrimSpace_part (s : string) :
  exists a b, TrimSpace s = take a (drop b s).
Proof.
  unfold TrimSpace.
  destruct (trimLeftSpace_drop (String.length s) s) as [b ->].
  destruct (trimRightSpace_take (String.length (drop b s)) (drop b s)) as [a ->].
  eauto.
Qed.

(** *** Byte trimming *)

Lemma trimLeftBytes_part (f : ascii -> bool) (s : string) :
  exists k, trimLeftBytes f s = drop k s.
Proof.
  induction s as [|c r [k IH]]; simpl.
  - now exists O.
  - destruct (f c); [now exists (S k) | now exists O].
Qed.

Lemma trimLeftBytes_head (f : ascii -> bool) (s : string) (c : ascii) (r : string) :
  trimLeftBytes f s = String c r -> f c = false.
Proof.
  induction s as [|d s IH]; simpl; [discriminate|].
  destruct (f d) eqn:E; [exact IH|].
  intros [= <- <-]. exact E.
Qed.

Lemma allBytes_trimLeftBytes (f : ascii -> bool) (s : string) :
  allBytes f (trimLeftBytes f s) = allBytes f s.
Proof.
  induction s as [|c r IH]; simpl; [reflexivity|].
  destruct (f c) eqn:E; simpl; [exact IH | now rewrite E].
Qed.

Lemma trimRightBytes_empty (f : ascii -> bool) (s : string) :
  isEmpty (trimRightBytes f s) = allBytes f s.
Proof.
  induction s as [|c r IH]; simpl; [reflexivity|].
  rewrite IH. destruct (allBytes f r), (f c); reflexivity.
Qed.

Lemma trimRightBytes_part (f : ascii -> bool) (s : string) :
  exists k, trimRightBytes f s = take k s.
Proof.
  induction s as [|c r [k IH]]; simpl.
  - now exists O.
  - destruct (isEmpty (trimRightBytes f r) && f c).
    + now exists O.
    + exists (S k). simpl. now rewrite IH.
Qed.

Lemma trimRightBytes_head (f : ascii -> bool) (c d : ascii) (r r' : string) :
  trimRightBytes f (String c r) = String d r' -> d = c.
Proof.
  simpl. destruct (isEmpty (trimRightBytes f r) && f c); congruence.
Qed.

(** [HasSuffix] for a one-byte suffix looks at the last byte. *)
Lemma HasSuffix_byte_cons (c d : ascii) (r : string) :
  HasSuffix (String c r) (String d EmptyString) =
  if isEmpty r then Ascii.eqb c d else HasSuffix r (String d EmptyString).
Proof.
  unfold HasSuffix. destruct r as [|c' r']; simpl.
  - now destruct (Ascii.eqb c d).
  - now rewrite !Nat.sub_0_r.
Qed.

Lemma trimRightBytes_last (f : ascii -> bool) (d : ascii) (s : string) :
  f d = true -> HasSuffix (trimRightBytes f s) (String d EmptyString) = false.
Proof.
  intros Hd. induction s as [|c r IH]; [reflexivity|].
  cbn [trimRightBytes].
  destruct (isEmpty (trimRightBytes f r)) eqn:E; simpl.
  - destruct (f c) eqn:Ec; [reflexivity|].
    rewrite HasSuffix_byte_cons, E.
    destruct (Ascii.eqb c d) eqn:Ecd; [|reflexivity].
    apply Ascii.eqb_eq in Ecd. congruence.
  - now rewrite HasSuffix_byte_cons, E.
Qed.

Lemma collapseSlashes_other (c : ascii) (r : string) :
  HasPrefix (String c r) "//" = false ->
  collapseSlashes (String c r) = String c (collapseSlashes r).
Proof.
  unfold collapseSlashes, ReplaceAll. cbn [replace_go]. now intros ->.
Qed.

Lemma HasPrefix_pair (c : ascii) (r : string) :
  HasPrefix (String c r) "//" = true ->
  c = "/"%char /\ exists r', r = String "/" r'.
Proof.
  simpl. destruct (Ascii.eqb "/" c) eqn:E; [|discriminate].
  apply Ascii.eqb_eq in E. subst c.
  destruct r as [|d r']; [discriminate|].
  destruct (Ascii.eqb "/" d) eqn:E'; [|discriminate].
  apply Ascii.eqb_eq in E'. subst d. eauto.
Qed.

(** Every statement about [collapseSlashes] goes by induction on a
    bound of the length: a pair of slashes is passed in one step. *)
Lemma collapseSlashes_cases (s : string) :
  s = EmptyString \/
  (exists r, s = String "/" (String "/" r) /\
             collapseSlashes s = String "/" (collapseSlashes r)) \/
  (exists c r, s = String c r /\ HasPrefix s "//" = false /\
               collapseSlashes s = String c (collapseSlashes r)).
Proof.
  destruct s as [|c r]; [now left | right].
  destruct (HasPrefix (String c r) "//") eqn:E.
  - left. destruct (HasPrefix_pair _ _ E) as [-> [r' ->]]. eauto.
  - right. exists c, r. auto using collapseSlashes_other.
Qed.

Lemma collapseSlashes_head (s : string) :
  HasPrefix (collapseSlashes s) "/" = HasPrefix s "/".
Proof.
  destruct (collapseSlashes_cases s) as [-> | [(r & -> & ->) | (c & r & -> & _ & ->)]];
    reflexivity.
Qed.

Lemma allSlashes_collapse (s : string) :
  allSlashes (collapseSlashes s) = allSlashes s.
Proof.
  remember (String.length s) as n eqn:Hn.
  assert (Hle : (String.length s <= n)%nat) by lia. clear Hn.
  revert s Hle. induction n as [|n IH]; intros s Hle.
  - destruct s; [reflexivity | simpl in Hle; lia].
  - destruct (collapseSlashes_cases s) as [-> | [(r & -> & ->) | (c & r & -> & _ & ->)]].
    + reflexivity.
    + simpl in Hle. unfold allSlashes in *. simpl. apply IH. lia.
    + simpl in Hle. unfold allSlashes in *. simpl. f_equal. apply IH. lia.
Qed.

(** Without a run of three slashes in the input, the single pass
    leaves no two slashes side by side. *)
Lemma collapseSlashes_no_pair (s : string) :
  Contains s "///" = false -> Contains (collapseSlashes s) "//" = false.
Proof.
  remember (String.length s) as n eqn:Hn.
  assert (Hle : (String.length s <= n)%nat) by lia. clear Hn.
  revert s Hle. induction n as [|n IH]; intros s Hle H3.
  - destruct s; [reflexivity | simpl in Hle; lia].
  - destruct (collapseSlashes_cases s) as [-> | [(r & -> & ->) | (c & r & -> & Hp & ->)]].
    + reflexivity.
    + simpl in Hle.
      assert (Hr : Contains r "///" = false)
        by (apply (Contains_tail "/"), (Contains_tail "/"); exact H3).
      assert (Hh : HasPrefix r "/" = false).
      { destruct r as [|d r']; [reflexivity|].
        simpl. destruct (Ascii.eqb "/" d) eqn:E; [|reflexivity].
        apply Ascii.eqb_eq in E. subst d. simpl in H3. discriminate. }
      change (Contains (String "/" (collapseSlashes r)) "//")
        with (HasPrefix (String "/" (collapseSlashes r)) "//"
              || Contains (collapseSlashes r) "//").
      rewrite (IH r) by (auto; lia). rewrite orb_false_r.
      change (HasPrefix (String "/" (collapseSlashes r)) "//")
        with (HasPrefix (collapseSlashes r) "/").
      now rewrite collapseSlashes_head.
    + simpl in Hle.
      change (Contains (String c (collapseSlashes r)) "//")
        with (HasPrefix (String c (collapseSlashes r)) "//"
              || Contains (collapseSlashes r) "//").
      rewrite (IH r) by (eauto using Contains_tail; lia). rewrite orb_false_r.
      rewrite HasPrefix_cons in Hp |- *.
      destruct (Ascii.eqb "/" c); [|reflexivity].
      now rewrite collapseSlashes_head.
Qed.

(** *** White space only *)

Lemma drop_app (a b : string) : drop (String.length a) (a ++ b) = b.
Proof. induction a as [|c a IH]; [reflexivity | exact IH]. Qed.

Lemma spaceRune_leading (w rest : string) :
  In w spaceRunes ->
  leadingSpaceWidth (w ++ rest) = String.length w /\ String.length w <> O.
Proof.
  intros H. unfold spaceRunes in H. simpl in H.
  repeat (destruct H as [<- | H]; [split; [reflexivity | discriminate] |]).
  destruct H.
Qed.

Lemma concat_empty_cons (w : string) (ws : list string) :
  String.concat EmptyString (w :: ws) = w ++ String.concat EmptyString ws.
Proof.
  destruct ws as [|w' ws]; simpl; [now rewrite append_empty_r | reflexivity].
Qed.

Lemma trimLeftSpace_allSpaces (ws : list string) (fuel : nat) :
  Forall (fun w => In w spaceRunes) ws ->
  (length ws <= fuel)%nat ->
  trimLeftSpace fuel (String.concat EmptyString ws) = EmptyString.
Proof.
  intros Hws. revert fuel. induction Hws as [|w ws Hw _ IH]; intros fuel Hle.
  - destruct fuel; reflexivity.
  - destruct fuel as [|fuel]; [simpl in Hle; lia|].
    rewrite concat_empty_cons. cbn [trimLeftSpace].
    destruct (spaceRune_leading w (String.concat EmptyString ws) Hw) as [-> Hne].
    destruct (String.length w) as [|k] eqn:Hk; [congruence|].
    rewrite <- Hk, drop_app. apply IH. simpl in Hle. lia.
Qed.

Lemma length_concat_spaces (ws : list string) :
  Forall (fun w => In w spaceRunes) ws ->
  (length ws <= String.length (String.concat EmptyString ws))%nat.
Proof.
  induction 1 as [|w ws Hw _ IH]; [simpl; lia|].
  rewrite concat_empty_cons, length_append.
  destruct (spaceRune_leading w EmptyString Hw) as [_ Hne]. simpl. lia.
Qed.

Lemma TrimSpace_allSpaces (s : string) : allSpaces s -> TrimSpace s = EmptyString.
Proof.
  intros (ws & Hws & ->). unfold TrimSpace.
  rewrite trimLeftSpace_allSpaces by auto using length_concat_spaces.
  reflexivity.
Qed.

(** *** The shape of a normalized prefix *)

Lemma allBytes_ext (f g : ascii -> bool) (s : string) :
  (forall c, f c = g c) -> allBytes f s = allBytes g s.
Proof.
  intros E. induction s as [|c r IH]; simpl; [reflexivity | now rewrite E, IH].
Qed.

Lemma allSlashes_TrimPrefix (s : string) :
  allSlashes (TrimPrefix s "/") = allSlashes s.
Proof.
  unfold TrimPrefix. destruct s as [|c r]; [reflexivity|].
  rewrite HasPrefix_cons. unfold allSlashes. simpl.
  destruct (Ascii.eqb "/" c) eqn:E; [|reflexivity].
  apply Ascii.eqb_eq in E. now subst c.
Qed.

Lemma normalizeObjectPrefix_unfold (prefix : string) :
  normalizeObjectPrefix prefix =
  if isEmpty (trimmedPrefix prefix) then EmptyString else trimmedPrefix prefix ++ "/".
Proof. reflexivity. Qed.

Lemma trimmedPrefix_empty (prefix : string) :
  isEmpty (trimmedPrefix prefix) = allSlashes (TrimSpace prefix).
Proof.
  unfold trimmedPrefix, Trim.
  rewrite trimRightBytes_empty, allBytes_trimLeftBytes.
  rewrite (allBytes_ext _ isSlash) by apply inCutset_slash.
  fold (collapseSlashes (TrimPrefix (TrimSpace prefix) "/")).
  fold (allSlashes (collapseSlashes (TrimPrefix (TrimSpace prefix) "/"))).
  now rewrite allSlashes_collapse, allSlashes_TrimPrefix.
Qed.

Lemma trimmedPrefix_head (prefix : string) :
  HasPrefix (trimmedPrefix prefix) "/" = false.
Proof.
  unfold trimmedPrefix, Trim.
  set (x := ReplaceAll _ _ _).
  destruct (trimLeftBytes (inCutset "/") x) as [|c r] eqn:E; [reflexivity|].
  pose proof (trimLeftBytes_head _ _ _ _ E) as Hc.
  destruct (trimRightBytes (inCutset "/") (String c r)) as [|d r'] eqn:E'; [reflexivity|].
  apply trimRightBytes_head in E'. subst d.
  rewrite HasPrefix_cons. rewrite inCutset_slash in Hc. unfold isSlash in Hc.
  rewrite Ascii.eqb_sym, Hc. reflexivity.
Qed.

Lemma trimmedPrefix_last (prefix : string) :
  HasSuffix (trimmedPrefix prefix) "/" = false.
Proof. unfold trimmedPrefix, Trim. now apply trimRightBytes_last. Qed.

Lemma trimmedPrefix_no_pair (prefix : string) :
  Contains prefix "///" = false -> Contains (trimmedPrefix prefix) "//" = false.
Proof.
  intros H. unfold trimmedPrefix, Trim.
  destruct (trimRightBytes_part (inCutset "/")
              (trimLeftBytes (inCutset "/")
                 (ReplaceAll (TrimPrefix (TrimSpace prefix) "/") "//" "/"))) as [a ->].
  destruct (trimLeftBytes_part (inCutset "/")
              (ReplaceAll (TrimPrefix (TrimSpace prefix) "/") "//" "/")) as [b ->].
  apply Contains_take, Contains_drop, collapseSlashes_no_pair.
  destruct (TrimSpace_part prefix) as (a' & b' & ->).
  unfold TrimPrefix.
  destruct (HasPrefix _ "/"); [apply Contains_drop|];
    now apply Contains_take, Contains_drop.
Qed.

(** Appending the final slash to a string that does not end with one
    makes no pair of slashes. *)
Lemma append_slash_no_pair (t : string) :
  Contains t "//" = false -> HasSuffix t "/" = false ->
  Contains (t ++ "/") "//" = false.
Proof.
  induction t as [|c r IH]; intros Hc Hs; [reflexivity|].
  rewrite append_cons.
  change (Contains (String c (r ++ "/")) "//")
    with (HasPrefix (String c (r ++ "/")) "//" || Contains (r ++ "/") "//").
  rewrite HasSuffix_byte_cons in Hs.
  pose proof (Contains_tail _ _ _ Hc) as Hr.
  change (Contains (String c r) "//")
    with (HasPrefix (String c r) "//" || Contains r "//") in Hc.
  apply orb_false_iff in Hc. destruct Hc as [Hp _].
  rewrite HasPrefix_cons in Hp |- *.
  destruct r as [|d r'].
  - simpl in Hs. rewrite Ascii.eqb_sym, Hs. reflexivity.
  - simpl in Hs. rewrite (IH Hr Hs), orb_false_r.
    rewrite append_cons. destruct (Ascii.eqb "/" c); [|reflexivity].
    rewrite HasPrefix_cons in Hp |- *. destruct (Ascii.eqb "/" d); [discriminate | reflexivity].
Qed.

(* ===================================================================== *)
(** ** Facts about the identity metadata *)
(* ===================================================================== *)

Lemma metadataMatches_carries (metadata : gmap string string) (videoID : string) :
  metadataMatchesYouTubeVideo metadata videoID = true <->
  videoID <> EmptyString /\ carriesSourceId metadata videoID.
Proof.
  unfold metadataMatchesYouTubeVideo, carriesSourceId.
  destruct (size metadata =? 0)%nat eqn:Hsz.
  - apply Nat.eqb_eq, map_size_empty_iff in Hsz. subst metadata. simpl.
    split; [discriminate|]. intros (_ & k & _ & Hk). now rewrite lookup_empty in Hk.
  - destruct videoID as [|c r]; simpl.
    + split; [discriminate | intros [H _]; congruence].
    + rewrite existsb_exists. split.
      * intros ([k v] & Hin & Hkv). simpl in Hkv.
        apply andb_true_iff in Hkv. destruct Hkv as [Hk Hv].
        apply String.eqb_eq in Hv. subst v.
        apply list_elem_of_In, elem_of_map_to_list in Hin.
        split; [discriminate | eauto].
      * intros (_ & k & Hk & Hl). exists (k, String c r). split.
        -- now apply list_elem_of_In, elem_of_map_to_list.
        -- cbn [fst snd]. rewrite Hk. apply (String.eqb_refl (String c r)).
Qed.

Lemma metadataMatches_empty_map (videoID : string) :
  metadataMatchesYouTubeVideo ∅ videoID = false.
Proof. reflexivity. Qed.

Lemma metadataMatches_empty_id (metadata : gmap string string) :
  metadataMatchesYouTubeVideo metadata EmptyString = false.
Proof.
  unfold metadataMatchesYouTubeVideo. simpl. now rewrite orb_true_r.
Qed.

(** *** [EqualFold] on ASCII strings is equality up to letter case *)

Lemma isASCII_not_byte (b : ascii) (n : nat) :
  isASCII b = true -> isASCII (byte_of n) = false -> Ascii.eqb (byte_of n) b = false.
Proof.
  intros Hb Hn. destruct (Ascii.eqb (byte_of n) b) eqn:E; [|reflexivity].
  apply Ascii.eqb_eq in E. congruence.
Qed.

Lemma foldWidth_ascii (a b : ascii) (r : string) :
  isASCII b = true ->
  foldWidth a (String b r) = if Ascii.eqb (lowerByte a) (lowerByte b) then 1%nat else O.
Proof.
  intros Hb. unfold foldWidth. fold (isASCII b). rewrite Hb, andb_true_r.
  destruct (Ascii.eqb (lowerByte a) (lowerByte b)); [reflexivity|].
  change (bytes [226; 132; 170]%nat)
    with (String (byte_of 226) (String (byte_of 132) (String (byte_of 170) EmptyString))).
  change (bytes [197; 191]%nat)
    with (String (byte_of 197) (String (byte_of 191) EmptyString)).
  rewrite !HasPrefix_cons.
  rewrite !(isASCII_not_byte b) by (exact Hb || reflexivity).
  now rewrite !andb_false_r.
Qed.

Lemma EqualFold_ascii (k t : string) :
  allBytes isASCII k = true ->
  EqualFold k t = true <-> ToLower k = ToLower t.
Proof.
  unfold EqualFold. revert t. induction k as [|b r IH]; intros t Hk.
  - destruct t; simpl; split; congruence.
  - simpl in Hk. apply andb_true_iff in Hk. destruct Hk as [Hb Hr].
    destruct t as [|a t'].
    + simpl. split; congruence.
    + cbn [equalFold_go]. rewrite (foldWidth_ascii a b r Hb).
      simpl ToLower.
      destruct (Ascii.eqb (lowerByte a) (lowerByte b)) eqn:E.
      * apply Ascii.eqb_eq in E. rewrite (IH t' Hr), E.
        split; [now intros -> | now intros [= ->]].
      * apply Ascii.eqb_neq in E. split; [discriminate | intros [= H _]; congruence].
Qed.

(** *** Equality up to letter case, byte by byte *)

Lemma allBytePairs_spec (p : ascii -> ascii -> bool) :
  allBytePairs p = true -> forall a b, p a b = true.
Proof.
  unfold allBytePairs. rewrite forallb_forall. intros H a b.
  assert (Hin : forall c, In (code c) (List.seq 0 256)).
  { intros c. apply in_seq. pose proof (nat_ascii_bounded c). unfold code. lia. }
  specialize (H (code a) (Hin a)). rewrite forallb_forall in H.
  specialize (H (code b) (Hin b)).
  unfold code, byte_of in H. now rewrite !ascii_nat_embedding in H.
Qed.

(** Two bytes have the same lowering exactly when they are the same
    letter up to case: checked on the 256 * 256 pairs of bytes. *)
Lemma lowerByte_sameLetter (a b : ascii) :
  Ascii.eqb (lowerByte a) (lowerByte b) = sameLetter a b.
Proof.
  apply Bool.eqb_prop.
  apply (allBytePairs_spec
           (fun a b => Bool.eqb (Ascii.eqb (lowerByte a) (lowerByte b)) (sameLetter a b))).
  vm_compute. reflexivity.
Qed.

Lemma ToLower_equalIgnoringCase (s t : string) :
  ToLower s = ToLower t <-> equalIgnoringCase s t = true.
Proof.
  revert t. induction s as [|a s IH]; intros [|b t]; simpl;
    try (split; [discriminate | discriminate]); [split; reflexivity|].
  rewrite andb_true_iff, <- lowerByte_sameLetter, Ascii.eqb_eq, <- IH.
  split; [intros [= -> ->]; auto | intros [-> ->]; reflexivity].
Qed.

Lemma sameLetter_ascii (a b : ascii) :
  sameLetter a b = true -> isASCII b = true -> isASCII a = true.
Proof.
  intros H.
  assert (Hall : implb (sameLetter a b) (implb (isASCII b) (isASCII a)) = true).
  { apply (allBytePairs_spec
             (fun a b => implb (sameLetter a b) (implb (isASCII b) (isASCII a)))).
    vm_compute. reflexivity. }
  rewrite H in Hall. simpl in Hall. intros Hb. rewrite Hb in Hall. exact Hall.
Qed.

Lemma equalIgnoringCase_ascii (s t : string) :
  equalIgnoringCase s t = true -> allBytes isASCII t = true -> allBytes isASCII s = true.
Proof.
  revert t. induction s as [|a s IH]; intros [|b t]; simpl; try discriminate; auto.
  rewrite !andb_true_iff. intros [Hl Hr] [Hb Ht].
  split; [exact (sameLetter_ascii a b Hl Hb) | exact (IH t Hr Ht)].
Qed.

(** On a key made of ASCII bytes, [EqualFold] is equality without
    regard to the case of the letters. *)
Lemma EqualFold_equalIgnoringCase (k t : string) :
  allBytes isASCII k = true -> EqualFold k t = equalIgnoringCase k t.
Proof.
  intros Hk. apply Bool.eq_iff_eq_true.
  rewrite (EqualFold_ascii k t Hk). apply ToLower_equalIgnoringCase.
Qed.

(** A key that equals the identity key up to letter case is taken for
    the identity key. *)
Lemma EqualFold_identity_key (k : string) :
  equalIgnoringCase k youtubeVideoIDMetadataKey = true ->
  EqualFold k youtubeVideoIDMetadataKey = true.
Proof.
  intros H. rewrite EqualFold_equalIgnoringCase; [exact H|].
  apply (equalIgnoringCase_ascii k youtubeVideoIDMetadataKey H). reflexivity.
Qed.

(* ===================================================================== *)
(** ** Facts about the format selection *)
(* ===================================================================== *)

Section SortFacts.

Variable formatLess : Format -> Format -> bool.

Lemma insertFormat_perm (x : Format) (l : list Format) :
  Permutation (x :: l) (insertFormat formatLess x l).
Proof.
  induction l as [|y r IH]; simpl; [apply Permutation_refl|].
  destruct (formatLess y x); [|apply Permutation_refl].
  eapply Permutation_trans; [apply perm_swap|]. now apply perm_skip.
Qed.

Lemma Sort_perm (l : list Format) : Permutation l (Sort formatLess l).
Proof.
  induction l as [|x r IH]; simpl; [apply Permutation_refl|].
  eapply Permutation_trans; [apply perm_skip, IH | apply insertFormat_perm].
Qed.

Lemma Sort_In (l : list Format) (f : Format) : In f (Sort formatLess l) <-> In f l.
Proof.
  split; apply Permutation_in;
    [apply Permutation_sym|]; apply Sort_perm.
Qed.

Lemma Sort_nil_inv (l : list Format) : Sort formatLess l = [] -> l = [].
Proof.
  intros H. apply Permutation_nil. rewrite <- H. apply Permutation_sym, Sort_perm.
Qed.

Lemma candidateFormats_pool (video : Video) :
  candidateFormats formatLess video = Sort formatLess (formatPool video).
Proof.
  unfold candidateFormats, formatPool.
  destruct (mp4Formats (WithAudioChannels (Formats video))); reflexivity.
Qed.


Lemma formatPool_nil (video : Video) :
  formatPool video = [] <-> WithAudioChannels (Formats video) = [].
Proof.
  unfold formatPool, mp4Formats.
  destruct (List.filter _ (WithAudioChannels _)) as [|p ps] eqn:E.
  - reflexivity.
  - split; [discriminate|]. intros H. rewrite H in E. discriminate.
Qed.

Lemma formatPool_preferred (video : Video) (f : Format) :
  mp4Formats (WithAudioChannels (Formats video)) <> [] ->
  In f (formatPool video) -> Contains (MimeType f) "mp4" = true.
Proof.
  unfold formatPool, mp4Formats.
  destruct (List.filter _ (WithAudioChannels _)) as [|p ps] eqn:E; [congruence|].
  intros _ H. rewrite <- E in H. now apply filter_In in H.
Qed.

End SortFacts.


Lemma selectYouTubeFormat_pool (formatLess : Format -> Format -> bool) (video : Video) :
  selectYouTubeFormat formatLess video =
  match Sort formatLess (formatPool video) with
  | selected :: _ => inl selected
  | [] => inr "no downloadable formats with audio were found"
  end.
Proof.
  unfold selectYouTubeFormat. rewrite candidateFormats_pool.
  destruct (WithAudioChannels (Formats video)) as [|f fs] eqn:E.
  - simpl. apply formatPool_nil in E. now rewrite E.
  - simpl. destruct (Sort formatLess (formatPool video)) eqn:Es; [|reflexivity].
    apply Sort_nil_inv, formatPool_nil in Es. congruence.
Qed.





(* ===================================================================== *)
(** ** Facts about [int64] and the progress reporter *)
(* ===================================================================== *)

Lemma pow63 : 2 ^ 63 = 9223372036854775808.
Proof. reflexivity. Qed.

Lemma pow64 : 2 ^ 64 = 18446744073709551616.
Proof. reflexivity. Qed.

Lemma wrap64_small (x : Z) : min_int64 <= x <= max_int64 -> wrap64 x = x.
Proof.
  unfold wrap64, min_int64, max_int64. rewrite pow63, pow64. intros H.
  rewrite Z.mod_small by lia. lia.
Qed.

Lemma wrap64_add (x y : Z) : wrap64 (wrap64 x + y) = wrap64 (x + y).
Proof.
  unfold wrap64. f_equal.
  replace ((x + 2 ^ 63) mod 2 ^ 64 - 2 ^ 63 + y + 2 ^ 63)
    with ((x + 2 ^ 63) mod 2 ^ 64 + y) by lia.
  rewrite Zplus_mod_idemp_l. f_equal. lia.
Qed.

Lemma add64_wrap (x y : Z) : add64 (wrap64 x) y = wrap64 (x + y).
Proof. apply wrap64_add. Qed.

Lemma streamBytes_nonneg (reads : list (Z * ReadErr)) : 0 <= streamBytes reads.
Proof.
  induction reads as [|[n e] rest IH]; simpl; [lia|].
  destruct (0 <? n) eqn:E; [apply Z.ltb_lt in E|]; lia.
Qed.

Lemma streamBytes_app (a b : list (Z * ReadErr)) :
  streamBytes (a ++ b)%list = streamBytes a + streamBytes b.
Proof.
  induction a as [|[n e] rest IH]; simpl; [reflexivity | rewrite IH; lia].
Qed.

(** What a report leaves untouched, and what it may add. *)
Lemma report_effect (force : bool) (p p' : progressReader) (o o' : Obs) :
  report force p o = (p', o') ->
  rc p' = rc p /\ total p' = total p /\ read p' = read p /\ callback p' = callback p /\
  (emitted o' = emitted o \/
   emitted o' = (emitted o ++ [{| BytesRead := read p; TotalBytesExpected := total p |}])%list).
Proof.
  unfold report. destruct (callback p) eqn:Hcb; simpl.
  - destruct (timeNow o) as [now o1] eqn:Hnow.
    assert (Ho1 : emitted o1 = emitted o).
    { unfold timeNow in Hnow. destruct (clock o); injection Hnow as _ <-; reflexivity. }
    destruct (negb force && (now - lastTime p <? halfSecond));
      intros [= <- <-]; simpl; rewrite ?Ho1; auto 10.
  - intros [= <- <-]. auto 10.
Qed.

(** A forced report with a callback always emits. *)
Lemma report_forced (p p' : progressReader) (o o' : Obs) :
  callback p = true ->
  report true p o = (p', o') ->
  emitted o' = (emitted o ++ [{| BytesRead := read p; TotalBytesExpected := total p |}])%list.
Proof.
  unfold report. intros ->. simpl.
  destruct (timeNow o) as [now o1] eqn:Hnow.
  assert (Ho1 : emitted o1 = emitted o).
  { unfold timeNow in Hnow. destruct (clock o); injection Hnow as _ <-; reflexivity. }
  intros [= <- <-]. simpl. now rewrite Ho1.
Qed.

(** One [Read]: the result is the stream's, the count grows by the
    bytes of the read, and the emissions only grow. *)
Lemma progressReader_Read_effect (p p' : progressReader) (o o' : Obs)
    (n : Z) (err : ReadErr) (rest : list (Z * ReadErr)) (r : Z * ReadErr) :
  pending (rc p) = (n, err) :: rest ->
  progressReader_Read p o = (r, p', o') ->
  r = (n, err) /\
  pending (rc p') = rest /\ closeCalls (rc p') = closeCalls (rc p) /\
  total p' = total p /\ callback p' = callback p /\
  read p' = (if 0 <? n then add64 (read p) n else read p) /\
  exists extra, emitted o' = (emitted o ++ extra)%list /\
    (callback p = true -> err = ErrEOF ->
       exists earlier,
         extra = (earlier ++ [{| BytesRead := read p'; TotalBytesExpected := total p |}])%list).
Proof.
  intros Hpend. unfold progressReader_Read, Stream_Read. rewrite Hpend.
  set (p1 := {| rc := _; total := total p; read := read p; lastBytes := lastBytes p;
                lastTime := lastTime p; callback := callback p |}).
  destruct (if 0 <? n then _ else (p1, o)) as [p2 o2] eqn:Hsoft.
  assert (H2 : rc p2 = rc p1 /\ total p2 = total p /\ callback p2 = callback p /\
               read p2 = (if 0 <? n then add64 (read p) n else read p) /\
               exists e2, emitted o2 = (emitted o ++ e2)%list).
  { destruct (0 <? n).
    - apply report_effect in Hsoft. simpl in Hsoft.
      destruct Hsoft as (-> & -> & -> & -> & [-> | ->]); repeat split; eauto.
      exists []. now rewrite app_nil_r.
    - injection Hsoft as <- <-. repeat split; auto. exists []. now rewrite app_nil_r. }
  destruct H2 as (Hrc & Htot & Hcb & Hread & e2 & He2).
  destruct (match err with ErrEOF => report true p2 o2 | _ => (p2, o2) end)
    as [p3 o3] eqn:Hforce.
  intros [= <- <- <-].
  destruct err.
  - injection Hforce as <- <-. rewrite Hrc. repeat split; auto.
    exists e2. split; [exact He2 | discriminate].
  - pose proof (report_effect _ _ _ _ _ Hforce) as (Hrc3 & Htot3 & Hread3 & Hcb3 & Hem).
    rewrite Hrc3, Hrc, Htot3, Hread3, Hcb3. repeat split; auto.
    destruct (callback p2) eqn:E.
    + exists (e2 ++ [{| BytesRead := read p2; TotalBytesExpected := total p2 |}])%list.
      rewrite (report_forced _ _ _ _ E Hforce), He2, <- app_assoc.
      split; [reflexivity|]. intros _ _. exists e2. now rewrite Htot.
    + unfold report in Hforce. rewrite E in Hforce. simpl in Hforce.
      injection Hforce as <- <-. exists e2. split; [exact He2|].
      intros Hcbp. congruence.
  - injection Hforce as <- <-. rewrite Hrc. repeat split; auto.
    exists e2. split; [exact He2 | discriminate].
Qed.

Lemma readTimes_app (a b : nat) (p : progressReader) (o : Obs) :
  readTimes (a + b) p o =
  let '(r1, p1, o1) := readTimes a p o in
  let '(r2, p2, o2) := readTimes b p1 o1 in
  ((r1 ++ r2)%list, p2, o2).
Proof.
  revert p o. induction a as [|a IH]; intros p o; simpl.
  - now destruct (readTimes b p o) as [[r2 p2] o2].
  - destruct (progressReader_Read p o) as [[r p1] o1].
    rewrite IH. destruct (readTimes a p1 o1) as [[r1 p2] o2].
    now destruct (readTimes b p2 o2) as [[r2 p3] o3].
Qed.

(** A run of reads, whatever their errors: the reporter hands them on
    and counts their bytes, and what it has emitted only grows. *)
Lemma readTimes_reads (pre : list (Z * ReadErr)) :
  forall (p : progressReader) (o : Obs) (rest : list (Z * ReadErr)) (x : Z),
    pending (rc p) = (pre ++ rest)%list ->
    read p = wrap64 x ->
    let run := readTimes (length pre) p o in
    fst (fst run) = pre /\
    pending (rc (snd (fst run))) = rest /\
    closeCalls (rc (snd (fst run))) = closeCalls (rc p) /\
    total (snd (fst run)) = total p /\
    callback (snd (fst run)) = callback p /\
    read (snd (fst run)) = wrap64 (x + streamBytes pre) /\
    exists extra, emitted (snd run) = (emitted o ++ extra)%list.
Proof.
  induction pre as [|[n e] pre IH]; intros p o rest x Hpend Hread; simpl.
  - rewrite Z.add_0_r. repeat split; auto. exists []. now rewrite app_nil_r.
  - destruct (progressReader_Read p o) as [[r p1] o1] eqn:Hr.
    destruct (progressReader_Read_effect _ _ _ _ _ _ _ _ Hpend Hr)
      as (-> & Hpend1 & Hcc1 & Htot1 & Hcb1 & Hread1 & e1 & He1 & _).
    assert (Hread1' : read p1 = wrap64 (x + (if 0 <? n then n else 0))).
    { rewrite Hread1, Hread. destruct (0 <? n); [apply add64_wrap | now rewrite Z.add_0_r]. }
    specialize (IH p1 o1 rest _ Hpend1 Hread1').
    destruct (readTimes (length pre) p1 o1) as [[rs p2] o2]. simpl in IH |- *.
    destruct IH as (-> & Hp & Hcc & Ht & Hc & Hrd & e2 & He2).
    rewrite Hp, Hcc, Ht, Hc, Hrd, Hcc1, Htot1, Hcb1. repeat split; auto.
    + f_equal. lia.
    + exists (e1 ++ e2)%list. now rewrite He2, He1, app_assoc.
Qed.

(* ===================================================================== *)
(** ** Facts about the store and the transfer of one item *)
(* ===================================================================== *)

Lemma soundFaults_tl (faults : list (option string)) :
  soundFaults faults -> soundFaults (tl faults).
Proof. intros H. destruct H; [constructor | assumption]. Qed.

Lemma soundFaults_next (faults : list (option string)) (text : string) :
  soundFaults faults -> nextFault faults = Some text -> isNotFoundText text = false.
Proof.
  intros H. destruct H as [|f fs Hf _]; [discriminate|].
  simpl. destruct f as [t|]; [|discriminate]. intros [= <-]. now apply Hf.
Qed.

Lemma notFoundText_isNotFound : isNotFoundText notFoundText = true.
Proof. reflexivity. Qed.

Lemma HeadObject_store (st : ObjectStore) (bucketName key : string) :
  snd (HeadObject st bucketName key) =
  {| objects := objects st; headFaults := tl (headFaults st); putFaults := putFaults st |}.
Proof.
  unfold HeadObject. destruct (nextFault (headFaults st)); [reflexivity|].
  now destruct (objects st !! key).
Qed.

(** A lookup without a failure of its own answers by the bucket. *)
Lemma HeadObject_answer (st : ObjectStore) (bucketName key : string) :
  nextFault (headFaults st) = None ->
  fst (HeadObject st bucketName key) =
  match objects st !! key with
  | Some obj => inl (Metadata obj)
  | None => inr notFoundText
  end.
Proof.
  unfold HeadObject. intros ->. now destruct (objects st !! key).
Qed.

Lemma HeadObject_found (st : ObjectStore) (bucketName key : string)
    (metadata : gmap string string) :
  fst (HeadObject st bucketName key) = inl metadata ->
  exists obj, objects st !! key = Some obj /\ Metadata obj = metadata.
Proof.
  unfold HeadObject. destruct (nextFault (headFaults st)); [discriminate|].
  destruct (objects st !! key) as [obj|]; [|discriminate].
  intros [= <-]. eauto.
Qed.

(** With sound failures, a not-found answer means the key is free. *)
Lemma HeadObject_absent (st : ObjectStore) (bucketName key text : string) :
  soundFaults (headFaults st) ->
  fst (HeadObject st bucketName key) = inr text ->
  isNotFoundText text = true ->
  objects st !! key = None.
Proof.
  unfold HeadObject. intros Hs.
  destruct (nextFault (headFaults st)) as [t|] eqn:E.
  - intros [= <-] Hnf. rewrite (soundFaults_next _ _ Hs E) in Hnf. discriminate.
  - destruct (objects st !! key); [discriminate | reflexivity].
Qed.

Lemma progressReader_Read_closeCalls (p : progressReader) (o : Obs) :
  closeCalls (rc (snd (fst (progressReader_Read p o)))) = closeCalls (rc p).
Proof.
  unfold progressReader_Read, Stream_Read.
  destruct (pending (rc p)) as [|[n err] rest].
  - simpl. destruct (report true _ o) as [p2 o2] eqn:E.
    apply report_effect in E. destruct E as (E & _). simpl. now rewrite E.
  - destruct (0 <? n).
    + destruct (report false _ o) as [p1 o1] eqn:E1.
      apply report_effect in E1. destruct E1 as (E1 & _). simpl in E1.
      destruct err; simpl; try (now rewrite E1).
      destruct (report true p1 o1) as [p2 o2] eqn:E2.
      apply report_effect in E2. destruct E2 as (E2 & _). simpl.
      now rewrite E2, E1.
    + destruct err; simpl; try reflexivity.
      destruct (report true _ o) as [p2 o2] eqn:E2.
      apply report_effect in E2. destruct E2 as (E2 & _). simpl. now rewrite E2.
Qed.

Lemma readBody_closeCalls (steps : list (Z * ReadErr)) (p : progressReader) (o : Obs) :
  closeCalls (rc (snd (fst (readBody steps p o)))) = closeCalls (rc p).
Proof.
  revert p o. induction steps as [|s steps IH]; intros p o; simpl;
    pose proof (progressReader_Read_closeCalls p o) as H;
    destruct (progressReader_Read p o) as [[[n err] p1] o1]; simpl in H |- *.
  - exact H.
  - destruct err; simpl; rewrite ?IH; exact H.
Qed.

(** [PutObject] either stores the object under the key or leaves the
    bucket as it was; it never touches the stream's close count. *)
Lemma PutObject_effect (st st' : ObjectStore) (bucketName key contentType : string)
    (p p' : progressReader) (o o' : Obs) (metadata : gmap string string)
    (err : option string) :
  PutObject st bucketName key p o contentType metadata = (err, st', p', o') ->
  headFaults st' = headFaults st /\
  closeCalls (rc p') = closeCalls (rc p) /\
  match err with
  | Some _ => objects st' = objects st
  | None => exists obj, Metadata obj = metadata /\
                        objects st' = <[key := obj]> (objects st)
  end.
Proof.
  unfold PutObject. destruct (nextFault (putFaults st)).
  - intros [= <- <- <- <-]. auto.
  - pose proof (readBody_closeCalls (pending (rc p)) p o) as Hcc.
    destruct (readBody (pending (rc p)) p o) as [[e p1] o1]. simpl in Hcc.
    destruct e; intros [= <- <- <- <-]; simpl;
      repeat split; auto; eexists; (split; [|reflexivity]); reflexivity.
Qed.

Section TransferFacts.

Variable formatLess : Format -> Format -> bool.

Lemma download_no_format (st : ObjectStore) (o : Obs) (bucketName prefix : string)
    (client : Client) (video : Video) (text : string) :
  selectYouTubeFormat formatLess video = inr text ->
  downloadYouTubeVideo formatLess st o bucketName prefix client video =
  {| outcome := inr text; storeAfter := st; obsAfter := o; streamAfter := None |}.
Proof. unfold downloadYouTubeVideo. now intros ->. Qed.

Lemma download_no_stream (st : ObjectStore) (o : Obs) (bucketName prefix : string)
    (client : Client) (video : Video) (f : Format) (err : ClientError) :
  selectYouTubeFormat formatLess video = inl f ->
  GetStreamContext client video f = inr err ->
  downloadYouTubeVideo formatLess st o bucketName prefix client video =
  {| outcome := inr (ErrorText err); storeAfter := st; obsAfter := o;
     streamAfter := None |}.
Proof. unfold downloadYouTubeVideo. now intros -> ->. Qed.

(** Once the stream is open, the call follows [transferDecision]. *)
Lemma download_decision (st : ObjectStore) (o : Obs) (bucketName prefix : string)
    (client : Client) (video : Video) (f : Format) (stream : Stream) (hint : Z) :
  selectYouTubeFormat formatLess video = inl f ->
  GetStreamContext client video f = inl (stream, hint) ->
  let format := withSizeHint f hint in
  let pk := primaryKeyOf prefix video format in
  let lk := legacyKeyOf prefix video format in
  let contentType := contentTypeFromMime (MimeType format) in
  let st1 := snd (HeadObject st bucketName pk) in
  let h1 := fst (HeadObject st bucketName pk) in
  let h2 := fst (HeadObject st1 bucketName lk) in
  let d := downloadYouTubeVideo formatLess st o bucketName prefix client video in
  match transferDecision h1 h2 (ID video) pk lk with
  | Fail text =>
      outcome d = inr text /\ objects (storeAfter d) = objects st /\
      obsAfter d = o /\ streamAfter d = Some (Stream_Close stream) /\
      (storeAfter d = st1 \/ storeAfter d = snd (HeadObject st1 bucketName lk))
  | Skip key =>
      outcome d = inl (skippedItem video key contentType, true) /\
      objects (storeAfter d) = objects st /\
      obsAfter d = o /\ streamAfter d = Some (Stream_Close stream) /\
      (storeAfter d = st1 \/ storeAfter d = snd (HeadObject st1 bucketName lk))
  | Write key =>
      exists p0 o0 putErr st3 p3,
        newProgressReader stream (ContentLength format) true o = (p0, o0) /\
        PutObject (snd (HeadObject st1 bucketName lk)) bucketName key p0 o0
          contentType (uploadMetadata video) = (putErr, st3, p3, obsAfter d) /\
        storeAfter d = st3 /\
        streamAfter d = Some (Stream_Close (Stream_Close (rc p3))) /\
        outcome d =
        match putErr with
        | Some text => inr text
        | None =>
            inl ({| ItemTitle := Title video; Key := key; VideoID := ID video;
                    SizeBytes := reportedSize p3 format;
                    ContentType := contentType |}, false)
        end
  end.
Proof.
  intros Hsel Hopen. cbv zeta. unfold downloadYouTubeVideo, transferDecision.
  rewrite Hsel, Hopen.
  set (format := withSizeHint f hint).
  set (pk := primaryKeyOf prefix video format).
  set (lk := legacyKeyOf prefix video format).
  pose proof (HeadObject_store st bucketName pk) as Hst1.
  destruct (HeadObject st bucketName pk) as [h1 st1]. simpl in Hst1. cbn [fst snd].
  pose proof (HeadObject_store st1 bucketName lk) as Hst2.
  destruct (HeadObject st1 bucketName lk) as [h2 st2]. simpl in Hst2. cbn [fst snd].
  subst st1 st2.
  destruct h1 as [md|text1].
  - destruct (metadataMatchesYouTubeVideo md (ID video)); [cbn; auto 10|].
    destruct h2 as [md2|text2]; [cbn; auto 10|].
    destruct (isNotFoundText text2); cbn [negb]; [|cbn; auto 10].
    destruct (newProgressReader _ _ _ _) as [p0 o0].
    destruct (PutObject _ _ _ p0 o0 _ _) as [[[putErr st3] p3] o3] eqn:Hput.
    exists p0, o0, putErr, st3, p3. destruct putErr; cbn; auto 10.
  - destruct (isNotFoundText text1); cbn [negb]; [|cbn; auto 10].
    destruct h2 as [md2|text2]; [cbn; auto 10|].
    destruct (isNotFoundText text2); cbn [negb]; [|cbn; auto 10].
    destruct (newProgressReader _ _ _ _) as [p0 o0].
    destruct (PutObject _ _ _ p0 o0 _ _) as [[[putErr st3] p3] o3] eqn:Hput.
    exists p0, o0, putErr, st3, p3. destruct putErr; cbn; auto 10.
Qed.

Lemma HeadObject_sound (st : ObjectStore) (bucketName key : string) :
  soundFaults (headFaults st) ->
  soundFaults (headFaults (snd (HeadObject st bucketName key))).
Proof. rewrite HeadObject_store. simpl. apply soundFaults_tl. Qed.

Lemma HeadObject_objects (st : ObjectStore) (bucketName key : string) :
  objects (snd (HeadObject st bucketName key)) = objects st.
Proof. now rewrite HeadObject_store. Qed.

(** An item reaches the bucket only under a key that was free, and
    nothing else in the bucket changes. *)
Lemma download_store (st : ObjectStore) (o : Obs) (bucketName prefix : string)
    (client : Client) (video : Video) :
  soundFaults (headFaults st) ->
  let d := downloadYouTubeVideo formatLess st o bucketName prefix client video in
  soundFaults (headFaults (storeAfter d)) /\
  match outcome d with
  | inl (item, false) =>
      exists obj, objects st !! Key item = None /\
                  Metadata obj = uploadMetadata video /\
                  objects (storeAfter d) = <[Key item := obj]> (objects st)
  | _ => objects (storeAfter d) = objects st
  end.
Proof.
  intros Hs. cbv zeta.
  destruct (selectYouTubeFormat formatLess video) as [f|text] eqn:Hsel;
    [|rewrite (download_no_format _ _ _ _ _ _ _ Hsel); now split].
  destruct (GetStreamContext client video f) as [[stream hint]|err] eqn:Hopen;
    [|rewrite (download_no_stream _ _ _ _ _ _ _ _ Hsel Hopen); now split].
  pose proof (download_decision st o bucketName prefix client video f stream hint
                Hsel Hopen) as H. cbv zeta in H.
  set (format := withSizeHint f hint) in *.
  set (pk := primaryKeyOf prefix video format) in *.
  set (lk := legacyKeyOf prefix video format) in *.
  pose proof (HeadObject_sound st bucketName pk Hs) as Hs1.
  pose proof (HeadObject_objects st bucketName pk) as Ho1.
  pose proof (HeadObject_absent st bucketName pk) as Habs1.
  set (st1 := snd (HeadObject st bucketName pk)) in *.
  pose proof (HeadObject_sound st1 bucketName lk Hs1) as Hs2.
  pose proof (HeadObject_objects st1 bucketName lk) as Ho2.
  pose proof (HeadObject_absent st1 bucketName lk) as Habs2.
  set (st2 := snd (HeadObject st1 bucketName lk)) in *.
  set (d := downloadYouTubeVideo formatLess st o bucketName prefix client video) in *.
  unfold transferDecision in H.
  destruct (fst (HeadObject st bucketName pk)) as [md|text1].
  - destruct (metadataMatchesYouTubeVideo md (ID video)).
    { destruct H as (-> & Hobj & _ & _ & [-> | ->]); (split; [assumption | congruence]). }
    destruct (fst (HeadObject st1 bucketName lk)) as [md2|text2].
    { destruct H as (-> & Hobj & _ & _ & [-> | ->]); (split; [assumption | congruence]). }
    destruct (isNotFoundText text2) eqn:Hnf; cbn [negb] in H.
    2: { destruct H as (-> & Hobj & _ & _ & [-> | ->]); (split; [assumption | congruence]). }
    destruct H as (p0 & o0 & putErr & st3 & p3 & _ & Hput & -> & _ & ->).
    apply PutObject_effect in Hput. destruct Hput as (Hhf & _ & Hobj).
    rewrite Hhf. split; [exact Hs2|].
    destruct putErr; [congruence|]. destruct Hobj as (obj & Hmd & ->). cbn [Key].
    exists obj. rewrite Ho2, Ho1. repeat split; auto.
    rewrite <- Ho1. now apply (Habs2 text2).
  - destruct (isNotFoundText text1) eqn:Hnf1; cbn [negb] in H.
    2: { destruct H as (-> & Hobj & _ & _ & [-> | ->]); (split; [assumption | congruence]). }
    destruct (fst (HeadObject st1 bucketName lk)) as [md2|text2].
    { destruct H as (-> & Hobj & _ & _ & [-> | ->]); (split; [assumption | congruence]). }
    destruct (isNotFoundText text2) eqn:Hnf; cbn [negb] in H.
    2: { destruct H as (-> & Hobj & _ & _ & [-> | ->]); (split; [assumption | congruence]). }
    destruct H as (p0 & o0 & putErr & st3 & p3 & _ & Hput & -> & _ & ->).
    apply PutObject_effect in Hput. destruct Hput as (Hhf & _ & Hobj).
    rewrite Hhf. split; [exact Hs2|].
    destruct putErr; [congruence|]. destruct Hobj as (obj & Hmd & ->). cbn [Key].
    exists obj. rewrite Ho2, Ho1. repeat split; auto.
    now apply (Habs1 text1).
Qed.

Lemma newProgressReader_rc (stream : Stream) (len : Z) (cb : bool) (o : Obs)
    (p : progressReader) (o' : Obs) :
  newProgressReader stream len cb o = (p, o') -> rc p = stream.
Proof.
  unfold newProgressReader. destruct (timeNow o) as [now o1]. now intros [= <- _].
Qed.

(** The close calls the source stream has received when the call
    returns: one where the call returns before it makes the progress
    reader, two where it makes it. *)
Lemma download_closeCalls (st : ObjectStore) (o : Obs) (bucketName prefix : string)
    (client : Client) (video : Video) (f : Format) (stream : Stream) (hint : Z) :
  selectYouTubeFormat formatLess video = inl f ->
  GetStreamContext client video f = inl (stream, hint) ->
  let format := withSizeHint f hint in
  let pk := primaryKeyOf prefix video format in
  let lk := legacyKeyOf prefix video format in
  let st1 := snd (HeadObject st bucketName pk) in
  let h1 := fst (HeadObject st bucketName pk) in
  let h2 := fst (HeadObject st1 bucketName lk) in
  let d := downloadYouTubeVideo formatLess st o bucketName prefix client video in
  exists s', streamAfter d = Some s' /\
    closeCalls s' =
    match transferDecision h1 h2 (ID video) pk lk with
    | Write _ => S (S (closeCalls stream))
    | _ => S (closeCalls stream)
    end.
Proof.
  intros Hsel Hopen. cbv zeta.
  pose proof (download_decision st o bucketName prefix client video f stream hint
                Hsel Hopen) as H. cbv zeta in H.
  destruct (transferDecision _ _ _ _ _) as [text|key|key].
  - destruct H as (_ & _ & _ & -> & _). eauto.
  - destruct H as (_ & _ & _ & -> & _). eauto.
  - destruct H as (p0 & o0 & putErr & st3 & p3 & Hnew & Hput & _ & -> & _).
    eexists. split; [reflexivity|]. simpl.
    apply PutObject_effect in Hput. destruct Hput as (_ & -> & _).
    now rewrite (newProgressReader_rc _ _ _ _ _ _ Hnew).
Qed.

Lemma length_joinKey (prefix filename : string) :
  String.length (joinKey prefix filename) =
  (String.length prefix + String.length filename)%nat.
Proof.
  unfold joinKey. destruct prefix as [|c r]; [reflexivity|].
  cbn [isEmpty negb]. apply length_append.
Qed.

(** The legacy key is longer than the primary key. *)
Lemma primaryKey_neq_legacyKey (prefix : string) (video : Video) (format : Format) :
  primaryKeyOf prefix video format <> legacyKeyOf prefix video format.
Proof.
  intros H. apply (f_equal String.length) in H.
  unfold primaryKeyOf, legacyKeyOf, buildYouTubeFilename, buildYouTubeFilenameWithID in H.
  rewrite !length_joinKey, !length_append in H. simpl in H. lia.
Qed.

Lemma metadataMatches_tags (metadata : gmap string string) (videoID : string) :
  metadataMatchesYouTubeVideo metadata videoID =
  negb (isEmpty videoID) && tagsSourceId metadata videoID.
Proof.
  unfold metadataMatchesYouTubeVideo, tagsSourceId.
  destruct (size metadata =? 0)%nat eqn:Hsz.
  - apply Nat.eqb_eq, map_size_empty_iff in Hsz. subst metadata.
    rewrite map_to_list_empty. simpl. now rewrite andb_false_r.
  - simpl. now destruct (isEmpty videoID).
Qed.

(** When the two lookups answer, the decision of the code is the
    amended plan. *)
Lemma transferDecision_amended (st : ObjectStore) (bucketName videoID pk lk : string) :
  nextFault (headFaults st) = None ->
  nextFault (tl (headFaults st)) = None ->
  transferDecision (fst (HeadObject st bucketName pk))
    (fst (HeadObject (snd (HeadObject st bucketName pk)) bucketName lk)) videoID pk lk =
  amendedDecision (objects st) videoID pk lk.
Proof.
  intros H1 H2. rewrite !HeadObject_answer; rewrite ?HeadObject_store; auto.
  cbn [objects]. unfold transferDecision, amendedDecision.
  destruct (objects st !! pk) as [obj|]; destruct (objects st !! lk) as [obj'|];
    rewrite ?metadataMatches_tags, ?notFoundText_isNotFound; cbn [negb];
    rewrite ?bool_decide_eq_true_2 by eauto;
    rewrite ?bool_decide_eq_false_2 by (intros [? ?]; discriminate);
    reflexivity.
Qed.

(** A skip reports an item of size 0. *)
Lemma download_skipped_item (st : ObjectStore) (o : Obs) (bucketName prefix : string)
    (client : Client) (video : Video) (item : YouTubeImportedItem) :
  outcome (downloadYouTubeVideo formatLess st o bucketName prefix client video) =
    inl (item, true) ->
  exists key contentType, item = skippedItem video key contentType.
Proof.
  intros Hout.
  destruct (selectYouTubeFormat formatLess video) as [f|text] eqn:Hsel;
    [|rewrite (download_no_format _ _ _ _ _ _ _ Hsel) in Hout; discriminate].
  destruct (GetStreamContext client video f) as [[stream hint]|err] eqn:Hopen;
    [|rewrite (download_no_stream _ _ _ _ _ _ _ _ Hsel Hopen) in Hout; discriminate].
  pose proof (download_decision st o bucketName prefix client video f stream hint
                Hsel Hopen) as H. cbv zeta in H.
  destruct (transferDecision _ _ _ _ _) as [text|key|key].
  - destruct H as (H & _). rewrite H in Hout. discriminate.
  - destruct H as (H & _). rewrite H in Hout. injection Hout as <-. eauto.
  - destruct H as (p0 & o0 & putErr & st3 & p3 & _ & _ & _ & _ & H).
    rewrite H in Hout. destruct putErr; discriminate.
Qed.

(** An import is an upload under the key the item reports. *)
Lemma download_imported_inv (st : ObjectStore) (o : Obs) (bucketName prefix : string)
    (client : Client) (video : Video) (f : Format) (stream : Stream) (hint : Z)
    (item : YouTubeImportedItem) :
  selectYouTubeFormat formatLess video = inl f ->
  GetStreamContext client video f = inl (stream, hint) ->
  outcome (downloadYouTubeVideo formatLess st o bucketName prefix client video) =
    inl (item, false) ->
  let pk := primaryKeyOf prefix video (withSizeHint f hint) in
  let lk := legacyKeyOf prefix video (withSizeHint f hint) in
  transferDecision (fst (HeadObject st bucketName pk))
    (fst (HeadObject (snd (HeadObject st bucketName pk)) bucketName lk))
    (ID video) pk lk = Write (Key item).
Proof.
  intros Hsel Hopen Hout. cbv zeta.
  pose proof (download_decision st o bucketName prefix client video f stream hint
                Hsel Hopen) as H. cbv zeta in H.
  destruct (transferDecision _ _ _ _ _) as [text|key|key].
  - destruct H as (H & _). rewrite H in Hout. discriminate.
  - destruct H as (H & _). rewrite H in Hout. discriminate.
  - destruct H as (p0 & o0 & putErr & st3 & p3 & _ & _ & _ & _ & H).
    rewrite H in Hout. destruct putErr; [discriminate|]. now injection Hout as <-.
Qed.

(** The upload goes to the primary key only when the lookup of the
    primary key found nothing, to the legacy key only when it found an
    object. *)
Lemma transferDecision_write (h1 h2 : gmap string string + string)
    (videoID pk lk key : string) :
  transferDecision h1 h2 videoID pk lk = Write key ->
  (exists text, h1 = inr text /\ isNotFoundText text = true /\ key = pk) \/
  (exists metadata, h1 = inl metadata /\ key = lk).
Proof.
  unfold transferDecision. destruct h1 as [md|text1].
  - destruct (metadataMatchesYouTubeVideo md videoID); [discriminate|].
    destruct h2 as [md2|text2]; [discriminate|].
    destruct (isNotFoundText text2); [|discriminate]. intros [= <-]. eauto.
  - destruct (isNotFoundText text1) eqn:E; [|discriminate]. cbn [negb].
    destruct h2 as [md2|text2]; [discriminate|].
    destruct (isNotFoundText text2); [|discriminate]. intros [= <-]. eauto.
Qed.

(** After an import the primary key of the item is taken, by the item
    or by the object that stood in its way. *)
Lemma download_imported_primary (st : ObjectStore) (o : Obs) (bucketName prefix : string)
    (client : Client) (video : Video) (f : Format) (stream : Stream) (hint : Z)
    (item : YouTubeImportedItem) :
  soundFaults (headFaults st) ->
  selectYouTubeFormat formatLess video = inl f ->
  GetStreamContext client video f = inl (stream, hint) ->
  outcome (downloadYouTubeVideo formatLess st o bucketName prefix client video) =
    inl (item, false) ->
  is_Some (objects (storeAfter
                      (downloadYouTubeVideo formatLess st o bucketName prefix client video))
             !! primaryKeyOf prefix video (withSizeHint f hint)).
Proof.
  intros Hs Hsel Hopen Hout.
  pose proof (download_imported_inv _ _ _ _ _ _ _ _ _ _ Hsel Hopen Hout) as Hd.
  cbv zeta in Hd.
  pose proof (download_store st o bucketName prefix client video Hs) as [_ Hst].
  rewrite Hout in Hst. destruct Hst as (obj & _ & _ & ->).
  apply transferDecision_write in Hd.
  destruct Hd as [(text & _ & _ & ->) | (md & Hh1 & Hk)].
  - rewrite lookup_insert_eq. eauto.
  - apply HeadObject_found in Hh1. destruct Hh1 as (obj' & Hobj' & _).
    destruct (decide (Key item = primaryKeyOf prefix video (withSizeHint f hint)))
      as [-> | Hne].
    + rewrite lookup_insert_eq. eauto.
    + rewrite lookup_insert_ne by exact Hne. eauto.
Qed.

(** With the primary key taken, an import goes to the legacy key. *)
Lemma download_imported_legacy (st : ObjectStore) (o : Obs) (bucketName prefix : string)
    (client : Client) (video : Video) (f : Format) (stream : Stream) (hint : Z)
    (item : YouTubeImportedItem) :
  soundFaults (headFaults st) ->
  selectYouTubeFormat formatLess video = inl f ->
  GetStreamContext client video f = inl (stream, hint) ->
  is_Some (objects st !! primaryKeyOf prefix video (withSizeHint f hint)) ->
  outcome (downloadYouTubeVideo formatLess st o bucketName prefix client video) =
    inl (item, false) ->
  Key item = legacyKeyOf prefix video (withSizeHint f hint).
Proof.
  intros Hs Hsel Hopen [obj Hobj] Hout.
  pose proof (download_imported_inv _ _ _ _ _ _ _ _ _ _ Hsel Hopen Hout) as Hd.
  cbv zeta in Hd. apply transferDecision_write in Hd.
  destruct Hd as [(text & Hh1 & Hnf & _) | (md & _ & Hk)]; [|exact Hk].
  rewrite (HeadObject_absent _ _ _ _ Hs Hh1 Hnf) in Hobj. discriminate.
Qed.

End TransferFacts.

(* ===================================================================== *)
(** ** Facts about the batch *)
(* ===================================================================== *)

Section BatchFacts.

Variable formatLess : Format -> Format -> bool.
Variables bucketName prefix : string.
Variable client : Client.

Local Abbreviation step := (importStep formatLess bucketName prefix client).
Local Abbreviation steps := (importSteps formatLess bucketName prefix client).

Lemma importSteps_cons (video : Video) (rest : list Video) (ls : LoopState) :
  steps (video :: rest) ls = steps rest (step ls video).
Proof. reflexivity. Qed.

(** A loop that returns a result ran every step. *)
Lemma importLoop_steps (ctxErr : nat -> option string) (videos : list Video) :
  forall (i : nat) (ls ls' : LoopState),
    importLoop formatLess ctxErr bucketName prefix client i videos ls = inl ls' ->
    ls' = steps videos ls.
Proof.
  induction videos as [|v rest IH]; intros i ls ls'; cbn [importLoop].
  - now intros [= <-].
  - destruct (ctxErr i); [discriminate|]. rewrite importSteps_cons. apply IH.
Qed.

(** Without cancellation the loop returns the result of the steps. *)
Lemma importLoop_no_cancel (ctxErr : nat -> option string) (videos : list Video) :
  (forall i, ctxErr i = None) ->
  forall (i : nat) (ls : LoopState),
    importLoop formatLess ctxErr bucketName prefix client i videos ls =
    inl (steps videos ls).
Proof.
  intros Hc. induction videos as [|v rest IH]; intros i ls; cbn [importLoop];
    [reflexivity|].
  rewrite Hc, importSteps_cons. apply IH.
Qed.

Lemma step_result (ls : LoopState) (video : Video) :
  let d := downloadYouTubeVideo formatLess (store ls) (obs ls) bucketName prefix
             client video in
  store (step ls video) = storeAfter d /\
  obs (step ls video) = obsAfter d /\
  result (step ls video) =
  match outcome d with
  | inr text =>
      appendError (result ls)
        {| ErrTitle := Title video; ErrVideoID := ID video; Error := text |}
  | inl (item, true) => countSkipped (result ls)
  | inl (item, false) => appendItem (result ls) item
  end.
Proof. now unfold importStep. Qed.

Lemma step_kind (ls : LoopState) (video : Video) :
  Kind (result (step ls video)) = Kind (result ls).
Proof.
  destruct (step_result ls video) as (_ & _ & ->).
  destruct (outcome _) as [[item [|]]|text]; reflexivity.
Qed.

Lemma steps_kind (videos : list Video) (ls : LoopState) :
  Kind (result (steps videos ls)) = Kind (result ls).
Proof.
  revert ls. induction videos as [|v rest IH]; intros ls; [reflexivity|].
  rewrite importSteps_cons, IH. apply step_kind.
Qed.

(** Every step adds one to exactly one of the three counts. *)
Lemma steps_accounting (videos : list Video) :
  forall (ls : LoopState) (xi xs : Z),
    Imported (result ls) = wrap64 xi ->
    Skipped (result ls) = wrap64 xs ->
    exists a b c : nat,
      (a + b + c = length videos)%nat /\
      Imported (result (steps videos ls)) = wrap64 (xi + Z.of_nat a) /\
      Skipped (result (steps videos ls)) = wrap64 (xs + Z.of_nat b) /\
      length (Errors (result (steps videos ls))) = (length (Errors (result ls)) + c)%nat.
Proof.
  induction videos as [|v rest IH]; intros ls xi xs Hi Hs.
  - exists O, O, O. simpl. rewrite !Z.add_0_r. auto.
  - rewrite importSteps_cons.
    destruct (step_result ls v) as (_ & _ & Hr).
    destruct (outcome _) as [[item [|]]|text].
    + destruct (IH (step ls v) xi (xs + 1)) as (a & b & c & Hsum & Ha & Hb & Hc).
      * now rewrite Hr.
      * rewrite Hr. simpl. rewrite Hs. apply add64_wrap.
      * exists a, (S b), c. rewrite Ha, Hb, Hc, Hr. simpl length.
        repeat split; try lia. f_equal. lia.
    + destruct (IH (step ls v) (xi + 1) xs) as (a & b & c & Hsum & Ha & Hb & Hc).
      * rewrite Hr. simpl. rewrite Hi. apply add64_wrap.
      * now rewrite Hr.
      * exists (S a), b, c. rewrite Ha, Hb, Hc, Hr. simpl length.
        repeat split; try lia. f_equal. lia.
    + destruct (IH (step ls v) xi xs) as (a & b & c & Hsum & Ha & Hb & Hc).
      * now rewrite Hr.
      * now rewrite Hr.
      * exists a, b, (S c). rewrite Ha, Hb, Hc, Hr. simpl.
        rewrite length_app. simpl. repeat split; lia.
Qed.

Lemma sum64_wrap (items : list YouTubeImportedItem) :
  sum64 items = wrap64 (sumSizes items).
Proof.
  unfold sum64. change 0 with (wrap64 0) at 1.
  replace (sumSizes items) with (0 + sumSizes items) by lia.
  generalize 0 as x. induction items as [|item rest IH]; intros x; simpl.
  - unfold sumSizes. simpl. now rewrite Z.add_0_r.
  - rewrite add64_wrap, IH. f_equal. unfold sumSizes. simpl. lia.
Qed.

(** The steps append the imported items and add their sizes. *)
Lemma steps_items (videos : list Video) :
  forall (ls : LoopState) (xt xi : Z),
    TotalBytes (result ls) = wrap64 xt ->
    Imported (result ls) = wrap64 xi ->
    exists new,
      Items (result (steps videos ls)) = (Items (result ls) ++ new)%list /\
      TotalBytes (result (steps videos ls)) = wrap64 (xt + sumSizes new) /\
      Imported (result (steps videos ls)) = wrap64 (xi + Z.of_nat (length new)).
Proof.
  induction videos as [|v rest IH]; intros ls xt xi Ht Hi.
  - exists []. simpl. rewrite app_nil_r, !Z.add_0_r. auto.
  - rewrite importSteps_cons.
    destruct (step_result ls v) as (_ & _ & Hr).
    destruct (outcome _) as [[item [|]]|text].
    + destruct (IH (step ls v) xt xi) as (new & Hit & Htb & Him);
        [now rewrite Hr | now rewrite Hr |].
      exists new. now rewrite Hit, Htb, Him, Hr.
    + destruct (IH (step ls v) (xt + SizeBytes item) (xi + 1)) as (new & Hit & Htb & Him).
      * rewrite Hr. simpl. rewrite Ht. apply add64_wrap.
      * rewrite Hr. simpl. rewrite Hi. apply add64_wrap.
      * exists (item :: new). rewrite Hit, Htb, Him, Hr. simpl Items.
        rewrite <- app_assoc. simpl. unfold sumSizes. simpl.
        repeat split; f_equal; lia.
    + destruct (IH (step ls v) xt xi) as (new & Hit & Htb & Him);
        [now rewrite Hr | now rewrite Hr |].
      exists new. now rewrite Hit, Htb, Him, Hr.
Qed.

(** The resolution of a playlist: every entry becomes a video or an
    error, and nothing else of the result changes. *)
Lemma videosFromPlaylist_accounting (entries : list PlaylistEntry) :
  forall (videos : list Video) (r : YouTubeImportResult),
    let out := videosFromPlaylist client entries videos r in
    (length (fst out) + length (Errors (snd out)) =
       length videos + length (Errors r) + length entries)%nat /\
    Kind (snd out) = Kind r /\ Imported (snd out) = Imported r /\
    Skipped (snd out) = Skipped r /\ TotalBytes (snd out) = TotalBytes r /\
    Items (snd out) = Items r.
Proof.
  induction entries as [|e rest IH]; intros videos r; simpl.
  - repeat split; lia.
  - destruct (VideoFromPlaylistEntryContext client e) as [video|err].
    + specialize (IH (videos ++ [video])%list r). simpl in IH.
      rewrite length_app in IH. simpl in IH.
      destruct IH as (H & ?). repeat split; try tauto. lia.
    + specialize (IH videos (appendError r {| ErrTitle := EntryTitle e;
                                                ErrVideoID := EntryID e;
                                                Error := ErrorText err |})).
      simpl in IH. rewrite length_app in IH. simpl in IH.
      destruct IH as (H & ?). repeat split; try tauto. lia.
Qed.

(** A step keeps what is in the bucket and the soundness of the store;
    the key of an item it imports was free. *)
Lemma step_store (ls : LoopState) (video : Video) :
  soundFaults (headFaults (store ls)) ->
  soundFaults (headFaults (store (step ls video))) /\
  (forall k, is_Some (objects (store ls) !! k) ->
             is_Some (objects (store (step ls video)) !! k)) /\
  (Items (result (step ls video)) = Items (result ls) \/
   exists item,
     Items (result (step ls video)) = (Items (result ls) ++ [item])%list /\
     objects (store ls) !! Key item = None /\
     is_Some (objects (store (step ls video)) !! Key item)).
Proof.
  intros Hs.
  destruct (step_result ls video) as (Hst & _ & Hr). rewrite Hst, Hr.
  pose proof (download_store formatLess (store ls) (obs ls) bucketName prefix client
                video Hs) as [Hs' Hobj].
  split; [exact Hs'|].
  destruct (outcome _) as [[item [|]]|text].
  - rewrite Hobj. auto.
  - destruct Hobj as (obj & Hfree & _ & ->). split.
    + intros k Hk. destruct (decide (Key item = k)) as [<- | Hne].
      * rewrite lookup_insert_eq. eauto.
      * now rewrite lookup_insert_ne.
    + right. exists item. rewrite lookup_insert_eq. eauto.
  - rewrite Hobj. auto.
Qed.

Lemma step_keysStored (ls : LoopState) (video : Video) :
  keysStored ls -> keysStored (step ls video).
Proof.
  intros (Hs & Hnd & Hall).
  destruct (step_store ls video Hs) as (Hs' & Hmono & Hitems).
  split; [exact Hs'|].
  destruct Hitems as [-> | (item & -> & Hfree & Hnew)].
  - split; [exact Hnd|]. eapply Forall_impl; [exact Hall | exact Hmono].
  - rewrite map_app. simpl. split.
    + apply NoDup_app. split; [exact Hnd | split].
      * intros k Hk Hin. apply list_elem_of_singleton in Hin. subst k.
        rewrite Forall_forall in Hall.
        destruct (Hall _ Hk) as [obj Hobj]. congruence.
      * apply NoDup_singleton.
    + apply Forall_app. split.
      * eapply Forall_impl; [exact Hall | exact Hmono].
      * constructor; [exact Hnew | constructor].
Qed.

Lemma steps_keysStored (videos : list Video) (ls : LoopState) :
  keysStored ls -> keysStored (steps videos ls).
Proof.
  revert ls. induction videos as [|v rest IH]; intros ls H; [exact H|].
  rewrite importSteps_cons. apply IH, step_keysStored, H.
Qed.

Lemma steps_store (videos : list Video) (ls : LoopState) :
  soundFaults (headFaults (store ls)) ->
  soundFaults (headFaults (store (steps videos ls))) /\
  (forall k, is_Some (objects (store ls) !! k) ->
             is_Some (objects (store (steps videos ls)) !! k)).
Proof.
  revert ls. induction videos as [|v rest IH]; intros ls Hs; [now split|].
  rewrite importSteps_cons.
  destruct (step_store ls v Hs) as (Hs' & Hmono & _).
  destruct (IH _ Hs') as (Hs'' & Hmono'). split; auto.
Qed.

End BatchFacts.

Section ImportFacts.

Variable formatLess : Format -> Format -> bool.

(** What a returned result is made of: the resolution, then the steps
    of the loop over the resolved videos. *)
Lemma ImportYouTube_inv (s : BucketService) (input : YouTubeImportInput) (ls : LoopState) :
  ImportYouTube formatLess s input = inl ls ->
  exists bucketName st videos kind r0,
    getBucketName s = inl bucketName /\
    GetObjectStore s = inl st /\
    resolveYouTubeVideos (youtubeClient s) (TrimSpace (URL input)) emptyResult =
      inl (videos, kind, r0) /\
    ls = importSteps formatLess bucketName (normalizeObjectPrefix (DestinationPrefix input))
           (youtubeClient s) videos
           {| result := withKind r0 kind; store := st;
              obs := {| clock := startClock s; emitted := [] |} |}.
Proof.
  unfold ImportYouTube. fold emptyResult.
  destruct (isEmpty (TrimSpace (URL input))); [discriminate|].
  destruct (getBucketName s) as [bucketName|]; [|discriminate].
  destruct (GetObjectStore s) as [st|]; [|discriminate].
  destruct (resolveYouTubeVideos _ _ _) as [[[videos kind] r0]|]; [|discriminate].
  intros H. apply importLoop_steps in H. eauto 10.
Qed.

(** The two ways the resolution succeeds. *)
Lemma resolveYouTubeVideos_inv (client : Client) (url : string)
    (videos : list Video) (kind : string) (r0 : YouTubeImportResult) :
  resolveYouTubeVideos client url emptyResult = inl (videos, kind, r0) ->
  (exists playlist,
     GetPlaylistContext client url = inl playlist /\ kind = "playlist" /\
     (length videos + length (Errors r0) = length (Videos playlist))%nat /\
     Imported r0 = 0 /\ Skipped r0 = 0 /\ TotalBytes r0 = 0 /\ Items r0 = []) \/
  (exists err video,
     GetPlaylistContext client url = inr err /\ IsInvalidPlaylist err = true /\
     GetVideoContext client url = inl video /\
     kind = "video" /\ videos = [video] /\ r0 = emptyResult).
Proof.
  unfold resolveYouTubeVideos.
  destruct (GetPlaylistContext client url) as [playlist|err].
  - pose proof (videosFromPlaylist_accounting client (Videos playlist) []
                  (withKind emptyResult "playlist")) as H. cbv zeta in H.
    destruct (videosFromPlaylist client (Videos playlist) [] _) as [vs r].
    simpl in H. intros [= <- <- <-]. left. exists playlist.
    destruct H as (H1 & _ & H2 & H3 & H4 & H5). repeat split; auto.
  - destruct (IsInvalidPlaylist err) eqn:E; [|discriminate]. simpl.
    destruct (GetVideoContext client url) as [video|]; [|discriminate].
    intros [= <- <- <-]. right. eauto 10.
Qed.

(** The call returns a result as soon as the reference is not blank,
    the bucket and its store are found, the reference resolves and the
    context is not cancelled at an item boundary. *)
Lemma ImportYouTube_returns (s : BucketService) (input : YouTubeImportInput)
    (bucketName : string) (st : ObjectStore)
    (videos : list Video) (kind : string) (r0 : YouTubeImportResult) :
  isEmpty (TrimSpace (URL input)) = false ->
  getBucketName s = inl bucketName ->
  GetObjectStore s = inl st ->
  resolveYouTubeVideos (youtubeClient s) (TrimSpace (URL input)) emptyResult =
    inl (videos, kind, r0) ->
  (forall i, ctxErr s i = None) ->
  exists ls, ImportYouTube formatLess s input = inl ls.
Proof.
  intros Hurl Hb Hst Hres Hctx. unfold ImportYouTube. fold emptyResult.
  rewrite Hurl, Hb, Hst, Hres.
  rewrite (importLoop_no_cancel formatLess _ _ _ _ _ Hctx). eauto.
Qed.

End ImportFacts.

(* ===================================================================== *)
(** * Further properties of the code *)
(* ===================================================================== *)

(* ===================================================================== *)
(** ** File names: [sanitizeFileName] and what is built on it *)
(* ===================================================================== *)

Lemma allBytes_app (f : ascii -> bool) (a b : string) :
  allBytes f (a ++ b) = allBytes f a && allBytes f b.
Proof.
  induction a as [|c a IH]; [reflexivity|].
  rewrite append_cons. cbn [allBytes]. rewrite IH. apply andb_assoc.
Qed.

Lemma allBytes_impl (f g : ascii -> bool) (s : string) :
  (forall c, f c = true -> g c = true) -> allBytes f s = true -> allBytes g s = true.
Proof.
  intros Hfg. induction s as [|c r IH]; [reflexivity|].
  cbn [allBytes]. intros [Hc Hr]%andb_true_iff.
  rewrite (Hfg c Hc). exact (IH Hr).
Qed.

Lemma fileNameSafe_allowed (c : ascii) : fileNameSafe c = true -> fileNameAllowed c = true.
Proof. unfold fileNameSafe. intros [H _]%andb_true_iff. exact H. Qed.

Lemma stripDisallowed_allowed (s : string) :
  allBytes fileNameAllowed (stripDisallowed s) = true.
Proof.
  induction s as [|c r IH]; [reflexivity|].
  cbn [stripDisallowed]. destruct (fileNameAllowed c) eqn:E; [|exact IH].
  cbn [allBytes]. rewrite E. exact IH.
Qed.

Lemma stripDisallowed_id (s : string) :
  allBytes fileNameAllowed s = true -> stripDisallowed s = s.
Proof.
  induction s as [|c r IH]; [reflexivity|].
  cbn [allBytes stripDisallowed]. intros [Hc Hr]%andb_true_iff.
  rewrite Hc, (IH Hr). reflexivity.
Qed.

Lemma TrimSpace_allBytes (f : ascii -> bool) (s : string) :
  allBytes f s = true -> allBytes f (TrimSpace s) = true.
Proof.
  intros H. destruct (TrimSpace_part s) as (a & b & ->).
  apply allBytes_take, allBytes_drop, H.
Qed.

(** Replacing a byte that does not occur changes nothing. *)
Lemma ReplaceAll_absent (f : ascii -> bool) (a : ascii) (new s : string) :
  f a = false -> allBytes f s = true -> ReplaceAll s (String a EmptyString) new = s.
Proof.
  intros Ha. unfold ReplaceAll. induction s as [|c r IH]; [reflexivity|].
  cbn [allBytes]. intros [Hc Hr]%andb_true_iff.
  cbn [replace_go]. rewrite HasPrefix_cons.
  destruct (Ascii.eqb a c) eqn:E.
  - apply Ascii.eqb_eq in E. congruence.
  - rewrite (IH Hr). reflexivity.
Qed.

(** Among the bytes the sanitizer lets through, the space is the only
    white space. *)
Lemma allowed_space (c : ascii) :
  fileNameAllowed c = true -> isAsciiSpace c = negb (fileNameSafe c).
Proof.
  destruct c as [[] [] [] [] [] [] [] []]; vm_compute; intros H;
    first [reflexivity | discriminate H].
Qed.

Lemma fields_go_safe (s : string) :
  forall cur,
    allBytes fileNameAllowed s = true ->
    (forall w, cur = Some w -> allBytes fileNameSafe w = true) ->
    Forall (fun w => allBytes fileNameSafe w = true) (fields_go cur s).
Proof.
  induction s as [|c r IH]; intros cur Hs Hcur.
  - destruct cur as [w|]; cbn [fields_go]; [|constructor].
    constructor; [apply Hcur; reflexivity | constructor].
  - cbn [allBytes] in Hs. apply andb_true_iff in Hs as [Hc Hr].
    cbn [fields_go]. rewrite (allowed_space c Hc).
    destruct (fileNameSafe c) eqn:E; cbn [negb].
    + apply IH; [exact Hr|]. intros w [= <-].
      rewrite allBytes_app. cbn [allBytes]. rewrite E.
      destruct cur as [w|]; simpl; [|reflexivity].
      rewrite (Hcur w eq_refl). reflexivity.
    + destruct cur as [w|].
      * constructor; [apply Hcur; reflexivity|].
        apply IH; [exact Hr | intros ? [=]].
      * apply IH; [exact Hr | intros ? [=]].
Qed.

Lemma Join_safe (ws : list string) :
  Forall (fun w => allBytes fileNameSafe w = true) ws ->
  allBytes fileNameSafe (Join ws "-") = true.
Proof.
  induction 1 as [|w ws Hw Hws IH]; [reflexivity|].
  destruct ws as [|w' ws']; [exact Hw|].
  change (Join (w :: w' :: ws') "-") with (w ++ "-" ++ Join (w' :: ws') "-").
  rewrite !allBytes_app, Hw, IH. reflexivity.
Qed.

Lemma sanitizeFileName_allBytes_safe (value : string) :
  allBytes fileNameSafe (sanitizeFileName value) = true.
Proof.
  unfold sanitizeFileName.
  pose proof (TrimSpace_allBytes fileNameAllowed _ (stripDisallowed_allowed value)) as H.
  rewrite (ReplaceAll_absent fileNameAllowed "/" "-" _ eq_refl H).
  rewrite (ReplaceAll_absent fileNameAllowed "\" "-" _ eq_refl H).
  apply Join_safe, fields_go_safe; [exact H | intros ? [=]].
Qed.

(** A field under construction that meets no white space is the one
    field. *)
Lemma fields_go_word (s : string) :
  forall w, allBytes fileNameSafe s = true -> fields_go (Some w) s = [w ++ s].
Proof.
  induction s as [|c r IH]; intros w Hs.
  - cbn [fields_go]. rewrite append_empty_r. reflexivity.
  - cbn [allBytes] in Hs. apply andb_true_iff in Hs as [Hc Hr].
    cbn [fields_go]. rewrite (allowed_space c (fileNameSafe_allowed c Hc)), Hc.
    simpl default. cbn [negb]. rewrite (IH _ Hr), append_assoc. reflexivity.
Qed.

Lemma Join_Fields_safe (s : string) :
  allBytes fileNameSafe s = true -> Join (Fields s) "-" = s.
Proof.
  destruct s as [|c r]; [reflexivity|].
  cbn [allBytes]. intros [Hc Hr]%andb_true_iff.
  unfold Fields. cbn [fields_go].
  rewrite (allowed_space c (fileNameSafe_allowed c Hc)), Hc.
  cbn [negb default]. rewrite (fields_go_word r _ Hr). reflexivity.
Qed.

Lemma spaceRunes_not_safe (w : string) :
  In w spaceRunes -> allBytes fileNameSafe w = false.
Proof.
  unfold spaceRunes. cbn [List.map In].
  intros H. repeat (destruct H as [<-|H]; [vm_compute; reflexivity|]). destruct H.
Qed.

Lemma HasPrefix_allBytes (f : ascii -> bool) (s x : string) :
  allBytes f s = true -> HasPrefix s x = true -> allBytes f x = true.
Proof.
  intros Hs Hx. destruct (HasPrefix_app_inv s x Hx) as [rest ->].
  rewrite allBytes_app in Hs. apply andb_true_iff in Hs as [H _]. exact H.
Qed.

Lemma HasSuffix_allBytes (f : ascii -> bool) (s x : string) :
  allBytes f s = true -> HasSuffix s x = true -> allBytes f x = true.
Proof.
  unfold HasSuffix. intros Hs [_ Hx]%andb_true_iff.
  apply String.eqb_eq in Hx. rewrite <- Hx. apply allBytes_drop, Hs.
Qed.

Lemma leadingSpaceWidth_safe (s : string) :
  allBytes fileNameSafe s = true -> leadingSpaceWidth s = O.
Proof.
  intros Hs. unfold leadingSpaceWidth.
  destruct (List.find (HasPrefix s) spaceRunes) as [w|] eqn:E; [|reflexivity].
  apply List.find_some in E as [Hin Hp].
  pose proof (HasPrefix_allBytes _ _ _ Hs Hp) as Hw.
  rewrite (spaceRunes_not_safe w Hin) in Hw. discriminate Hw.
Qed.

Lemma trailingSpaceWidth_safe (s : string) :
  allBytes fileNameSafe s = true -> trailingSpaceWidth s = O.
Proof.
  intros Hs. unfold trailingSpaceWidth.
  destruct (List.find (HasSuffix s) spaceRunes) as [w|] eqn:E; [|reflexivity].
  apply List.find_some in E as [Hin Hp].
  pose proof (HasSuffix_allBytes _ _ _ Hs Hp) as Hw.
  rewrite (spaceRunes_not_safe w Hin) in Hw. discriminate Hw.
Qed.

Lemma trimLeftSpace_none (fuel : nat) (s : string) :
  leadingSpaceWidth s = O -> trimLeftSpace fuel s = s.
Proof. intros H. destruct fuel; cbn [trimLeftSpace]; [|rewrite H]; reflexivity. Qed.

Lemma trimRightSpace_none (fuel : nat) (s : string) :
  trailingSpaceWidth s = O -> trimRightSpace fuel s = s.
Proof. intros H. destruct fuel; cbn [trimRightSpace]; [|rewrite H]; reflexivity. Qed.

Lemma TrimSpace_none (s : string) :
  leadingSpaceWidth s = O -> trailingSpaceWidth s = O -> TrimSpace s = s.
Proof.
  intros Hl Hr. unfold TrimSpace.
  rewrite (trimLeftSpace_none _ s Hl). apply trimRightSpace_none, Hr.
Qed.

(** A name made of safe bytes passes the sanitizer unchanged. *)
Lemma sanitizeFileName_fixed (s : string) :
  allBytes fileNameSafe s = true -> sanitizeFileName s = s.
Proof.
  intros Hs. unfold sanitizeFileName.
  pose proof (allBytes_impl _ _ s fileNameSafe_allowed Hs) as Ha.
  rewrite (stripDisallowed_id s Ha).
  rewrite (TrimSpace_none s (leadingSpaceWidth_safe s Hs) (trailingSpaceWidth_safe s Hs)).
  rewrite (ReplaceAll_absent fileNameAllowed "/" "-" _ eq_refl Ha).
  rewrite (ReplaceAll_absent fileNameAllowed "\" "-" _ eq_refl Ha).
  apply Join_Fields_safe, Hs.
Qed.

Lemma length_take (k : nat) (s : string) :
  String.length (take k s) = Nat.min k (String.length s).
Proof.
  revert s. induction k as [|k IH]; intros [|c r]; try reflexivity.
  cbn [take String.length Nat.min]. rewrite IH. reflexivity.
Qed.

Lemma isEmpty_true (s : string) : isEmpty s = true <-> s = EmptyString.
Proof. destruct s; cbn; split; congruence. Qed.

Lemma buildYouTubeBaseName_props (title : string) :
  buildYouTubeBaseName title <> EmptyString /\
  (String.length (buildYouTubeBaseName title) <= 80)%nat /\
  allBytes fileNameSafe (buildYouTubeBaseName title) = true.
Proof.
  unfold buildYouTubeBaseName.
  pose proof (sanitizeFileName_allBytes_safe title) as Hs.
  set (name := if isEmpty (sanitizeFileName title) then "youtube-video"
               else sanitizeFileName title).
  assert (Hne : name <> EmptyString).
  { subst name. destruct (sanitizeFileName title); cbn [isEmpty]; discriminate. }
  assert (Hsafe : allBytes fileNameSafe name = true).
  { subst name. destruct (isEmpty (sanitizeFileName title)); [reflexivity | exact Hs]. }
  destruct (80 <? String.length name)%nat eqn:E.
  - split; [|split].
    + destruct name as [|c r]; [congruence|]. discriminate.
    + rewrite length_take. apply Nat.le_min_l.
    + apply allBytes_take, Hsafe.
  - apply Nat.ltb_ge in E. auto.
Qed.

Lemma buildYouTubeBaseName_fixed (name : string) :
  name <> EmptyString -> (String.length name <= 80)%nat ->
  allBytes fileNameSafe name = true ->
  buildYouTubeBaseName name = name.
Proof.
  intros Hne Hlen Hsafe. unfold buildYouTubeBaseName.
  rewrite (sanitizeFileName_fixed name Hsafe).
  destruct name as [|c r]; [congruence|]. cbn [isEmpty].
  apply Nat.ltb_ge in Hlen. rewrite Hlen. reflexivity.
Qed.

Lemma allBytes_not_Contains (f : ascii -> bool) (a : ascii) (s : string) :
  f a = false -> allBytes f s = true -> Contains s (String a EmptyString) = false.
Proof.
  intros Ha. induction s as [|c r IH]; [reflexivity|].
  cbn [allBytes]. intros [Hc Hr]%andb_true_iff.
  cbn [Contains]. rewrite HasPrefix_cons, (IH Hr).
  destruct (Ascii.eqb a c) eqn:E; [|reflexivity].
  apply Ascii.eqb_eq in E. congruence.
Qed.

Lemma extensionFromMime_cases (mimeType : string) :
  In (extensionFromMime mimeType) [".m4a"; ".mp4"; ".webm"; ".bin"]%list.
Proof.
  unfold extensionFromMime.
  destruct (Contains mimeType "audio/mp4"); [cbn; tauto|].
  destruct (Contains mimeType "mp4"); [cbn; tauto|].
  destruct (Contains mimeType "webm"); cbn; tauto.
Qed.

Lemma extensionFromMime_safe (mimeType : string) :
  allBytes fileNameSafe (extensionFromMime mimeType) = true /\
  (4 <= String.length (extensionFromMime mimeType) <= 5)%nat.
Proof.
  pose proof (extensionFromMime_cases mimeType) as H. cbn [In] in H.
  destruct H as [<-|[<-|[<-|[<-|[]]]]]; (split; [reflexivity | cbn; lia]).
Qed.

Lemma joinKey_append (prefix filename : string) :
  joinKey prefix filename = prefix ++ filename.
Proof. destruct prefix; reflexivity. Qed.

Lemma HasSuffix_app (a x : string) : HasSuffix (a ++ x) x = true.
Proof.
  unfold HasSuffix. rewrite length_append.
  replace (String.length a + String.length x - String.length x)%nat
    with (String.length a) by lia.
  rewrite drop_app, String.eqb_refl, andb_true_r.
  apply Nat.leb_le. lia.
Qed.

(** X1: whatever the title, the name [sanitizeFileName] returns is made
    of letters, digits, hyphens, dots and underscores only; it holds no
    slash, no backslash and no space. *)
Theorem sanitizeFileName_safe (value : string) :
  allBytes fileNameSafe (sanitizeFileName value) = true /\
  Contains (sanitizeFileName value) "/" = false /\
  Contains (sanitizeFileName value) "\" = false /\
  Contains (sanitizeFileName value) " " = false.
Proof.
  pose proof (sanitizeFileName_allBytes_safe value) as H.
  split; [exact H|].
  repeat split; apply (allBytes_not_Contains fileNameSafe); solve [reflexivity | exact H].
Qed.

(** X2: the base name of an object is never empty, never longer than 80
    bytes and made of safe bytes only; a title that sanitizes to nothing
    gets the name [youtube-video]. *)
Theorem buildYouTubeBaseName_shape (title : string) :
  buildYouTubeBaseName title <> EmptyString /\
  (String.length (buildYouTubeBaseName title) <= 80)%nat /\
  allBytes fileNameSafe (buildYouTubeBaseName title) = true /\
  (sanitizeFileName title = EmptyString ->
   buildYouTubeBaseName title = "youtube-video").
Proof.
  destruct (buildYouTubeBaseName_props title) as (Hne & Hlen & Hsafe).
  repeat split; try assumption.
  intros E. unfold buildYouTubeBaseName. rewrite E. reflexivity.
Qed.

(** X3: sanitizing is idempotent, and so is the construction of the base
    name: a name that went through either function comes back unchanged
    when it is passed through again. *)
Theorem buildYouTubeBaseName_idempotent (title : string) :
  sanitizeFileName (sanitizeFileName title) = sanitizeFileName title /\
  buildYouTubeBaseName (buildYouTubeBaseName title) = buildYouTubeBaseName title.
Proof.
  split.
  - apply sanitizeFileName_fixed, sanitizeFileName_allBytes_safe.
  - destruct (buildYouTubeBaseName_props title) as (Hne & Hlen & Hsafe).
    apply buildYouTubeBaseName_fixed; assumption.
Qed.

(** X4: the primary key of an item is the prefix followed by a file name
    that adds no folder level: the name holds no slash, it is the base
    name followed by the extension, and it is between 5 and 85 bytes
    long. *)
Theorem primaryKeyOf_flat (prefix : string) (video : Video) (format : Format) :
  let name := buildYouTubeFilename (Title video) format in
  primaryKeyOf prefix video format = prefix ++ name /\
  HasPrefix (primaryKeyOf prefix video format) prefix = true /\
  Contains name "/" = false /\
  HasSuffix name (extensionFromMime (MimeType format)) = true /\
  (5 <= String.length name <= 85)%nat.
Proof.
  intros name. subst name. unfold primaryKeyOf. rewrite joinKey_append.
  destruct (buildYouTubeBaseName_props (Title video)) as (Hne & Hlen & Hsafe).
  destruct (extensionFromMime_safe (MimeType format)) as (Hext & Hextlen).
  split; [reflexivity|]. split; [apply HasPrefix_refl_app|].
  unfold buildYouTubeFilename.
  split; [|split].
  - apply (allBytes_not_Contains fileNameSafe); [reflexivity|].
    rewrite allBytes_app, Hsafe, Hext. reflexivity.
  - apply HasSuffix_app.
  - rewrite length_append.
    destruct (buildYouTubeBaseName (Title video)) as [|c r]; [congruence|].
    cbn [String.length] in *. lia.
Qed.

(** X5: the video identifier enters the legacy key as it is, without
    being sanitized; when it is made of safe bytes, the legacy key adds
    no folder level either. *)
Theorem legacyKeyOf_flat (prefix : string) (video : Video) (format : Format) :
  allBytes fileNameSafe (ID video) = true ->
  let name := buildYouTubeFilenameWithID (Title video) (ID video) format in
  legacyKeyOf prefix video format = prefix ++ name /\
  allBytes fileNameSafe name = true /\
  Contains name "/" = false.
Proof.
  intros Hid name. subst name. unfold legacyKeyOf. rewrite joinKey_append.
  destruct (buildYouTubeBaseName_props (Title video)) as (Hne & Hlen & Hsafe).
  destruct (extensionFromMime_safe (MimeType format)) as (Hext & _).
  assert (H : allBytes fileNameSafe
                (buildYouTubeFilenameWithID (Title video) (ID video) format) = true).
  { unfold buildYouTubeFilenameWithID.
    rewrite !allBytes_app, Hsafe, Hid, Hext. reflexivity. }
  split; [reflexivity|]. split; [exact H|].
  apply (allBytes_not_Contains fileNameSafe); [reflexivity | exact H].
Qed.

Lemma legacyKeyOf_flat_witness :
  allBytes fileNameSafe (ID videoA) = true /\
  legacyKeyOf "media/" videoA fmtMp4 = "media/Same-Title-a1.mp4" /\
  Contains (buildYouTubeFilenameWithID (Title videoA) (ID videoA) fmtMp4) "/" = false.
Proof.
  split; [reflexivity|].
  split; [reflexivity|].
  exact (proj2 (proj2 (legacyKeyOf_flat "media/" videoA fmtMp4 eq_refl))).
Defined.

(** X6: the extension of the stored file follows the chosen encoding:
    it is one of [.m4a], [.mp4], [.webm] and [.bin], and it is [.m4a] or
    [.mp4] whenever the video offers an encoding of the MP4 family with
    audio. *)
Theorem extensionFromMime_of_selected
    (formatLess : Format -> Format -> bool) (video : Video) (selected : Format) :
  selectYouTubeFormat formatLess video = inl selected ->
  In (extensionFromMime (MimeType selected)) [".m4a"; ".mp4"; ".webm"; ".bin"]%list /\
  (mp4Formats (WithAudioChannels (Formats video)) <> [] ->
   In (extensionFromMime (MimeType selected)) [".m4a"; ".mp4"]%list).
Proof.
  intros Hsel. split; [apply extensionFromMime_cases|].
  intros Hmp4. rewrite selectYouTubeFormat_pool in Hsel.
  destruct (Sort formatLess (formatPool video)) as [|h r] eqn:E; [discriminate Hsel|].
  injection Hsel as <-.
  assert (Hin : In h (formatPool video)).
  { apply (Sort_In formatLess). rewrite E. left. reflexivity. }
  pose proof (formatPool_preferred video h Hmp4 Hin) as Hc.
  unfold extensionFromMime. rewrite Hc.
  destruct (Contains (MimeType h) "audio/mp4"); cbn; tauto.
Qed.

Lemma extensionFromMime_of_selected_witness :
  selectYouTubeFormat byBitrate videoC = inl fmtM4a /\
  In (extensionFromMime (MimeType fmtM4a)) [".m4a"; ".mp4"; ".webm"; ".bin"]%list.
Proof.
  split; [reflexivity|].
  exact (proj1 (extensionFromMime_of_selected byBitrate videoC fmtM4a eq_refl)).
Defined.

(* ===================================================================== *)
(** ** Content types and the classification of errors *)
(* ===================================================================== *)

Lemma length_drop (k : nat) (s : string) :
  String.length (drop k s) = (String.length s - k)%nat.
Proof.
  revert s. induction k as [|k IH]; intros [|c r]; try reflexivity.
  cbn [drop String.length]. rewrite IH. reflexivity.
Qed.

Lemma spaceRunes_nonempty (w : string) : In w spaceRunes -> String.length w <> O.
Proof. intros H. exact (proj2 (spaceRune_leading w EmptyString H)). Qed.

(** The width is [0] exactly when no white-space rune starts the string. *)
Lemma leadingSpaceWidth_zero (s : string) :
  leadingSpaceWidth s = O <-> forall w, In w spaceRunes -> HasPrefix s w = false.
Proof.
  unfold leadingSpaceWidth.
  destruct (List.find (HasPrefix s) spaceRunes) as [w|] eqn:E; split.
  - intros H. apply List.find_some in E as [Hin _].
    destruct (spaceRunes_nonempty w Hin H).
  - intros H. apply List.find_some in E as [Hin Hp].
    rewrite (H w Hin) in Hp. discriminate Hp.
  - intros _ w Hin. exact (List.find_none _ _ E w Hin).
  - reflexivity.
Qed.

Lemma trailingSpaceWidth_zero (s : string) :
  trailingSpaceWidth s = O <-> forall w, In w spaceRunes -> HasSuffix s w = false.
Proof.
  unfold trailingSpaceWidth.
  destruct (List.find (HasSuffix s) spaceRunes) as [w|] eqn:E; split.
  - intros H. apply List.find_some in E as [Hin _].
    destruct (spaceRunes_nonempty w Hin H).
  - intros H. apply List.find_some in E as [Hin Hp].
    rewrite (H w Hin) in Hp. discriminate Hp.
  - intros _ w Hin. exact (List.find_none _ _ E w Hin).
  - reflexivity.
Qed.

(** The fuel of [trimLeftSpace] is enough: nothing is left to trim. *)
Lemma trimLeftSpace_done (fuel : nat) :
  forall s, (String.length s <= fuel)%nat ->
            leadingSpaceWidth (trimLeftSpace fuel s) = O.
Proof.
  induction fuel as [|fuel IH]; intros s Hlen.
  - destruct s; [reflexivity | cbn in Hlen; lia].
  - cbn [trimLeftSpace]. destruct (leadingSpaceWidth s) as [|w] eqn:E; [exact E|].
    apply IH. rewrite length_drop.
    destruct s as [|c r]; [discriminate E|]. cbn [String.length] in *. lia.
Qed.

Lemma trimRightSpace_done (fuel : nat) :
  forall s, (String.length s <= fuel)%nat ->
            trailingSpaceWidth (trimRightSpace fuel s) = O.
Proof.
  induction fuel as [|fuel IH]; intros s Hlen.
  - destruct s; [reflexivity | cbn in Hlen; lia].
  - cbn [trimRightSpace]. destruct (trailingSpaceWidth s) as [|w] eqn:E; [exact E|].
    apply IH. rewrite length_take.
    destruct s as [|c r]; [discriminate E|]. cbn [String.length] in *. lia.
Qed.

Lemma HasPrefix_take (k : nat) (s x : string) :
  HasPrefix (take k s) x = true -> HasPrefix s x = true.
Proof.
  intros H. rewrite <- (take_drop k s). apply HasPrefix_app_l, H.
Qed.

Lemma leadingSpaceWidth_take (k : nat) (s : string) :
  leadingSpaceWidth s = O -> leadingSpaceWidth (take k s) = O.
Proof.
  rewrite !leadingSpaceWidth_zero. intros H w Hin.
  destruct (HasPrefix (take k s) w) eqn:E; [|reflexivity].
  rewrite <- (H w Hin). symmetry. apply (HasPrefix_take k), E.
Qed.

(** What [strings.TrimSpace] returns neither starts nor ends with a
    white-space rune. *)
Lemma TrimSpace_trimmed (s : string) :
  leadingSpaceWidth (TrimSpace s) = O /\ trailingSpaceWidth (TrimSpace s) = O.
Proof.
  unfold TrimSpace. set (l := trimLeftSpace (String.length s) s).
  assert (Hl : leadingSpaceWidth l = O) by (apply trimLeftSpace_done; lia).
  split.
  - destruct (trimRightSpace_take (String.length l) l) as [k ->].
    apply leadingSpaceWidth_take, Hl.
  - apply trimRightSpace_done. lia.
Qed.

Lemma TrimSpace_idempotent (s : string) : TrimSpace (TrimSpace s) = TrimSpace s.
Proof. destruct (TrimSpace_trimmed s) as [Hl Hr]. apply TrimSpace_none; assumption. Qed.

Lemma Index_none (s sub : string) : Index s sub = None -> Contains s sub = false.
Proof.
  induction s as [|c r IH]; cbn [Index Contains].
  - destruct (HasPrefix EmptyString sub); [discriminate | reflexivity].
  - destruct (HasPrefix (String c r) sub); [discriminate|].
    destruct (Index r sub); [discriminate|]. intros _. exact (IH eq_refl).
Qed.

(** Nothing before the first occurrence holds an occurrence. *)
Lemma Index_first (sub : string) (s : string) :
  sub <> EmptyString ->
  forall idx, Index s sub = Some idx -> Contains (take idx s) sub = false.
Proof.
  intros Hsub. induction s as [|c r IH]; intros idx; cbn [Index].
  - destruct sub; [congruence|]. discriminate.
  - destruct (HasPrefix (String c r) sub) eqn:E.
    + intros [= <-]. destruct sub; [congruence | reflexivity].
    + destruct (Index r sub) as [k|]; [|discriminate]. intros [= <-].
      cbn [take Contains]. rewrite (IH k eq_refl), orb_false_r.
      destruct (HasPrefix (String c (take k r)) sub) eqn:E2; [|reflexivity].
      rewrite <- E. symmetry. apply (HasPrefix_take (S k)). exact E2.
Qed.

Lemma Contains_none_Index (s sub : string) : Contains s sub = false -> Index s sub = None.
Proof.
  induction s as [|c r IH]; cbn [Index Contains]; intros [H1 H2]%orb_false_iff.
  - rewrite H1. reflexivity.
  - rewrite H1, (IH H2). reflexivity.
Qed.

Lemma TrimSpace_Contains (s sub : string) :
  Contains s sub = false -> Contains (TrimSpace s) sub = false.
Proof.
  intros H. destruct (TrimSpace_part s) as (a & b & ->).
  apply Contains_take, Contains_drop, H.
Qed.

Lemma contentTypeFromMime_no_semicolon (mimeType : string) :
  Contains (contentTypeFromMime mimeType) ";" = false.
Proof.
  unfold contentTypeFromMime. apply TrimSpace_Contains.
  destruct (Index mimeType ";") as [idx|] eqn:E.
  - apply (Index_first ";"); [discriminate | exact E].
  - apply Index_none, E.
Qed.

Lemma ToLower_app (a b : string) : ToLower (a ++ b) = ToLower a ++ ToLower b.
Proof.
  induction a as [|c a IH]; [reflexivity|].
  rewrite append_cons. cbn [ToLower]. rewrite IH, append_cons. reflexivity.
Qed.

Lemma Contains_prefix (s sub : string) : HasPrefix s sub = true -> Contains s sub = true.
Proof. intros H. destruct s; cbn [Contains]; rewrite H; reflexivity. Qed.

Lemma Contains_middle (a w b : string) : Contains (a ++ w ++ b) w = true.
Proof. apply Contains_app_r, Contains_prefix, HasPrefix_refl_app. Qed.

(** X7: the content type of the stored object is the MIME type of the
    encoding without its parameters: it holds no semicolon, it neither
    starts nor ends with a white-space rune, and taking the content type
    of a content type changes nothing. *)
Theorem contentTypeFromMime_bare (mimeType : string) :
  Contains (contentTypeFromMime mimeType) ";" = false /\
  (forall w, In w spaceRunes ->
     HasPrefix (contentTypeFromMime mimeType) w = false /\
     HasSuffix (contentTypeFromMime mimeType) w = false) /\
  contentTypeFromMime (contentTypeFromMime mimeType) = contentTypeFromMime mimeType.
Proof.
  pose proof (contentTypeFromMime_no_semicolon mimeType) as Hsemi.
  split; [exact Hsemi|]. split.
  - intros w Hin. unfold contentTypeFromMime.
    destruct (TrimSpace_trimmed
                match Index mimeType ";" with
                | Some idx => take idx mimeType
                | None => mimeType
                end) as [Hl Hr].
    split.
    + exact (proj1 (leadingSpaceWidth_zero _) Hl w Hin).
    + exact (proj1 (trailingSpaceWidth_zero _) Hr w Hin).
  - unfold contentTypeFromMime at 1.
    rewrite (Contains_none_Index _ _ Hsemi).
    unfold contentTypeFromMime. apply TrimSpace_idempotent.
Qed.

(** X8: a failure counts as "object not found" as soon as its text
    mentions [notfound] or [status code: 404] anywhere, in any letter
    case; no error at all is never "not found". *)
Theorem isNotFoundError_recognises (before word after : string) :
  ToLower word = "notfound" \/ ToLower word = "status code: 404" ->
  isNotFoundError (Some (before ++ word ++ after)) = true /\
  isNotFoundError None = false.
Proof.
  intros H. split; [|reflexivity].
  cbn [isNotFoundError]. unfold isNotFoundText.
  rewrite !ToLower_app. apply orb_true_iff.
  destruct H as [-> | ->]; [left | right]; apply Contains_middle.
Qed.

(** The message of the S3 client for an absent object. *)
Lemma isNotFoundError_recognises_witness :
  ToLower "NotFound" = "notfound" /\
  isNotFoundError
    (Some "operation error S3: HeadObject, StatusCode: 404, api error NotFound: Not Found") =
  true.
Proof.
  split; [reflexivity|].
  exact (proj1 (isNotFoundError_recognises
                  "operation error S3: HeadObject, StatusCode: 404, api error "
                  "NotFound" ": Not Found" (or_introl eq_refl))).
Defined.

(* ===================================================================== *)
(** ** The identity tag of an upload, and importing an item again *)
(* ===================================================================== *)

Lemma metadataKeys_differ : youtubeVideoTitleMetadataKey <> youtubeVideoIDMetadataKey.
Proof. discriminate. Qed.

Lemma uploadMetadata_id (video : Video) :
  uploadMetadata video !! youtubeVideoIDMetadataKey = Some (ID video).
Proof.
  unfold uploadMetadata. destruct (negb (isEmpty (Title video))).
  - rewrite lookup_insert_ne by exact metadataKeys_differ. apply lookup_singleton_eq.
  - apply lookup_singleton_eq.
Qed.

Lemma uploadMetadata_title (video : Video) :
  uploadMetadata video !! youtubeVideoTitleMetadataKey =
  if isEmpty (Title video) then None else Some (Title video).
Proof.
  unfold uploadMetadata. destruct (isEmpty (Title video)); cbn [negb].
  - apply lookup_singleton_ne. intros H. exact (metadataKeys_differ (eq_sym H)).
  - apply lookup_insert_eq.
Qed.

Lemma uploadMetadata_inv (video : Video) (k v : string) :
  uploadMetadata video !! k = Some v ->
  (k = youtubeVideoIDMetadataKey /\ v = ID video) \/
  (k = youtubeVideoTitleMetadataKey /\ v = Title video).
Proof.
  unfold uploadMetadata. destruct (negb (isEmpty (Title video))).
  - intros [[<- <-]|[_ H]]%lookup_insert_Some; [right; auto|].
    apply lookup_singleton_Some in H as [<- <-]. left; auto.
  - intros [<- <-]%lookup_singleton_Some. left; auto.
Qed.

Lemma uploadMetadata_matches (video : Video) (videoID : string) :
  metadataMatchesYouTubeVideo (uploadMetadata video) videoID = true <->
  videoID = ID video /\ videoID <> EmptyString.
Proof.
  rewrite metadataMatches_carries. unfold carriesSourceId. split.
  - intros (Hne & k & Hk & Hlook). split; [|exact Hne].
    apply uploadMetadata_inv in Hlook as [[-> ->]|[-> _]]; [reflexivity|].
    discriminate Hk.
  - intros [-> Hne]. split; [exact Hne|].
    exists youtubeVideoIDMetadataKey. split; [reflexivity | apply uploadMetadata_id].
Qed.

(** X9: the tags an upload writes are the ones the check for an earlier
    import reads.  The metadata of an upload holds the video identifier
    under the identity key, and the title under the title key unless the
    title is empty; it matches a video identifier exactly when that is
    the identifier of the uploaded video and is not empty. *)
Theorem uploadMetadata_round_trip (video : Video) (videoID : string) :
  uploadMetadata video !! youtubeVideoIDMetadataKey = Some (ID video) /\
  uploadMetadata video !! youtubeVideoTitleMetadataKey =
    (if isEmpty (Title video) then None else Some (Title video)) /\
  (metadataMatchesYouTubeVideo (uploadMetadata video) videoID = true <->
   videoID = ID video /\ videoID <> EmptyString).
Proof.
  split; [apply uploadMetadata_id|]. split; [apply uploadMetadata_title|].
  apply uploadMetadata_matches.
Qed.

Lemma PutObject_written (st st' : ObjectStore) (bucketName key contentType : string)
    (p p' : progressReader) (o o' : Obs) (metadata : gmap string string) :
  PutObject st bucketName key p o contentType metadata = (None, st', p', o') ->
  objects st' =
  <[key := {| Metadata := metadata; ObjContentType := contentType;
              ObjSize := read p' |}]> (objects st).
Proof.
  unfold PutObject. destruct (nextFault (putFaults st)); [discriminate|].
  destruct (readBody (pending (rc p)) p o) as [[err p1] o1].
  destruct err; try discriminate; intros [= <- <- <-]; reflexivity.
Qed.

Section ReimportFacts.

Variable formatLess : Format -> Format -> bool.

(** An item is imported only when an encoding was chosen and its stream
    was opened. *)
Lemma download_imported_open (st : ObjectStore) (o : Obs) (bucketName prefix : string)
    (client : Client) (video : Video) (item : YouTubeImportedItem) (skipped : bool) :
  outcome (downloadYouTubeVideo formatLess st o bucketName prefix client video) =
    inl (item, skipped) ->
  exists f stream hint,
    selectYouTubeFormat formatLess video = inl f /\
    GetStreamContext client video f = inl (stream, hint).
Proof.
  intros H. destruct (selectYouTubeFormat formatLess video) as [f|text] eqn:Ef.
  2: { rewrite (download_no_format formatLess st o bucketName prefix client video text Ef)
         in H. discriminate H. }
  destruct (GetStreamContext client video f) as [[stream hint]|err] eqn:Es.
  2: { rewrite (download_no_stream formatLess st o bucketName prefix client video f err
                  Ef Es) in H. discriminate H. }
  eauto.
Qed.

(** What an import writes and reports, whatever the lookups answered. *)
Lemma download_put (st : ObjectStore) (o : Obs) (bucketName prefix : string)
    (client : Client) (video : Video) (item : YouTubeImportedItem) :
  outcome (downloadYouTubeVideo formatLess st o bucketName prefix client video) =
    inl (item, false) ->
  exists (f : Format) (stream : Stream) (hint : Z) (obj : StoredObject),
    selectYouTubeFormat formatLess video = inl f /\
    GetStreamContext client video f = inl (stream, hint) /\
    objects (storeAfter (downloadYouTubeVideo formatLess st o bucketName prefix client
                           video)) = <[Key item := obj]> (objects st) /\
    Metadata obj = uploadMetadata video /\
    ObjContentType obj = ContentType item /\
    ContentType item = contentTypeFromMime (MimeType (withSizeHint f hint)) /\
    ItemTitle item = Title video /\
    VideoID item = ID video /\
    SizeBytes item =
      (if (ObjSize obj =? 0) && (0 <? ContentLength (withSizeHint f hint))
       then ContentLength (withSizeHint f hint) else ObjSize obj).
Proof.
  intros Hout.
  destruct (download_imported_open _ _ _ _ _ _ _ _ Hout) as (f & stream & hint & Ef & Es).
  exists f, stream, hint.
  pose proof (download_imported_inv formatLess st o bucketName prefix client video
                f stream hint item Ef Es Hout) as Hdec. cbv zeta in Hdec.
  pose proof (download_decision formatLess st o bucketName prefix client video
                f stream hint Ef Es) as D. cbv zeta in D. rewrite Hdec in D.
  destruct D as (p0 & o0 & putErr & st3 & p3 & _ & Hput & Hst3 & _ & Hout').
  rewrite Hout in Hout'. destruct putErr as [text|]; [discriminate Hout'|].
  injection Hout' as Hitem.
  apply PutObject_written in Hput. rewrite <- Hst3, !HeadObject_objects in Hput.
  eexists. split; [exact Ef|]. split; [exact Es|]. split; [exact Hput|].
  pose proof (f_equal ItemTitle Hitem) as H1. pose proof (f_equal VideoID Hitem) as H2.
  pose proof (f_equal SizeBytes Hitem) as H3. pose proof (f_equal ContentType Hitem) as H4.
  cbn in H1, H2, H3, H4. cbn [Metadata ObjContentType ObjSize].
  repeat split; solve [assumption | symmetry; assumption].
Qed.

(** What an import leaves in the bucket and reports: when the store
    reports an absent object only for an absent object, the key was
    free. *)
Lemma download_written (st : ObjectStore) (o : Obs) (bucketName prefix : string)
    (client : Client) (video : Video) (item : YouTubeImportedItem) :
  soundFaults (headFaults st) ->
  outcome (downloadYouTubeVideo formatLess st o bucketName prefix client video) =
    inl (item, false) ->
  exists (f : Format) (stream : Stream) (hint : Z) (obj : StoredObject),
    selectYouTubeFormat formatLess video = inl f /\
    GetStreamContext client video f = inl (stream, hint) /\
    objects st !! Key item = None /\
    objects (storeAfter (downloadYouTubeVideo formatLess st o bucketName prefix client
                           video)) = <[Key item := obj]> (objects st) /\
    Metadata obj = uploadMetadata video /\
    ObjContentType obj = ContentType item /\
    ContentType item = contentTypeFromMime (MimeType (withSizeHint f hint)) /\
    ItemTitle item = Title video /\
    VideoID item = ID video /\
    SizeBytes item =
      (if (ObjSize obj =? 0) && (0 <? ContentLength (withSizeHint f hint))
       then ContentLength (withSizeHint f hint) else ObjSize obj).
Proof.
  intros Hsound Hout.
  destruct (download_put st o bucketName prefix client video item Hout)
    as (f & stream & hint & obj & Ef & Es & Hput & Hrest).
  pose proof (download_store formatLess st o bucketName prefix client video Hsound)
    as [_ Hst]. rewrite Hout in Hst. destruct Hst as (obj0 & Habs & _ & _).
  exists f, stream, hint, obj.
  split; [exact Ef|]. split; [exact Es|]. split; [exact Habs|].
  split; [exact Hput | exact Hrest].
Qed.

(** X10: importing an item a second time uploads nothing.  When an item
    with a non-empty identifier was imported, and the bucket answers the
    two lookups of a second transfer of the same item, that transfer is
    a skip: it reports the key of the first import, leaves every object
    of the bucket as it was and reads nothing from the source. *)
Theorem downloadYouTubeVideo_reimport_skips
    (st : ObjectStore) (o o' : Obs) (bucketName prefix : string)
    (client : Client) (video : Video) (item : YouTubeImportedItem) :
  ID video <> EmptyString ->
  let d1 := downloadYouTubeVideo formatLess st o bucketName prefix client video in
  outcome d1 = inl (item, false) ->
  nextFault (headFaults (storeAfter d1)) = None ->
  nextFault (tl (headFaults (storeAfter d1))) = None ->
  let d2 := downloadYouTubeVideo formatLess (storeAfter d1) o' bucketName prefix
              client video in
  outcome d2 = inl (skippedItem video (Key item) (ContentType item), true) /\
  objects (storeAfter d2) = objects (storeAfter d1) /\
  obsAfter d2 = o'.
Proof.
  cbv zeta. intros Hid Hout Hf1 Hf2.
  destruct (download_put st o bucketName prefix client video item Hout)
    as (f & stream & hint & obj & Ef & Es & Hobjs & Hmeta & _ & Hct & _).
  pose proof (download_imported_inv formatLess st o bucketName prefix client video
                f stream hint item Ef Es Hout) as Hdec. cbv zeta in Hdec.
  set (st1 := storeAfter (downloadYouTubeVideo formatLess st o bucketName prefix client
                            video)) in *.
  set (pk := primaryKeyOf prefix video (withSizeHint f hint)) in *.
  set (lk := legacyKeyOf prefix video (withSizeHint f hint)) in *.
  assert (Hplan : amendedDecision (objects st1) (ID video) pk lk = Skip (Key item)).
  { unfold amendedDecision. rewrite Hobjs.
    pose proof (primaryKey_neq_legacyKey prefix video (withSizeHint f hint)) as Hneq.
    fold pk lk in Hneq.
    assert (Hown : metadataMatchesYouTubeVideo (Metadata obj) (ID video) = true).
    { rewrite Hmeta. apply uploadMetadata_matches. auto. }
    destruct (transferDecision_write _ _ _ _ _ _ Hdec)
      as [(text & _ & _ & Hkey) | (metadata & Hh1 & Hkey)]; rewrite Hkey.
    - rewrite lookup_insert_eq, <- metadataMatches_tags, Hown. reflexivity.
    - assert (Hother : metadataMatchesYouTubeVideo metadata (ID video) = false).
      { unfold transferDecision in Hdec. rewrite Hh1 in Hdec.
        destruct (metadataMatchesYouTubeVideo metadata (ID video));
          [discriminate Hdec | reflexivity]. }
      apply HeadObject_found in Hh1 as (obj0 & Hobj0 & Hm0).
      rewrite lookup_insert_ne by (intros E; apply Hneq; symmetry; exact E).
      rewrite Hobj0, <- metadataMatches_tags, Hm0.
      rewrite Hother, lookup_insert_eq. rewrite bool_decide_eq_true_2 by eauto.
      reflexivity. }
  pose proof (download_decision formatLess st1 o' bucketName prefix client video
                f stream hint Ef Es) as D. cbv zeta in D.
  fold pk lk in D.
  rewrite (transferDecision_amended st1 bucketName (ID video) pk lk Hf1 Hf2), Hplan in D.
  destruct D as (Hout2 & Hobjs2 & Hobs2 & _).
  rewrite Hout2, Hct. auto.
Qed.

End ReimportFacts.

Lemma downloadYouTubeVideo_reimport_skips_witness :
  ID videoA <> EmptyString /\
  outcome (downloadYouTubeVideo byBitrate emptyStore noObs "bucket" "media/"
             (sampleClient [videoA] []) videoA) =
  inl ({| ItemTitle := "Same Title"; Key := "media/Same-Title.mp4"; VideoID := "a1";
          SizeBytes := 1000; ContentType := "video/mp4" |}, false) /\
  outcome (downloadYouTubeVideo byBitrate
             (storeAfter (downloadYouTubeVideo byBitrate emptyStore noObs "bucket" "media/"
                            (sampleClient [videoA] []) videoA))
             noObs "bucket" "media/" (sampleClient [videoA] []) videoA) =
  inl (skippedItem videoA "media/Same-Title.mp4" "video/mp4", true).
Proof.
  assert (Hid : ID videoA <> EmptyString) by discriminate.
  assert (Hout : outcome (downloadYouTubeVideo byBitrate emptyStore noObs "bucket" "media/"
                            (sampleClient [videoA] []) videoA) =
                 inl ({| ItemTitle := "Same Title"; Key := "media/Same-Title.mp4";
                         VideoID := "a1"; SizeBytes := 1000;
                         ContentType := "video/mp4" |}, false))
    by (vm_compute; reflexivity).
  split; [exact Hid|]. split; [exact Hout|].
  refine (proj1 (downloadYouTubeVideo_reimport_skips byBitrate emptyStore noObs noObs
                   "bucket" "media/" (sampleClient [videoA] []) videoA _
                   Hid Hout _ _)); vm_compute; reflexivity.
Defined.

(* ===================================================================== *)
(** ** What a batch leaves in the bucket *)
(* ===================================================================== *)

Section BatchFrame.

Variable formatLess : Format -> Format -> bool.
Variables bucketName prefix : string.
Variable client : Client.

Local Abbreviation step := (importStep formatLess bucketName prefix client).
Local Abbreviation steps := (importSteps formatLess bucketName prefix client).

(** One item either leaves the items and the objects as they were, or
    adds one item and its object under a key that was free. *)
Lemma step_frame (ls : LoopState) (video : Video) :
  soundFaults (headFaults (store ls)) ->
  (Items (result (step ls video)) = Items (result ls) /\
   objects (store (step ls video)) = objects (store ls)) \/
  (exists item obj,
     Items (result (step ls video)) = (Items (result ls) ++ [item])%list /\
     objects (store ls) !! Key item = None /\
     objects (store (step ls video)) = <[Key item := obj]> (objects (store ls)) /\
     itemStored (store (step ls video)) item /\
     VideoID item = ID video /\ ItemTitle item = Title video).
Proof.
  intros Hsound.
  destruct (step_result formatLess bucketName prefix client ls video) as (Hst & _ & Hres).
  pose proof (download_store formatLess (store ls) (obs ls) bucketName prefix client video
                Hsound) as [_ Hd].
  rewrite Hst, Hres.
  destruct (outcome (downloadYouTubeVideo formatLess (store ls) (obs ls) bucketName prefix
                       client video)) as [[item [|]]|text] eqn:Hout.
  - left. split; [reflexivity | exact Hd].
  - right.
    destruct (download_written formatLess (store ls) (obs ls) bucketName prefix client
                video item Hsound Hout)
      as (f & stream & hint & obj & _ & _ & Habs & Hobjs & Hmeta & Hct & _ & Htitle & Hid
          & Hsize).
    exists item, obj. split; [reflexivity|]. split; [exact Habs|]. split; [exact Hobjs|].
    split; [|split; [exact Hid | exact Htitle]].
    exists obj. rewrite Hobjs, lookup_insert_eq, Hmeta, uploadMetadata_id, Hid.
    repeat split; try assumption; try reflexivity.
    rewrite Hsize.
    destruct ((ObjSize obj =? 0) && (0 <? ContentLength (withSizeHint f hint))) eqn:E;
      [|left; reflexivity].
    right. apply andb_true_iff in E as [E _]. apply Z.eqb_eq, E.
  - left. split; [reflexivity | exact Hd].
Qed.

Lemma itemStored_objects (st st' : ObjectStore) (item : YouTubeImportedItem) :
  objects st' !! Key item = objects st !! Key item ->
  itemStored st item -> itemStored st' item.
Proof. intros E (obj & H & Hrest). exists obj. rewrite E. auto. Qed.

(** The items a run of the loop adds: their keys were free, their
    objects are in the bucket afterwards, and every other key holds what
    it held. *)
Lemma steps_frame (videos : list Video) :
  forall ls : LoopState,
    soundFaults (headFaults (store ls)) ->
    exists new,
      Items (result (steps videos ls)) = (Items (result ls) ++ new)%list /\
      Forall (fun item => objects (store ls) !! Key item = None) new /\
      Forall (itemStored (store (steps videos ls))) new /\
      (forall k, ~ In k (List.map Key new) ->
                 objects (store (steps videos ls)) !! k = objects (store ls) !! k).
Proof.
  induction videos as [|video rest IH]; intros ls Hsound.
  - exists []. cbn. rewrite app_nil_r. repeat split; constructor.
  - rewrite importSteps_cons.
    pose proof (step_store formatLess bucketName prefix client ls video Hsound)
      as (Hsound1 & _).
    destruct (IH (step ls video) Hsound1) as (new & Hitems & Hfree & Hstored & Hframe).
    destruct (step_frame ls video Hsound)
      as [(Hsame & Hobjs) | (item & obj & Hadd & Habs & Hobjs & Hitem & _)].
    + exists new. rewrite Hitems, Hsame. split; [reflexivity|].
      split; [|split; [exact Hstored|]].
      * rewrite <- Hobjs. exact Hfree.
      * intros k Hk. rewrite <- Hobjs. apply Hframe, Hk.
    + assert (Hkeys : Forall (fun y => Key item <> Key y /\
                                       objects (store ls) !! Key y = None) new).
      { eapply Forall_impl; [exact Hfree|]. intros y Hy. cbn beta in Hy.
        rewrite Hobjs in Hy. apply lookup_insert_None in Hy as [Hy Hne]. auto. }
      assert (Hnotin : ~ In (Key item) (List.map Key new)).
      { intros Hin. apply in_map_iff in Hin as (y & Hy & Hin).
        rewrite List.Forall_forall in Hkeys. destruct (Hkeys y Hin) as [Hne _]. auto. }
      exists (item :: new). rewrite Hitems, Hadd, <- app_assoc.
      split; [reflexivity|]. split; [|split].
      * constructor; [exact Habs|].
        eapply Forall_impl; [exact Hkeys|]. intros y [_ Hy]. exact Hy.
      * constructor; [|exact Hstored].
        apply (itemStored_objects (store (step ls video))); [|exact Hitem].
        apply Hframe, Hnotin.
      * intros k Hk. cbn [List.map In] in Hk.
        rewrite Hframe by tauto. rewrite Hobjs.
        apply lookup_insert_ne. tauto.
Qed.

End BatchFrame.

Section ImportFrame.

Variable formatLess : Format -> Format -> bool.

Lemma ImportYouTube_new_items (s : BucketService) (input : YouTubeImportInput)
    (st : ObjectStore) (ls : LoopState) :
  GetObjectStore s = inl st ->
  soundFaults (headFaults st) ->
  ImportYouTube formatLess s input = inl ls ->
  Forall (fun item => objects st !! Key item = None) (Items (result ls)) /\
  Forall (itemStored (store ls)) (Items (result ls)) /\
  (forall k, ~ In k (List.map Key (Items (result ls))) ->
             objects (store ls) !! k = objects st !! k).
Proof.
  intros Hst Hsound Hrun.
  destruct (ImportYouTube_inv formatLess s input ls Hrun)
    as (bucketName & st' & videos & kind & r0 & _ & Hst' & Hres & ->).
  rewrite Hst in Hst'. injection Hst' as <-.
  assert (Hempty : Items r0 = []).
  { destruct (resolveYouTubeVideos_inv _ _ _ _ _ Hres)
      as [(playlist & _ & _ & _ & _ & _ & _ & H) | (err & video & _ & _ & _ & _ & _ & ->)];
      [exact H | reflexivity]. }
  destruct (steps_frame formatLess bucketName
              (normalizeObjectPrefix (DestinationPrefix input)) (youtubeClient s) videos
              {| result := withKind r0 kind; store := st;
                 obs := {| clock := startClock s; emitted := [] |} |} Hsound)
    as (new & Hitems & Hfree & Hstored & Hframe).
  cbn [result store withKind Items] in Hitems, Hfree, Hframe.
  rewrite Hempty in Hitems. cbn [app] in Hitems. rewrite Hitems. auto.
Qed.

(** X11: when the store reports an absent object only for an absent
    object (no failing lookup has a text that [isNotFoundError]
    accepts), every item a batch reports as imported is in the bucket
    when the batch returns, under the key the item gives: the object
    carries the identifier of the item under the identity key and the
    content type of the item, and its size is the size the item reports,
    unless the upload counted no byte.  A lookup that fails with such a
    text is taken for a free key, and the upload then replaces what the
    key held. *)
Theorem ImportYouTube_items_stored
    (s : BucketService) (input : YouTubeImportInput) (st : ObjectStore) (ls : LoopState) :
  GetObjectStore s = inl st ->
  soundFaults (headFaults st) ->
  ImportYouTube formatLess s input = inl ls ->
  forall item, In item (Items (result ls)) ->
    exists obj,
      objects (store ls) !! Key item = Some obj /\
      Metadata obj !! youtubeVideoIDMetadataKey = Some (VideoID item) /\
      ObjContentType obj = ContentType item /\
      (SizeBytes item = ObjSize obj \/ ObjSize obj = 0).
Proof.
  intros Hst Hsound Hrun item Hin.
  destruct (ImportYouTube_new_items s input st ls Hst Hsound Hrun) as (_ & Hstored & _).
  rewrite List.Forall_forall in Hstored. exact (Hstored item Hin).
Qed.

(** X12: when the store reports an absent object only for an absent
    object (no failing lookup has a text that [isNotFoundError]
    accepts), a batch only adds to the bucket.  The keys of the imported
    items were free before the batch; every other key holds afterwards
    what it held before, so no object is overwritten or removed; and a
    batch that imports nothing leaves the bucket as it was. *)
Theorem ImportYouTube_frame
    (s : BucketService) (input : YouTubeImportInput) (st : ObjectStore) (ls : LoopState) :
  GetObjectStore s = inl st ->
  soundFaults (headFaults st) ->
  ImportYouTube formatLess s input = inl ls ->
  (forall item, In item (Items (result ls)) -> objects st !! Key item = None) /\
  (forall k, ~ In k (List.map Key (Items (result ls))) ->
             objects (store ls) !! k = objects st !! k) /\
  (forall k obj, objects st !! k = Some obj -> objects (store ls) !! k = Some obj) /\
  (Items (result ls) = [] -> objects (store ls) = objects st).
Proof.
  intros Hst Hsound Hrun.
  destruct (ImportYouTube_new_items s input st ls Hst Hsound Hrun) as (Hfree & _ & Hframe).
  rewrite List.Forall_forall in Hfree.
  split; [exact Hfree|]. split; [exact Hframe|]. split.
  - intros k obj Hk. rewrite Hframe; [exact Hk|].
    intros Hin. apply in_map_iff in Hin as (item & <- & Hin).
    rewrite (Hfree item Hin) in Hk. discriminate Hk.
  - intros Hnone. apply map_eq. intros k. apply Hframe. rewrite Hnone. intros [].
Qed.

End ImportFrame.

Lemma ImportYouTube_items_stored_witness :
  GetObjectStore batchService = inl emptyStore /\
  soundFaults (headFaults emptyStore) /\
  exists ls,
    ImportYouTube byBitrate batchService batchInput = inl ls /\
    List.map Key (Items (result ls)) = ["media/Same-Title.mp4"; "media/Same-Title-b2.mp4"] /\
    forall item, In item (Items (result ls)) ->
      exists obj,
        objects (store ls) !! Key item = Some obj /\
        Metadata obj !! youtubeVideoIDMetadataKey = Some (VideoID item) /\
        ObjContentType obj = ContentType item /\
        (SizeBytes item = ObjSize obj \/ ObjSize obj = 0).
Proof.
  assert (Hsound : soundFaults (headFaults emptyStore)) by constructor.
  split; [reflexivity|]. split; [exact Hsound|].
  eexists. split; [vm_compute; reflexivity|]. split; [reflexivity|].
  refine (ImportYouTube_items_stored byBitrate batchService batchInput emptyStore _
            eq_refl Hsound _).
  vm_compute; reflexivity.
Defined.

(** The unrelated object stays where it was: both videos go to their
    legacy keys. *)
Lemma ImportYouTube_frame_witness :
  GetObjectStore busyService = inl (storeWith "media/Same-Title.mp4" foreignObject) /\
  soundFaults (headFaults (storeWith "media/Same-Title.mp4" foreignObject)) /\
  exists ls,
    ImportYouTube byBitrate busyService batchInput = inl ls /\
    List.map Key (Items (result ls)) =
      ["media/Same-Title-a1.mp4"; "media/Same-Title-b2.mp4"] /\
    forall k obj,
      objects (storeWith "media/Same-Title.mp4" foreignObject) !! k = Some obj ->
      objects (store ls) !! k = Some obj.
Proof.
  assert (Hsound : soundFaults (headFaults (storeWith "media/Same-Title.mp4" foreignObject)))
    by constructor.
  split; [reflexivity|]. split; [exact Hsound|].
  eexists. split; [vm_compute; reflexivity|]. split; [reflexivity|].
  refine (proj1 (proj2 (proj2 (ImportYouTube_frame byBitrate busyService batchInput
                                 (storeWith "media/Same-Title.mp4" foreignObject) _
                                 eq_refl Hsound _)))).
  vm_compute; reflexivity.
Defined.

(* ===================================================================== *)
(** ** When [ImportYouTube] returns a result, and when an error *)
(* ===================================================================== *)

Section ImportFlow.

Variable formatLess : Format -> Format -> bool.

Lemma importLoop_returns (ctxErr : nat -> option string) (bucketName prefix : string)
    (client : Client) (videos : list Video) :
  forall (i : nat) (ls : LoopState),
    (forall j, (j < length videos)%nat -> ctxErr (i + j)%nat = None) ->
    importLoop formatLess ctxErr bucketName prefix client i videos ls =
    inl (importSteps formatLess bucketName prefix client videos ls).
Proof.
  induction videos as [|video rest IH]; intros i ls Hok; [reflexivity|].
  cbn [importLoop]. pose proof (Hok O) as H0. rewrite Nat.add_0_r in H0.
  rewrite H0 by (cbn; lia). rewrite importSteps_cons. apply IH.
  intros j Hj. replace (S i + j)%nat with (i + S j)%nat by lia. apply Hok. cbn. lia.
Qed.

Lemma importLoop_returned (ctxErr : nat -> option string) (bucketName prefix : string)
    (client : Client) (videos : list Video) :
  forall (i : nat) (ls ls' : LoopState),
    importLoop formatLess ctxErr bucketName prefix client i videos ls = inl ls' ->
    forall j, (j < length videos)%nat -> ctxErr (i + j)%nat = None.
Proof.
  induction videos as [|video rest IH]; intros i ls ls' Hrun j Hj; [cbn in Hj; lia|].
  cbn [importLoop] in Hrun. destruct (ctxErr i) as [text|] eqn:E; [discriminate Hrun|].
  destruct j as [|j]; [rewrite Nat.add_0_r; exact E|].
  replace (i + S j)%nat with (S i + j)%nat by lia.
  apply (IH (S i) _ ls' Hrun). cbn in Hj. lia.
Qed.

(** The loop returns the error of the first item boundary at which the
    context is found cancelled. *)
Lemma importLoop_cancelled (ctxErr : nat -> option string) (bucketName prefix : string)
    (client : Client) (videos : list Video) :
  forall (i k : nat) (ls : LoopState) (text : string),
    (k < length videos)%nat ->
    ctxErr (i + k)%nat = Some text ->
    (forall j, (j < k)%nat -> ctxErr (i + j)%nat = None) ->
    importLoop formatLess ctxErr bucketName prefix client i videos ls = inr text.
Proof.
  induction videos as [|video rest IH]; intros i k ls text Hk Hstop Hbefore;
    [cbn in Hk; lia|].
  cbn [importLoop]. destruct k as [|k].
  - rewrite Nat.add_0_r in Hstop. rewrite Hstop. reflexivity.
  - pose proof (Hbefore O) as H0. rewrite Nat.add_0_r in H0. rewrite H0 by lia.
    apply (IH (S i) k).
    + cbn in Hk. lia.
    + replace (S i + k)%nat with (i + S k)%nat by lia. exact Hstop.
    + intros j Hj. replace (S i + j)%nat with (i + S j)%nat by lia. apply Hbefore. lia.
Qed.

(** X13: [ImportYouTube] returns a result exactly when the reference is
    not blank, the bucket and its store are found, the reference
    resolves, and the context is not cancelled at the boundary of any of
    the resolved items.  No failure of an item is among the conditions:
    however many transfers fail, the call still returns its result. *)
Theorem ImportYouTube_returns_iff (s : BucketService) (input : YouTubeImportInput) :
  (exists ls, ImportYouTube formatLess s input = inl ls) <->
  TrimSpace (URL input) <> EmptyString /\
  (exists bucketName, getBucketName s = inl bucketName) /\
  (exists st, GetObjectStore s = inl st) /\
  (exists videos kind r,
     resolveYouTubeVideos (youtubeClient s) (TrimSpace (URL input)) emptyResult =
       inl (videos, kind, r) /\
     forall i, (i < length videos)%nat -> ctxErr s i = None).
Proof.
  unfold ImportYouTube. fold emptyResult. split.
  - intros [ls Hrun].
    destruct (TrimSpace (URL input)) as [|c url] eqn:Eurl; [discriminate Hrun|].
    cbn [isEmpty] in Hrun.
    destruct (getBucketName s) as [bucketName|]; [|discriminate Hrun].
    destruct (GetObjectStore s) as [st|]; [|discriminate Hrun].
    destruct (resolveYouTubeVideos (youtubeClient s) (String c url) emptyResult)
      as [[[videos kind] r]|] eqn:Eres; [|discriminate Hrun].
    split; [discriminate|]. split; [eauto|]. split; [eauto|].
    exists videos, kind, r. split; [reflexivity|].
    intros i Hi. exact (importLoop_returned _ _ _ _ _ _ _ _ Hrun i Hi).
  - intros (Hurl & (bucketName & ->) & (st & ->) & (videos & kind & r & -> & Hok)).
    destruct (TrimSpace (URL input)) as [|c url]; [congruence|]. cbn [isEmpty].
    rewrite importLoop_returns by exact Hok. eauto.
Qed.

(** X14: a reference made of white space only is refused with the error
    [youtube url is required], whatever the state of the service:
    neither the bucket nor the client is consulted. *)
Theorem ImportYouTube_blank_url (s : BucketService) (input : YouTubeImportInput) :
  allSpaces (URL input) ->
  ImportYouTube formatLess s input = inr "youtube url is required".
Proof.
  intros Hblank. unfold ImportYouTube.
  rewrite (TrimSpace_allSpaces (URL input) Hblank). reflexivity.
Qed.

(** X15: when the context is found cancelled before an item of the
    batch, [ImportYouTube] returns the error the context gives at the
    first such item, in place of a result. *)
Theorem ImportYouTube_cancelled (s : BucketService) (input : YouTubeImportInput)
    (bucketName : string) (st : ObjectStore)
    (videos : list Video) (kind : string) (r : YouTubeImportResult)
    (i : nat) (text : string) :
  TrimSpace (URL input) <> EmptyString ->
  getBucketName s = inl bucketName ->
  GetObjectStore s = inl st ->
  resolveYouTubeVideos (youtubeClient s) (TrimSpace (URL input)) emptyResult =
    inl (videos, kind, r) ->
  (i < length videos)%nat ->
  ctxErr s i = Some text ->
  (forall j, (j < i)%nat -> ctxErr s j = None) ->
  ImportYouTube formatLess s input = inr text.
Proof.
  intros Hurl Hbucket Hstore Hres Hi Hstop Hbefore.
  unfold ImportYouTube. fold emptyResult.
  destruct (TrimSpace (URL input)) as [|c url]; [congruence|]. cbn [isEmpty].
  rewrite Hbucket, Hstore, Hres.
  apply (importLoop_cancelled _ _ _ _ _ O i); assumption.
Qed.

End ImportFlow.

Lemma ImportYouTube_blank_url_witness :
  allSpaces "  " /\
  ImportYouTube byBitrate batchService {| URL := "  "; DestinationPrefix := "media" |} =
  inr "youtube url is required".
Proof.
  assert (H : allSpaces "  ").
  { exists [" "; " "]. split; [|reflexivity].
    repeat constructor; cbn; tauto. }
  split; [exact H|].
  exact (ImportYouTube_blank_url byBitrate batchService
           {| URL := "  "; DestinationPrefix := "media" |} H).
Defined.

(** The playlist of five entries resolves to four videos; the context is
    cancelled before the third. *)
Lemma ImportYouTube_cancelled_witness :
  ctxErr cancelledService 2 = Some "context canceled" /\
  (forall j, (j < 2)%nat -> ctxErr cancelledService j = None) /\
  ImportYouTube byBitrate cancelledService batchInput = inr "context canceled".
Proof.
  assert (Hbefore : forall j, (j < 2)%nat -> ctxErr cancelledService j = None).
  { intros [|[|j]] Hj; [reflexivity | reflexivity | lia]. }
  split; [reflexivity|]. split; [exact Hbefore|].
  refine (ImportYouTube_cancelled byBitrate cancelledService batchInput "bucket" emptyStore
            [videoA; videoB; videoMute; videoA] "playlist" _ 2 "context canceled"
            _ eq_refl eq_refl _ _ eq_refl Hbefore).
  - vm_compute. discriminate.
  - vm_compute. reflexivity.
  - cbn. lia.
Defined.

(* ===================================================================== *)
(** ** The progress reporter as a wrapper of the stream *)
(* ===================================================================== *)

Lemma report_silent (force : bool) (p : progressReader) (o : Obs) :
  callback p = false -> report force p o = (p, o).
Proof. intros H. unfold report. rewrite H. reflexivity. Qed.

Lemma report_samples (force : bool) (p p' : progressReader) (o o' : Obs) :
  report force p o = (p', o') ->
  exists extra,
    emitted o' = (emitted o ++ extra)%list /\
    Forall (fun s => s = {| BytesRead := read p; TotalBytesExpected := total p |}) extra /\
    (callback p = false -> o' = o).
Proof.
  intros H. destruct (callback p) eqn:E.
  - destruct (report_effect _ _ _ _ _ H) as (_ & _ & _ & _ & [Hem | Hem]).
    + exists []. rewrite app_nil_r. split; [exact Hem|]. split; [constructor | discriminate].
    + eexists. split; [exact Hem|]. split; [repeat constructor | discriminate].
  - rewrite (report_silent force p o E) in H. injection H as <- <-.
    exists []. rewrite app_nil_r. split; [reflexivity|]. split; [constructor | reflexivity].
Qed.

(** One [Read], whatever the stream holds: the result and the stream are
    those of the wrapped [Read], and every sample emitted carries the
    count reached by this read. *)
Lemma progressReader_Read_core (p p' : progressReader) (o o' : Obs) (r : Z * ReadErr) :
  progressReader_Read p o = (r, p', o') ->
  r = fst (Stream_Read (rc p)) /\
  rc p' = snd (Stream_Read (rc p)) /\
  total p' = total p /\ callback p' = callback p /\
  read p' = (if 0 <? fst r then add64 (read p) (fst r) else read p) /\
  exists extra,
    emitted o' = (emitted o ++ extra)%list /\
    Forall (fun s => s = {| BytesRead := read p'; TotalBytesExpected := total p |}) extra /\
    (callback p = false -> o' = o).
Proof.
  unfold progressReader_Read.
  destruct (Stream_Read (rc p)) as [[n err] stream]. cbn [fst snd].
  set (p1 := {| rc := stream; total := total p; read := read p; lastBytes := lastBytes p;
                lastTime := lastTime p; callback := callback p |}).
  destruct (if 0 <? n then _ else (p1, o)) as [p2 o2] eqn:Hsoft.
  assert (H2 : rc p2 = stream /\ total p2 = total p /\ callback p2 = callback p /\
               read p2 = (if 0 <? n then add64 (read p) n else read p) /\
               exists e2, emitted o2 = (emitted o ++ e2)%list /\
                 Forall (fun s => s = {| BytesRead := read p2;
                                         TotalBytesExpected := total p |}) e2 /\
                 (callback p = false -> o2 = o)).
  { destruct (0 <? n).
    - pose proof (report_effect _ _ _ _ _ Hsoft) as (Hrc & Htot & Hread & Hcb & _).
      apply report_samples in Hsoft. cbn in Hrc, Htot, Hread, Hcb, Hsoft.
      rewrite Hread. auto.
    - injection Hsoft as <- <-. repeat split.
      exists []. rewrite app_nil_r. repeat split; auto. }
  destruct H2 as (Hrc & Htot & Hcb & Hread & e2 & He2 & Hall2 & Hsil2).
  destruct (match err with ErrEOF => report true p2 o2 | _ => (p2, o2) end)
    as [p3 o3] eqn:Hforce.
  intros [= <- <- <-]. cbn [fst].
  assert (H3 : rc p3 = rc p2 /\ total p3 = total p2 /\ callback p3 = callback p2 /\
               read p3 = read p2 /\
               exists e3, emitted o3 = (emitted o2 ++ e3)%list /\
                 Forall (fun s => s = {| BytesRead := read p2;
                                         TotalBytesExpected := total p2 |}) e3 /\
                 (callback p2 = false -> o3 = o2)).
  { assert (Hsame : (p3, o3) = (p2, o2) -> rc p3 = rc p2 /\ total p3 = total p2 /\
              callback p3 = callback p2 /\ read p3 = read p2 /\
              exists e3, emitted o3 = (emitted o2 ++ e3)%list /\
                Forall (fun s => s = {| BytesRead := read p2;
                                        TotalBytesExpected := total p2 |}) e3 /\
                (callback p2 = false -> o3 = o2)).
    { intros [= -> ->]. repeat split. exists []. rewrite app_nil_r. repeat split; auto. }
    destruct err; [apply Hsame; congruence | | apply Hsame; congruence].
    pose proof (report_effect _ _ _ _ _ Hforce) as (H1 & H4 & H5 & H6 & _).
    apply report_samples in Hforce. auto. }
  destruct H3 as (Hrc3 & Htot3 & Hcb3 & Hread3 & e3 & He3 & Hall3 & Hsil3).
  rewrite Hrc3, Hrc, Htot3, Htot, Hcb3, Hcb, Hread3, Hread.
  repeat split.
  exists (e2 ++ e3)%list. rewrite He3, He2, <- app_assoc. split; [reflexivity|].
  split.
  - apply Forall_app. rewrite <- Hread. rewrite Htot in Hall3. auto.
  - intros E. rewrite Hsil3 by congruence. auto.
Qed.

Lemma StronglySorted_app {A : Type} (R : A -> A -> Prop) (l1 l2 : list A) :
  StronglySorted R l1 -> StronglySorted R l2 ->
  (forall x y, In x l1 -> In y l2 -> R x y) ->
  StronglySorted R (l1 ++ l2)%list.
Proof.
  induction 1 as [|x l1 Hs IH Hx]; intros H2 Hcross; [exact H2|].
  cbn [app]. constructor.
  - apply IH; [exact H2|]. intros a b Ha Hb. apply Hcross; [right; exact Ha | exact Hb].
  - apply List.Forall_forall. intros y Hy. apply in_app_or in Hy as [Hy|Hy].
    + rewrite List.Forall_forall in Hx. exact (Hx y Hy).
    + apply Hcross; [left; reflexivity | exact Hy].
Qed.

Lemma StronglySorted_const (v : Z) (l : list Z) :
  Forall (fun x => x = v) l -> StronglySorted Z.le l.
Proof.
  induction 1 as [|x l Hx Hl IH]; constructor; [exact IH|].
  eapply Forall_impl; [exact Hl|]. intros y Hy. cbn beta in Hy. lia.
Qed.

(** A run of reads that does not overflow the count: the samples come
    in non-decreasing order, between the count before the run and the
    count after it. *)
Lemma readTimes_samples (pre : list (Z * ReadErr)) :
  forall (p : progressReader) (o : Obs) (rest : list (Z * ReadErr)),
    pending (rc p) = (pre ++ rest)%list ->
    0 <= read p ->
    read p + streamBytes pre <= max_int64 ->
    exists extra,
      emitted (snd (readTimes (length pre) p o)) = (emitted o ++ extra)%list /\
      StronglySorted Z.le (List.map BytesRead extra) /\
      Forall (fun s => read p <= BytesRead s <= read p + streamBytes pre /\
                       TotalBytesExpected s = total p) extra.
Proof.
  induction pre as [|[n e] pre IH]; intros p o rest Hpend Hpos Hmax.
  - exists []. cbn. rewrite app_nil_r. repeat split; constructor.
  - cbn [length readTimes].
    destruct (progressReader_Read p o) as [[r p1] o1] eqn:Hr.
    destruct (progressReader_Read_core _ _ _ _ _ Hr)
      as (Hres & Hrc1 & Htot1 & _ & Hread1 & e1 & He1 & Hall1 & _).
    unfold Stream_Read in Hres, Hrc1. rewrite Hpend in Hres, Hrc1.
    cbn in Hres, Hrc1. subst r. cbn [fst] in Hread1.
    pose proof (streamBytes_nonneg pre) as Hnn.
    cbn [streamBytes] in Hmax.
    assert (Hread1' : read p1 = read p + (if 0 <? n then n else 0)).
    { rewrite Hread1. destruct (0 <? n) eqn:En; [|lia].
      apply Z.ltb_lt in En. unfold add64. apply wrap64_small.
      unfold min_int64, max_int64 in *. rewrite pow63 in *. lia. }
    assert (Hstep : read p <= read p1 /\ read p1 + streamBytes pre <= max_int64).
    { rewrite Hread1'. destruct (0 <? n) eqn:En; [apply Z.ltb_lt in En|]; lia. }
    destruct (IH p1 o1 rest) as (e2 & He2 & Hsorted2 & Hall2);
      [rewrite Hrc1; reflexivity | lia | tauto |].
    destruct (readTimes (length pre) p1 o1) as [[rs p2] o2]. cbn [snd] in He2 |- *.
    exists (e1 ++ e2)%list. rewrite He2, He1, <- app_assoc. split; [reflexivity|].
    assert (Hconst : Forall (fun x => x = read p1) (List.map BytesRead e1)).
    { apply List.Forall_forall. intros x Hx. apply in_map_iff in Hx as (s & <- & Hs).
      rewrite List.Forall_forall in Hall1. rewrite (Hall1 s Hs). reflexivity. }
    split.
    + rewrite map_app. apply StronglySorted_app.
      * apply (StronglySorted_const (read p1)), Hconst.
      * exact Hsorted2.
      * intros x y Hx Hy. rewrite List.Forall_forall in Hconst. rewrite (Hconst x Hx).
        apply in_map_iff in Hy as (s & <- & Hs).
        rewrite List.Forall_forall in Hall2. destruct (Hall2 s Hs) as [[Hlo _] _].
        exact Hlo.
    + apply Forall_app. split.
      * eapply Forall_impl; [exact Hall1|]. intros s ->. cbn [BytesRead TotalBytesExpected].
        cbn [streamBytes]. split; [|reflexivity].
        rewrite Hread1' in *. destruct (0 <? n); lia.
      * eapply Forall_impl; [exact Hall2|]. intros s [[Hlo Hhi] Ht]. cbn beta.
        cbn [streamBytes]. rewrite Htot1 in Ht. split; [|exact Ht].
        rewrite Hread1' in *. destruct (0 <? n); lia.
Qed.

Lemma readTimes_core (k : nat) :
  forall (p q : progressReader) (o o' : Obs),
    rc p = rc q -> read p = read q ->
    fst (fst (readTimes k p o)) = fst (fst (readTimes k q o')) /\
    rc (snd (fst (readTimes k p o))) = rc (snd (fst (readTimes k q o'))) /\
    read (snd (fst (readTimes k p o))) = read (snd (fst (readTimes k q o'))) /\
    (callback p = false -> snd (readTimes k p o) = o).
Proof.
  induction k as [|k IH]; intros p q o o' Hrc Hread; [cbn; auto|].
  cbn [readTimes].
  destruct (progressReader_Read p o) as [[r1 p1] o1] eqn:Hp.
  destruct (progressReader_Read q o') as [[r2 q1] o1'] eqn:Hq.
  destruct (progressReader_Read_core _ _ _ _ _ Hp)
    as (Hr1 & Hrc1 & _ & Hcb1 & Hread1 & _ & _ & _ & Hsil1).
  destruct (progressReader_Read_core _ _ _ _ _ Hq)
    as (Hr2 & Hrc2 & _ & _ & Hread2 & _).
  assert (Hr : r1 = r2) by (rewrite Hr1, Hr2, Hrc; reflexivity).
  assert (Hrc' : rc p1 = rc q1) by (rewrite Hrc1, Hrc2, Hrc; reflexivity).
  assert (Hread' : read p1 = read q1) by (rewrite Hread1, Hread2, Hr, Hread; reflexivity).
  destruct (IH p1 q1 o1 o1' Hrc' Hread') as (Hres & Hrcs & Hreads & Hsil).
  destruct (readTimes k p1 o1) as [[rs1 p2] o2].
  destruct (readTimes k q1 o1') as [[rs2 q2] o2'].
  cbn [fst snd] in *. repeat split; try assumption.
  - rewrite Hr, Hres. reflexivity.
  - intros E. rewrite Hsil by congruence. auto.
Qed.

Lemma timeNow_emitted (o : Obs) : emitted (snd (timeNow o)) = emitted o.
Proof. unfold timeNow. destruct (clock o); reflexivity. Qed.

Lemma newProgressReader_fresh (stream : Stream) (expected : Z) (cb : bool) (o : Obs) :
  let start := newProgressReader stream expected cb o in
  rc (fst start) = stream /\ read (fst start) = 0 /\ total (fst start) = expected /\
  callback (fst start) = cb /\ emitted (snd start) = emitted o.
Proof.
  cbv zeta. unfold newProgressReader.
  pose proof (timeNow_emitted o) as H. destruct (timeNow o) as [now o1].
  cbn in *. auto.
Qed.

(** X16: the reporter is a transparent wrapper of the stream.  What the
    reads return and the number of bytes counted do not depend on the
    callback, on the announced total or on the clock; and a reporter
    without a callback emits nothing and never consults the clock after
    its creation. *)
Theorem progressReader_transparent
    (k : nat) (stream : Stream) (expected expected' : Z) (cb cb' : bool) (o o' : Obs) :
  let a := newProgressReader stream expected cb o in
  let b := newProgressReader stream expected' cb' o' in
  fst (fst (readTimes k (fst a) (snd a))) = fst (fst (readTimes k (fst b) (snd b))) /\
  progressReader_BytesRead (snd (fst (readTimes k (fst a) (snd a)))) =
    progressReader_BytesRead (snd (fst (readTimes k (fst b) (snd b)))) /\
  (cb = false ->
   snd (readTimes k (fst a) (snd a)) = snd a /\
   emitted (snd (readTimes k (fst a) (snd a))) = emitted o).
Proof.
  intros a b.
  destruct (newProgressReader_fresh stream expected cb o) as (Hrc & Hread & _ & Hcb & Hem).
  destruct (newProgressReader_fresh stream expected' cb' o') as (Hrc' & Hread' & _).
  fold a in Hrc, Hread, Hcb, Hem. fold b in Hrc', Hread'.
  destruct (readTimes_core k (fst a) (fst b) (snd a) (snd b)) as (H1 & _ & H2 & H3);
    [congruence | congruence |].
  split; [exact H1|]. split; [exact H2|].
  intros ->. rewrite (H3 Hcb). auto.
Qed.

(** X17: progress never goes backwards.  While the count of bytes does
    not overflow, the samples the reporter emits carry counts in
    non-decreasing order, each between zero and the number of bytes the
    reads delivered, and each with the total announced at creation. *)
Theorem progressReader_samples_monotone
    (stream : Stream) (expected : Z) (cb : bool) (o : Obs)
    (pre rest : list (Z * ReadErr)) :
  pending stream = (pre ++ rest)%list ->
  streamBytes pre <= max_int64 ->
  let start := newProgressReader stream expected cb o in
  exists samples,
    emitted (snd (readTimes (length pre) (fst start) (snd start))) =
      (emitted o ++ samples)%list /\
    StronglySorted Z.le (List.map BytesRead samples) /\
    Forall (fun s => 0 <= BytesRead s <= streamBytes pre /\
                     TotalBytesExpected s = expected) samples.
Proof.
  intros Hpend Hmax start.
  destruct (newProgressReader_fresh stream expected cb o) as (Hrc & Hread & Htot & _ & Hem).
  fold start in Hrc, Hread, Htot, Hem.
  destruct (readTimes_samples pre (fst start) (snd start) rest)
    as (samples & Hsamples & Hsorted & Hall).
  - rewrite Hrc. exact Hpend.
  - rewrite Hread. lia.
  - rewrite Hread. exact Hmax.
  - exists samples. rewrite Hsamples, Hem. split; [reflexivity|]. split; [exact Hsorted|].
    rewrite Hread, Htot in Hall. exact Hall.
Qed.

Lemma progressReader_samples_monotone_witness :
  pending bodyThreeReads = (pending bodyThreeReads ++ [])%list /\
  streamBytes (pending bodyThreeReads) <= max_int64 /\
  exists samples,
    emitted (snd (readTimes 3 (fst (newProgressReader bodyThreeReads 1000 true slowClock))
                    (snd (newProgressReader bodyThreeReads 1000 true slowClock)))) =
      (emitted slowClock ++ samples)%list /\
    StronglySorted Z.le (List.map BytesRead samples).
Proof.
  assert (Hmax : streamBytes (pending bodyThreeReads) <= max_int64)
    by (vm_compute; discriminate).
  split; [reflexivity|]. split; [exact Hmax|].
  destruct (progressReader_samples_monotone bodyThreeReads 1000 true slowClock
              (pending bodyThreeReads) [] eq_refl Hmax) as (samples & H1 & H2 & _).
  exists samples. split; [exact H1 | exact H2].
Defined.

(** A report that is not forced either emits nothing and keeps the time
    of the last sample, or emits one sample at least half a second
    after the last. *)
Lemma report_spaced (p p' : progressReader) (o o' : Obs) :
  report false p o = (p', o') ->
  rc p' = rc p /\
  ((emitted o' = emitted o /\ lastTime p' = lastTime p) \/
   (exists s, emitted o' = (emitted o ++ [s])%list /\
              halfSecond <= lastTime p' - lastTime p)).
Proof.
  unfold report. destruct (callback p); cbn [negb].
  2: { intros [= <- <-]. auto. }
  pose proof (timeNow_emitted o) as Hem.
  destruct (timeNow o) as [now o1]. cbn [snd] in Hem. cbn [negb andb].
  destruct (now - lastTime p <? halfSecond) eqn:E.
  - intros [= <- <-]. auto.
  - intros [= <- <-]. cbn [rc lastTime emitted]. split; [reflexivity|]. right.
    rewrite Hem. apply Z.ltb_ge in E. eauto.
Qed.

Lemma readTimes_spaced (pre : list (Z * ReadErr)) :
  forall (p : progressReader) (o : Obs) (rest : list (Z * ReadErr)),
    pending (rc p) = (pre ++ rest)%list ->
    Forall (fun r => snd r <> ErrEOF) pre ->
    exists samples,
      emitted (snd (readTimes (length pre) p o)) = (emitted o ++ samples)%list /\
      halfSecond * Z.of_nat (length samples) <=
        lastTime (snd (fst (readTimes (length pre) p o))) - lastTime p.
Proof.
  induction pre as [|[n e] pre IH]; intros p o rest Hpend Hno.
  - exists []. cbn. rewrite app_nil_r. split; [reflexivity | lia].
  - inversion Hno as [|? ? He Hrest]; subst. cbn [snd] in He.
    cbn [length readTimes].
    destruct (progressReader_Read p o) as [[r p1] o1] eqn:Hr.
    assert (H1 : pending (rc p1) = (pre ++ rest)%list /\
                 ((emitted o1 = emitted o /\ lastTime p1 = lastTime p) \/
                  (exists s, emitted o1 = (emitted o ++ [s])%list /\
                             halfSecond <= lastTime p1 - lastTime p))).
    { unfold progressReader_Read, Stream_Read in Hr. rewrite Hpend in Hr.
      cbn [app] in Hr.
      set (p0 := {| rc := {| pending := (pre ++ rest)%list; closeCalls := closeCalls (rc p) |};
                    total := total p; read := read p; lastBytes := lastBytes p;
                    lastTime := lastTime p; callback := callback p |}) in Hr.
      destruct (if 0 <? n then _ else (p0, o)) as [p2 o2] eqn:Hsoft.
      assert (H2 : rc p2 = rc p0 /\
                   ((emitted o2 = emitted o /\ lastTime p2 = lastTime p) \/
                    (exists s, emitted o2 = (emitted o ++ [s])%list /\
                               halfSecond <= lastTime p2 - lastTime p))).
      { destruct (0 <? n).
        - apply report_spaced in Hsoft. exact Hsoft.
        - injection Hsoft as <- <-. auto. }
      destruct e; try congruence; injection Hr as _ <- <-;
        destruct H2 as [-> H2]; (split; [reflexivity | exact H2]). }
    destruct H1 as [Hpend1 Hstep].
    destruct (IH p1 o1 rest Hpend1 Hrest) as (samples & Hsamples & Hbound).
    destruct (readTimes (length pre) p1 o1) as [[rs p2] o2]. cbn [fst snd] in *.
    destruct Hstep as [[Hem Ht] | (s & Hem & Ht)].
    + exists samples. rewrite Hsamples, Hem. split; [reflexivity | lia].
    + exists (s :: samples). rewrite Hsamples, Hem, <- app_assoc.
      split; [reflexivity|]. cbn [length]. lia.
Qed.

(** X24: the reporter is throttled.  Over a run of reads none of which
    meets the end of the stream, each sample needs half a second of
    clock time of its own: the number of samples emitted, times half a
    second, is at most the time from the creation of the reporter to
    its last sample. *)
Theorem progressReader_throttle
    (stream : Stream) (expected : Z) (cb : bool) (o : Obs)
    (pre rest : list (Z * ReadErr)) :
  pending stream = (pre ++ rest)%list ->
  Forall (fun r => snd r <> ErrEOF) pre ->
  let start := newProgressReader stream expected cb o in
  let run := readTimes (length pre) (fst start) (snd start) in
  exists samples,
    emitted (snd run) = (emitted o ++ samples)%list /\
    halfSecond * Z.of_nat (length samples) <=
      lastTime (snd (fst run)) - fst (timeNow o).
Proof.
  intros Hpend Hno start run.
  destruct (newProgressReader_fresh stream expected cb o) as (Hrc & _ & _ & _ & Hem).
  fold start in Hrc, Hem.
  assert (Ht : lastTime (fst start) = fst (timeNow o)).
  { subst start. unfold newProgressReader. destruct (timeNow o); reflexivity. }
  destruct (readTimes_spaced pre (fst start) (snd start) rest) as (samples & Hs & Hb).
  - rewrite Hrc. exact Hpend.
  - exact Hno.
  - exists samples. subst run. rewrite Hs, Hem, <- Ht. auto.
Qed.

(** Two reads 0.6 s and 0.7 s after the creation: one sample. *)
Lemma progressReader_throttle_witness :
  pending bodyThreeReads = ([(400, ErrNil); (300, ErrNil)] ++ [(300, ErrEOF)])%list /\
  Forall (fun r : Z * ReadErr => snd r <> ErrEOF) [(400, ErrNil); (300, ErrNil)] /\
  emitted (snd (readTimes 2 (fst (newProgressReader bodyThreeReads 1000 true slowClock))
                  (snd (newProgressReader bodyThreeReads 1000 true slowClock)))) =
    [{| BytesRead := 400; TotalBytesExpected := 1000 |}] /\
  exists samples,
    emitted (snd (readTimes 2 (fst (newProgressReader bodyThreeReads 1000 true slowClock))
                    (snd (newProgressReader bodyThreeReads 1000 true slowClock)))) =
      (emitted slowClock ++ samples)%list /\
    halfSecond * Z.of_nat (length samples) <=
      lastTime (snd (fst (readTimes 2
                            (fst (newProgressReader bodyThreeReads 1000 true slowClock))
                            (snd (newProgressReader bodyThreeReads 1000 true slowClock)))))
      - fst (timeNow slowClock).
Proof.
  assert (Hno : Forall (fun r : Z * ReadErr => snd r <> ErrEOF)
                  [(400, ErrNil); (300, ErrNil)])
    by (repeat constructor; discriminate).
  split; [reflexivity|]. split; [exact Hno|]. split; [reflexivity|].
  exact (progressReader_throttle bodyThreeReads 1000 true slowClock
           [(400, ErrNil); (300, ErrNil)] [(300, ErrEOF)] eq_refl Hno).
Defined.

(* ===================================================================== *)
(** ** Running a batch again *)
(* ===================================================================== *)

Lemma noFaults_sound (faults : list (option string)) : noFaults faults -> soundFaults faults.
Proof.
  unfold noFaults, soundFaults. intros H. eapply Forall_impl; [exact H|].
  intros f -> text [=].
Qed.

Lemma noFaults_next (faults : list (option string)) :
  noFaults faults -> nextFault faults = None /\ noFaults (tl faults).
Proof.
  intros H. destruct H as [|f faults Hf H]; [split; [reflexivity | constructor]|].
  subst f. split; [reflexivity | exact H].
Qed.

Lemma transferDecision_skip (h1 h2 : gmap string string + string)
    (videoID pk lk key : string) :
  transferDecision h1 h2 videoID pk lk = Skip key ->
  (exists metadata, h1 = inl metadata /\
                    metadataMatchesYouTubeVideo metadata videoID = true /\ key = pk) \/
  (exists metadata, h2 = inl metadata /\ key = lk).
Proof.
  unfold transferDecision. cbv zeta. intros H.
  assert (Hafter : forall b : bool,
             match h2 with
             | inl _ => Skip lk
             | inr text => if negb (isNotFoundText text) then Fail text
                           else Write (if b then lk else pk)
             end = Skip key ->
             exists metadata, h2 = inl metadata /\ key = lk).
  { intros b Hb. destruct h2 as [m|text]; [injection Hb as <-; eauto|].
    destruct (negb (isNotFoundText text)); discriminate Hb. }
  destruct h1 as [m|text].
  - destruct (metadataMatchesYouTubeVideo m videoID) eqn:E.
    + injection H as <-. left. eauto.
    + right. exact (Hafter true H).
  - destruct (negb (isNotFoundText text)); [discriminate H|].
    right. exact (Hafter false H).
Qed.

Section Twice.

Variable formatLess : Format -> Format -> bool.
Variables bucketName prefix : string.
Variable client : Client.

Local Abbreviation step := (importStep formatLess bucketName prefix client).
Local Abbreviation steps := (importSteps formatLess bucketName prefix client).
Local Abbreviation held := (alreadyImported formatLess client prefix).

(** A bucket that only grows keeps holding what it held. *)
Lemma alreadyImported_mono (objs objs' : gmap string StoredObject) (video : Video) :
  (forall k obj, objs !! k = Some obj -> objs' !! k = Some obj) ->
  held objs video = true -> held objs' video = true.
Proof.
  intros Hgrow. unfold alreadyImported.
  destruct (selectYouTubeFormat formatLess video) as [f|]; [|discriminate].
  destruct (GetStreamContext client video f) as [[stream hint]|]; [|discriminate].
  cbv zeta. intros [H|H]%orb_true_iff; apply orb_true_iff.
  - left. destruct (objs !! primaryKeyOf prefix video (withSizeHint f hint)) as [obj|] eqn:E;
      [|discriminate H].
    rewrite (Hgrow _ _ E). exact H.
  - right. apply bool_decide_eq_true in H as [obj E].
    apply bool_decide_eq_true. rewrite (Hgrow _ _ E). eauto.
Qed.

(** After the transfer of a video with an identifier, the bucket holds
    the video, unless the transfer failed. *)
Lemma download_holds (st : ObjectStore) (o : Obs) (video : Video)
    (item : YouTubeImportedItem) (skipped : bool) :
  soundFaults (headFaults st) ->
  ID video <> EmptyString ->
  outcome (downloadYouTubeVideo formatLess st o bucketName prefix client video) =
    inl (item, skipped) ->
  held (objects (storeAfter (downloadYouTubeVideo formatLess st o bucketName prefix client
                               video))) video = true.
Proof.
  intros Hsound Hid Hout.
  destruct (download_imported_open formatLess _ _ _ _ _ _ _ _ Hout)
    as (f & stream & hint & Ef & Es).
  unfold alreadyImported. rewrite Ef, Es. cbv zeta.
  set (pk := primaryKeyOf prefix video (withSizeHint f hint)).
  set (lk := legacyKeyOf prefix video (withSizeHint f hint)).
  apply orb_true_iff.
  destruct skipped.
  - pose proof (download_decision formatLess st o bucketName prefix client video
                  f stream hint Ef Es) as D. cbv zeta in D. fold pk lk in D.
    destruct (transferDecision _ _ (ID video) pk lk) as [text|key|key] eqn:Hdec.
    + destruct D as (D & _). rewrite Hout in D. discriminate D.
    + destruct D as (_ & Hobjs & _). rewrite Hobjs.
      destruct (transferDecision_skip _ _ _ _ _ _ Hdec)
        as [(m & Hh1 & Hm & _) | (m & Hh2 & _)].
      * left. apply HeadObject_found in Hh1 as (obj & -> & ->). exact Hm.
      * right. apply HeadObject_found in Hh2 as (obj & Hobj & _).
        rewrite HeadObject_objects in Hobj. apply bool_decide_eq_true. eauto.
    + destruct D as (p0 & o0 & putErr & st3 & p3 & _ & _ & _ & _ & D).
      rewrite Hout in D. destruct putErr; discriminate D.
  - destruct (download_written formatLess st o bucketName prefix client video item
                Hsound Hout)
      as (f' & stream' & hint' & obj & Ef' & Es' & _ & Hobjs & Hmeta & _).
    rewrite Ef in Ef'. injection Ef' as <-. rewrite Es in Es'. injection Es' as <- <-.
    pose proof (download_imported_inv formatLess st o bucketName prefix client video
                  f stream hint item Ef Es Hout) as Hdec. cbv zeta in Hdec.
    fold pk lk in Hdec. rewrite Hobjs.
    destruct (transferDecision_write _ _ _ _ _ _ Hdec)
      as [(text & _ & _ & ->) | (m & _ & ->)].
    + left. rewrite lookup_insert_eq, Hmeta. apply uploadMetadata_matches. auto.
    + right. rewrite lookup_insert_eq. apply bool_decide_eq_true. eauto.
Qed.

(** The faults still to come after a transfer are a tail of those
    before it. *)
Lemma download_headFaults (st : ObjectStore) (o : Obs) (video : Video) :
  exists n, headFaults (storeAfter (downloadYouTubeVideo formatLess st o bucketName prefix
                                      client video)) = List.skipn n (headFaults st).
Proof.
  destruct (selectYouTubeFormat formatLess video) as [f|text] eqn:Ef.
  2: { rewrite (download_no_format formatLess st o bucketName prefix client video text Ef).
       exists O. reflexivity. }
  destruct (GetStreamContext client video f) as [[stream hint]|err] eqn:Es.
  2: { rewrite (download_no_stream formatLess st o bucketName prefix client video f err
                  Ef Es).
       exists O. reflexivity. }
  pose proof (download_decision formatLess st o bucketName prefix client video
                f stream hint Ef Es) as D. cbv zeta in D.
  set (st1 := snd (HeadObject st bucketName (primaryKeyOf prefix video (withSizeHint f hint))))
    in *.
  set (st2 := snd (HeadObject st1 bucketName (legacyKeyOf prefix video (withSizeHint f hint))))
    in *.
  assert (H1 : headFaults st1 = List.skipn 1 (headFaults st)).
  { subst st1. rewrite HeadObject_store. cbn [headFaults]. destruct (headFaults st); reflexivity. }
  assert (H2 : headFaults st2 = List.skipn 2 (headFaults st)).
  { subst st2. rewrite HeadObject_store. cbn [headFaults]. rewrite H1.
    destruct (headFaults st) as [|a [|b l]]; reflexivity. }
  destruct (transferDecision _ _ _ _ _) as [text|key|key].
  - destruct D as (_ & _ & _ & _ & [-> | ->]); eauto.
  - destruct D as (_ & _ & _ & _ & [-> | ->]); eauto.
  - destruct D as (p0 & o0 & putErr & st3 & p3 & _ & Hput & -> & _).
    apply PutObject_effect in Hput as (Hf & _). exists 2%nat. rewrite Hf. exact H2.
Qed.

Lemma step_noFaults (ls : LoopState) (video : Video) :
  noFaults (headFaults (store ls)) -> noFaults (headFaults (store (step ls video))).
Proof.
  intros H. destruct (step_result formatLess bucketName prefix client ls video) as (-> & _).
  destruct (download_headFaults (store ls) (obs ls) video) as [n ->].
  unfold noFaults in *. rewrite List.Forall_forall in *.
  intros f Hf. apply H. revert Hf. clear.
  revert n. induction (headFaults (store ls)) as [|a l IH]; intros [|n] Hf; cbn in Hf;
    try (exact Hf). right. exact (IH n Hf).
Qed.

(** A video the bucket holds is skipped, when the two lookups answer. *)
Lemma step_skips_held (ls : LoopState) (video : Video) :
  noFaults (headFaults (store ls)) ->
  held (objects (store ls)) video = true ->
  Items (result (step ls video)) = Items (result ls) /\
  Imported (result (step ls video)) = Imported (result ls) /\
  objects (store (step ls video)) = objects (store ls).
Proof.
  intros Hnf Hheld.
  destruct (step_result formatLess bucketName prefix client ls video) as (Hst & _ & Hres).
  rewrite Hst, Hres. clear Hst Hres.
  unfold alreadyImported in Hheld.
  destruct (selectYouTubeFormat formatLess video) as [f|] eqn:Ef; [|discriminate Hheld].
  destruct (GetStreamContext client video f) as [[stream hint]|] eqn:Es;
    [|discriminate Hheld].
  cbv zeta in Hheld.
  pose proof (download_decision formatLess (store ls) (obs ls) bucketName prefix client
                video f stream hint Ef Es) as D. cbv zeta in D.
  destruct (noFaults_next _ Hnf) as [Hf1 Hnf1].
  destruct (noFaults_next _ Hnf1) as [Hf2 _].
  rewrite (transferDecision_amended (store ls) bucketName (ID video) _ _ Hf1 Hf2) in D.
  set (pk := primaryKeyOf prefix video (withSizeHint f hint)) in *.
  set (lk := legacyKeyOf prefix video (withSizeHint f hint)) in *.
  assert (Hskip : exists key, amendedDecision (objects (store ls)) (ID video) pk lk = Skip key).
  { unfold amendedDecision.
    destruct (objects (store ls) !! pk) as [obj|].
    - rewrite <- metadataMatches_tags.
      destruct (metadataMatchesYouTubeVideo (Metadata obj) (ID video)); [eauto|].
      cbn [orb] in Hheld. rewrite Hheld. eauto.
    - cbn [orb] in Hheld. rewrite Hheld. eauto. }
  destruct Hskip as [key Hskip]. rewrite Hskip in D.
  destruct D as (Hout & Hobjs & _). rewrite Hout. auto.
Qed.

(** The items a run adds when no lookup fails come from videos the
    bucket did not hold at the start. *)
Lemma steps_new_from_missing (videos : list Video) :
  forall ls : LoopState,
    noFaults (headFaults (store ls)) ->
    exists new,
      Items (result (steps videos ls)) = (Items (result ls) ++ new)%list /\
      Forall (fun item =>
                exists video, In video videos /\
                  held (objects (store ls)) video = false /\
                  VideoID item = ID video /\ ItemTitle item = Title video) new.
Proof.
  induction videos as [|video rest IH]; intros ls Hnf.
  - exists []. cbn. rewrite app_nil_r. split; [reflexivity | constructor].
  - rewrite importSteps_cons.
    destruct (IH (step ls video) (step_noFaults ls video Hnf)) as (new & Hitems & Hnew).
    assert (Hlift : forall objs',
               (forall k obj, objects (store ls) !! k = Some obj -> objs' !! k = Some obj) ->
               objects (store (step ls video)) = objs' ->
               Forall (fun item =>
                         exists v, In v (video :: rest) /\
                           held (objects (store ls)) v = false /\
                           VideoID item = ID v /\ ItemTitle item = Title v) new).
    { intros objs' Hgrow Heq. eapply Forall_impl; [exact Hnew|].
      intros item (v & Hin & Hmiss & Hrec). exists v. split; [right; exact Hin|].
      split; [|exact Hrec].
      destruct (held (objects (store ls)) v) eqn:E; [|reflexivity].
      rewrite Heq in Hmiss. rewrite (alreadyImported_mono _ objs' v Hgrow E) in Hmiss.
      discriminate Hmiss. }
    destruct (step_frame formatLess bucketName prefix client ls video (noFaults_sound _ Hnf))
      as [(Hsame & Hobjs) | (item & obj & Hadd & Habs & Hobjs & _ & Hid & Htitle)].
    + exists new. rewrite Hitems, Hsame. split; [reflexivity|].
      apply (Hlift (objects (store ls))); [auto | exact Hobjs].
    + exists (item :: new). rewrite Hitems, Hadd, <- app_assoc. split; [reflexivity|].
      constructor.
      * exists video. split; [left; reflexivity|]. split; [|auto].
        destruct (held (objects (store ls)) video) eqn:E; [|reflexivity].
        destruct (step_skips_held ls video Hnf E) as (Hsame & _).
        rewrite Hadd in Hsame.
        apply (f_equal (@length _)) in Hsame. rewrite length_app in Hsame.
        cbn in Hsame. lia.
      * apply (Hlift (<[Key item := obj]> (objects (store ls)))); [|exact Hobjs].
        intros k o Hk. rewrite lookup_insert_ne; [exact Hk|].
        intros <-. rewrite Habs in Hk. discriminate Hk.
Qed.

(** After a run, the bucket holds every video that has an identifier,
    unless each of its transfers failed and left an error. *)
Lemma steps_hold (videos : list Video) :
  forall ls : LoopState,
    soundFaults (headFaults (store ls)) ->
    Forall (fun video => ID video <> EmptyString) videos ->
    exists errs,
      Errors (result (steps videos ls)) = (Errors (result ls) ++ errs)%list /\
      forall video, In video videos ->
        held (objects (store (steps videos ls))) video = true \/
        exists e, In e errs /\ ErrVideoID e = ID video /\ ErrTitle e = Title video.
Proof.
  induction videos as [|video rest IH]; intros ls Hsound Hids.
  - exists []. cbn. rewrite app_nil_r. split; [reflexivity | intros ? []].
  - rewrite importSteps_cons. inversion Hids as [|? ? Hid Hrest]; subst.
    destruct (step_store formatLess bucketName prefix client ls video Hsound)
      as (Hsound1 & _).
    destruct (IH (step ls video) Hsound1 Hrest) as (errs & Herrs & Hall).
    destruct (steps_frame formatLess bucketName prefix client rest (step ls video) Hsound1)
      as (new & _ & Hfree & _ & Hframe).
    assert (Hgrow : forall k obj, objects (store (step ls video)) !! k = Some obj ->
                                  objects (store (steps rest (step ls video))) !! k = Some obj).
    { intros k obj Hk. rewrite Hframe; [exact Hk|].
      intros Hin. apply in_map_iff in Hin as (item & <- & Hin).
      rewrite List.Forall_forall in Hfree. rewrite (Hfree item Hin) in Hk. discriminate Hk. }
    destruct (step_result formatLess bucketName prefix client ls video) as (Hst & _ & Hres).
    destruct (outcome (downloadYouTubeVideo formatLess (store ls) (obs ls) bucketName prefix
                         client video)) as [[item skipped]|text] eqn:Hout.
    + exists errs. split.
      * rewrite Herrs, Hres. destruct skipped; reflexivity.
      * intros v [<-|Hin]; [|exact (Hall v Hin)].
        left. apply (alreadyImported_mono (objects (store (step ls video)))); [exact Hgrow|].
        rewrite Hst. exact (download_holds _ _ _ _ _ Hsound Hid Hout).
    + eexists (_ :: errs). split.
      * rewrite Herrs, Hres. cbn [appendError Errors]. rewrite <- app_assoc. reflexivity.
      * intros v [<-|Hin].
        -- right. eexists. split; [left; reflexivity|]. split; reflexivity.
        -- destruct (Hall v Hin) as [H | (e & He & Hrec)]; [left; exact H|].
           right. exists e. split; [right; exact He | exact Hrec].
Qed.

End Twice.

Section ImportTwice.

Variable formatLess : Format -> Format -> bool.

(** X18: a batch that is run again imports only what failed before.
    The store of the first run reports an absent object only for an
    absent object (no failing lookup of that run has a text that
    [isNotFoundError] accepts); the second run meets the bucket as the
    first run left it, the same answers of the client and no failing
    lookup at all; and every resolved video has an identifier.  Then
    each item the second run imports belongs to a video for which the
    first run recorded an error; so after a first run without errors the
    second run imports nothing and leaves the bucket as it found it. *)
Theorem ImportYouTube_again
    (s1 s2 : BucketService) (input : YouTubeImportInput)
    (st1 st2 : ObjectStore) (ls1 ls2 : LoopState) :
  GetObjectStore s1 = inl st1 ->
  soundFaults (headFaults st1) ->
  ImportYouTube formatLess s1 input = inl ls1 ->
  youtubeClient s2 = youtubeClient s1 ->
  GetObjectStore s2 = inl st2 ->
  objects st2 = objects (store ls1) ->
  noFaults (headFaults st2) ->
  ImportYouTube formatLess s2 input = inl ls2 ->
  (forall videos kind r,
     resolveYouTubeVideos (youtubeClient s1) (TrimSpace (URL input)) emptyResult =
       inl (videos, kind, r) ->
     Forall (fun video => ID video <> EmptyString) videos) ->
  (forall item, In item (Items (result ls2)) ->
     exists e, In e (Errors (result ls1)) /\
               ErrVideoID e = VideoID item /\ ErrTitle e = ItemTitle item) /\
  (Errors (result ls1) = [] ->
   Items (result ls2) = [] /\ Imported (result ls2) = 0 /\
   objects (store ls2) = objects st2).
Proof.
  intros Hst1 Hsound1 Hrun1 Hclient Hst2 Hobjs Hnf Hrun2 Hids.
  destruct (ImportYouTube_inv formatLess s1 input ls1 Hrun1)
    as (bucket1 & st1' & videos & kind & r0 & _ & Hst1' & Hres & Hls1).
  destruct (ImportYouTube_inv formatLess s2 input ls2 Hrun2)
    as (bucket2 & st2' & videos' & kind' & r0' & _ & Hst2' & Hres' & Hls2).
  rewrite Hst1 in Hst1'. injection Hst1' as <-.
  rewrite Hst2 in Hst2'. injection Hst2' as <-.
  rewrite Hclient, Hres in Hres'. injection Hres' as <- <- <-.
  rewrite Hclient in Hls2.
  set (prefix := normalizeObjectPrefix (DestinationPrefix input)) in *.
  set (client := youtubeClient s1) in *.
  assert (Hstart : Items r0 = [] /\ Imported r0 = 0).
  { destruct (resolveYouTubeVideos_inv _ _ _ _ _ Hres)
      as [(playlist & _ & _ & _ & Hi & _ & _ & H) | (err & video & _ & _ & _ & _ & _ & ->)];
      [split; assumption | split; reflexivity]. }
  destruct Hstart as [Hitems0 Himported0].
  destruct (steps_hold formatLess bucket1 prefix client videos
              {| result := withKind r0 kind; store := st1;
                 obs := {| clock := startClock s1; emitted := [] |} |}
              Hsound1 (Hids videos kind r0 Hres))
    as (errs & Herrs & Hheld).
  rewrite <- Hls1 in Herrs, Hheld.
  destruct (steps_new_from_missing formatLess bucket2 prefix client videos
              {| result := withKind r0 kind; store := st2;
                 obs := {| clock := startClock s2; emitted := [] |} |} Hnf)
    as (new & Hnew & Hmissing).
  rewrite <- Hls2 in Hnew. cbn [result store withKind Items] in Hnew, Hmissing.
  rewrite Hitems0 in Hnew. cbn [app] in Hnew.
  assert (Hfirst : forall item, In item (Items (result ls2)) ->
            exists e, In e (Errors (result ls1)) /\
                      ErrVideoID e = VideoID item /\ ErrTitle e = ItemTitle item).
  { intros item Hin. rewrite Hnew in Hin.
    rewrite List.Forall_forall in Hmissing.
    destruct (Hmissing item Hin) as (video & Hv & Hmiss & Hid & Htitle).
    rewrite Hobjs in Hmiss.
    destruct (Hheld video Hv) as [H | (e & He & Heid & Hetitle)]; [congruence|].
    exists e. rewrite Herrs. split; [apply in_or_app; right; exact He|].
    split; congruence. }
  split; [exact Hfirst|].
  intros Hnone.
  assert (Hnil : Items (result ls2) = []).
  { destruct (Items (result ls2)) as [|item rest]; [reflexivity|].
    destruct (Hfirst item (or_introl eq_refl)) as (e & He & _).
    rewrite Hnone in He. destruct He. }
  split; [exact Hnil|]. split.
  - destruct (steps_items formatLess bucket2 prefix client videos
                {| result := withKind r0 kind; store := st2;
                   obs := {| clock := startClock s2; emitted := [] |} |} 0 0)
      as (new' & Hnew' & _ & Himp).
    + cbn. destruct (resolveYouTubeVideos_inv _ _ _ _ _ Hres)
        as [(playlist & _ & _ & _ & _ & _ & -> & _) | (err & video & _ & _ & _ & _ & _ & ->)];
        reflexivity.
    + cbn. rewrite Himported0. reflexivity.
    + rewrite <- Hls2 in Hnew', Himp. cbn [result withKind Items] in Hnew'.
      rewrite Hitems0, Hnil in Hnew'. cbn [app] in Hnew'. subst new'.
      rewrite Himp. reflexivity.
  - destruct (ImportYouTube_new_items formatLess s2 input st2 ls2 Hst2
                (noFaults_sound _ Hnf) Hrun2) as (_ & _ & Hframe).
    apply map_eq. intros k. apply Hframe. rewrite Hnil. intros [].
Qed.

End ImportTwice.

(** Two videos imported by a first run; the second run imports nothing. *)
Lemma ImportYouTube_again_witness :
  exists ls1 ls2,
    ImportYouTube byBitrate mixedService mixedInput = inl ls1 /\
    ImportYouTube byBitrate mixedServiceAgain mixedInput = inl ls2 /\
    List.map Key (Items (result ls1)) = ["Same-Title.m4a"; "Same-Title.mp4"] /\
    Errors (result ls1) = [] /\
    Skipped (result ls2) = 2 /\
    Items (result ls2) = [] /\ Imported (result ls2) = 0 /\
    objects (store ls2) = objects (store ls1).
Proof.
  eexists. eexists.
  split; [vm_compute; reflexivity|]. split; [vm_compute; reflexivity|].
  split; [reflexivity|]. split; [reflexivity|]. split; [reflexivity|].
  refine (proj2 (ImportYouTube_again byBitrate mixedService mixedServiceAgain mixedInput
                   emptyStore _ _ _ eq_refl _ _ eq_refl eq_refl eq_refl _ _ _) eq_refl).
  - constructor.
  - vm_compute. reflexivity.
  - vm_compute. constructor.
  - vm_compute. reflexivity.
  - intros videos kind r H. vm_compute in H. injection H as <- _ _.
    repeat constructor; discriminate.
Defined.

(* ===================================================================== *)
(** ** What a transfer reports, and the order of the reports *)
(* ===================================================================== *)

Lemma withSizeHint_MimeType (f : Format) (hint : Z) :
  MimeType (withSizeHint f hint) = MimeType f.
Proof. unfold withSizeHint. destruct (_ && _); reflexivity. Qed.

Lemma withSizeHint_positive (f : Format) (hint : Z) :
  0 < ContentLength f \/ (ContentLength f = 0 /\ 0 < hint) ->
  0 < ContentLength (withSizeHint f hint).
Proof.
  unfold withSizeHint. intros [H | [H0 H]].
  - destruct (ContentLength f =? 0) eqn:E; [apply Z.eqb_eq in E; lia|]. exact H.
  - rewrite H0. cbn [Z.eqb andb]. destruct (0 <? hint) eqn:E; [exact H|].
    apply Z.ltb_ge in E. lia.
Qed.

Lemma transferDecision_keys (h1 h2 : gmap string string + string)
    (videoID pk lk : string) :
  match transferDecision h1 h2 videoID pk lk with
  | Fail _ => True
  | Skip key | Write key => key = pk \/ key = lk
  end.
Proof.
  unfold transferDecision. cbv zeta.
  assert (Hafter : forall b : bool,
             match
               match h2 with
               | inl _ => Skip lk
               | inr text => if negb (isNotFoundText text) then Fail text
                             else Write (if b then lk else pk)
               end
             with
             | Fail _ => True
             | Skip key | Write key => key = pk \/ key = lk
             end).
  { intros b. destruct h2 as [m|text]; [auto|].
    destruct (negb (isNotFoundText text)); [exact I|]. destruct b; auto. }
  destruct h1 as [m|text].
  - destruct (metadataMatchesYouTubeVideo m videoID); [auto | exact (Hafter true)].
  - destruct (negb (isNotFoundText text)); [exact I | exact (Hafter false)].
Qed.

Section ItemRecord.

Variable formatLess : Format -> Format -> bool.

(** The record of an item, imported or skipped, in terms of the chosen
    encoding. *)
Lemma download_item_fields (st : ObjectStore) (o : Obs) (bucketName prefix : string)
    (client : Client) (video : Video) (item : YouTubeImportedItem) (skipped : bool) :
  outcome (downloadYouTubeVideo formatLess st o bucketName prefix client video) =
    inl (item, skipped) ->
  exists f stream hint,
    selectYouTubeFormat formatLess video = inl f /\
    GetStreamContext client video f = inl (stream, hint) /\
    ItemTitle item = Title video /\ VideoID item = ID video /\
    ContentType item = contentTypeFromMime (MimeType f) /\
    (Key item = primaryKeyOf prefix video f \/ Key item = legacyKeyOf prefix video f) /\
    (skipped = false ->
     0 < ContentLength f \/ (ContentLength f = 0 /\ 0 < hint) ->
     SizeBytes item <> 0).
Proof.
  intros Hout.
  destruct (download_imported_open formatLess _ _ _ _ _ _ _ _ Hout)
    as (f & stream & hint & Ef & Es).
  exists f, stream, hint. split; [exact Ef|]. split; [exact Es|].
  pose proof (download_decision formatLess st o bucketName prefix client video
                f stream hint Ef Es) as D. cbv zeta in D.
  rewrite withSizeHint_MimeType in D.
  change (primaryKeyOf prefix video (withSizeHint f hint))
    with (joinKey prefix (buildYouTubeFilename (Title video) (withSizeHint f hint))) in D.
  change (legacyKeyOf prefix video (withSizeHint f hint))
    with (joinKey prefix
            (buildYouTubeFilenameWithID (Title video) (ID video) (withSizeHint f hint))) in D.
  unfold buildYouTubeFilename, buildYouTubeFilenameWithID in D.
  rewrite withSizeHint_MimeType in D.
  fold (buildYouTubeFilename (Title video) f) in D.
  fold (buildYouTubeFilenameWithID (Title video) (ID video) f) in D.
  fold (primaryKeyOf prefix video f) in D. fold (legacyKeyOf prefix video f) in D.
  pose proof (transferDecision_keys
                (fst (HeadObject st bucketName (primaryKeyOf prefix video f)))
                (fst (HeadObject (snd (HeadObject st bucketName (primaryKeyOf prefix video f)))
                        bucketName (legacyKeyOf prefix video f)))
                (ID video) (primaryKeyOf prefix video f) (legacyKeyOf prefix video f))
    as Hkeys.
  destruct (transferDecision _ _ (ID video) _ _) as [text|key|key].
  - destruct D as (D & _). rewrite Hout in D. discriminate D.
  - destruct D as (D & _). rewrite Hout in D. injection D as -> ->.
    cbn. repeat split; try assumption. discriminate.
  - destruct D as (p0 & o0 & putErr & st3 & p3 & _ & _ & _ & _ & D).
    rewrite Hout in D. destruct putErr as [text|]; [discriminate D|].
    injection D as -> ->. cbn. repeat split; try assumption.
    intros _ Hlen. apply withSizeHint_positive in Hlen.
    unfold reportedSize, progressReader_BytesRead.
    destruct (read p3 =? 0) eqn:E; cbn [andb].
    + apply Z.ltb_lt in Hlen. rewrite Hlen. apply Z.ltb_lt in Hlen. lia.
    + apply Z.eqb_neq in E. exact E.
Qed.

(** X19: the record of an item, imported or skipped, names its video:
    it carries the title and the identifier of the video and the content
    type of the chosen encoding; its key is the primary or the legacy
    key of the video, so it starts with the prefix; and the size of an
    imported item is not zero when the encoding or the stream declares a
    length. *)
Theorem downloadYouTubeVideo_item_record
    (st : ObjectStore) (o : Obs) (bucketName prefix : string)
    (client : Client) (video : Video) (item : YouTubeImportedItem) (skipped : bool) :
  outcome (downloadYouTubeVideo formatLess st o bucketName prefix client video) =
    inl (item, skipped) ->
  ItemTitle item = Title video /\ VideoID item = ID video /\
  HasPrefix (Key item) prefix = true /\
  exists f stream hint,
    selectYouTubeFormat formatLess video = inl f /\
    GetStreamContext client video f = inl (stream, hint) /\
    ContentType item = contentTypeFromMime (MimeType f) /\
    (Key item = primaryKeyOf prefix video f \/ Key item = legacyKeyOf prefix video f) /\
    (skipped = false ->
     0 < ContentLength f \/ (ContentLength f = 0 /\ 0 < hint) ->
     SizeBytes item <> 0).
Proof.
  intros Hout.
  destruct (download_item_fields st o bucketName prefix client video item skipped Hout)
    as (f & stream & hint & Ef & Es & Htitle & Hid & Hct & Hkey & Hsize).
  split; [exact Htitle|]. split; [exact Hid|]. split.
  - destruct Hkey as [-> | ->]; unfold primaryKeyOf, legacyKeyOf;
      rewrite joinKey_append; apply HasPrefix_refl_app.
  - exists f, stream, hint. auto.
Qed.

(** X20: only an import changes the bucket.  Whatever failures the store
    has in stock, a transfer that ends in an error or in a skip leaves
    every object as it was; and a transfer that finds no encoding or
    cannot open the stream does not call the store at all. *)
Theorem downloadYouTubeVideo_no_import_no_change
    (st : ObjectStore) (o : Obs) (bucketName prefix : string)
    (client : Client) (video : Video) :
  let d := downloadYouTubeVideo formatLess st o bucketName prefix client video in
  match outcome d with
  | inl (_, false) => True
  | _ => objects (storeAfter d) = objects st
  end /\
  match selectYouTubeFormat formatLess video with
  | inr _ => storeAfter d = st /\ obsAfter d = o
  | inl f =>
      match GetStreamContext client video f with
      | inr _ => storeAfter d = st /\ obsAfter d = o
      | inl _ => True
      end
  end.
Proof.
  cbv zeta.
  destruct (selectYouTubeFormat formatLess video) as [f|text] eqn:Ef.
  2: { rewrite (download_no_format formatLess st o bucketName prefix client video text Ef).
       cbn. auto. }
  destruct (GetStreamContext client video f) as [[stream hint]|err] eqn:Es.
  2: { rewrite (download_no_stream formatLess st o bucketName prefix client video f err
                  Ef Es).
       cbn. auto. }
  split; [|exact I].
  pose proof (download_decision formatLess st o bucketName prefix client video
                f stream hint Ef Es) as D. cbv zeta in D.
  destruct (transferDecision _ _ _ _ _) as [text|key|key].
  - destruct D as (-> & Hobjs & _). exact Hobjs.
  - destruct D as (-> & Hobjs & _). exact Hobjs.
  - destruct D as (p0 & o0 & putErr & st3 & p3 & _ & Hput & -> & _ & ->).
    destruct putErr as [text|]; [|exact I].
    apply PutObject_effect in Hput as (_ & _ & Hobjs).
    rewrite Hobjs, !HeadObject_objects. reflexivity.
Qed.

End ItemRecord.

Lemma downloadYouTubeVideo_item_record_witness :
  outcome (downloadYouTubeVideo byBitrate emptyStore noObs "bucket" "media/"
             (sampleClient [videoA] []) videoA) =
  inl ({| ItemTitle := "Same Title"; Key := "media/Same-Title.mp4"; VideoID := "a1";
          SizeBytes := 1000; ContentType := "video/mp4" |}, false) /\
  HasPrefix "media/Same-Title.mp4" "media/" = true.
Proof.
  assert (Hout : outcome (downloadYouTubeVideo byBitrate emptyStore noObs "bucket" "media/"
                            (sampleClient [videoA] []) videoA) =
                 inl ({| ItemTitle := "Same Title"; Key := "media/Same-Title.mp4";
                         VideoID := "a1"; SizeBytes := 1000;
                         ContentType := "video/mp4" |}, false))
    by (vm_compute; reflexivity).
  split; [exact Hout|].
  exact (proj1 (proj2 (proj2 (downloadYouTubeVideo_item_record byBitrate emptyStore noObs
                                "bucket" "media/" (sampleClient [videoA] []) videoA _ _
                                Hout)))).
Defined.

(* ===================================================================== *)
(** ** The order of a batch *)
(* ===================================================================== *)

Lemma videosFromPlaylist_lists (client : Client) (entries : list PlaylistEntry) :
  forall (videos : list Video) (r : YouTubeImportResult),
    fst (videosFromPlaylist client entries videos r) =
      (videos ++ resolvedEntries client entries)%list /\
    Errors (snd (videosFromPlaylist client entries videos r)) =
      (Errors r ++ unresolvedEntries client entries)%list.
Proof.
  unfold resolvedEntries, unresolvedEntries.
  induction entries as [|entry rest IH]; intros videos r.
  - cbn. rewrite !app_nil_r. auto.
  - cbn [videosFromPlaylist omap list_omap].
    destruct (VideoFromPlaylistEntryContext client entry) as [video|err].
    + destruct (IH (videos ++ [video])%list r) as [-> ->].
      rewrite <- app_assoc. auto.
    + destruct (IH videos
                  (appendError r {| ErrTitle := EntryTitle entry; ErrVideoID := EntryID entry;
                                    Error := ErrorText err |})) as [-> ->].
      cbn [appendError Errors]. rewrite <- app_assoc. auto.
Qed.

(** X21: a playlist is resolved in its order.  The videos handed to the
    loop are the entries that resolve, in the order of the playlist; the
    entries that do not resolve leave one error each, in the same order,
    with the title and the identifier of the entry and the message of
    the client; and nothing else of the result changes. *)
Theorem videosFromPlaylist_order (client : Client) (entries : list PlaylistEntry)
    (r : YouTubeImportResult) :
  let out := videosFromPlaylist client entries [] r in
  fst out = resolvedEntries client entries /\
  Errors (snd out) = (Errors r ++ unresolvedEntries client entries)%list /\
  Items (snd out) = Items r /\
  (length (fst out) + length (unresolvedEntries client entries) = length entries)%nat.
Proof.
  cbv zeta.
  destruct (videosFromPlaylist_lists client entries [] r) as [Hv He].
  destruct (videosFromPlaylist_accounting client entries [] r)
    as (Hlen & _ & _ & _ & _ & Hitems).
  cbv zeta in Hlen, Hitems. cbn [app] in Hv.
  split; [exact Hv|]. split; [exact He|]. split; [exact Hitems|].
  rewrite He, length_app in Hlen. cbn [length] in Hlen. lia.
Qed.

Section BatchOrder.

Variable formatLess : Format -> Format -> bool.
Variables bucketName prefix : string.
Variable client : Client.

Local Abbreviation steps := (importSteps formatLess bucketName prefix client).

(** The items and the errors a run of the loop adds name videos of the
    run, in the order of the run. *)
Lemma steps_order (videos : list Video) :
  forall ls : LoopState,
    exists new errs,
      Items (result (steps videos ls)) = (Items (result ls) ++ new)%list /\
      Errors (result (steps videos ls)) = (Errors (result ls) ++ errs)%list /\
      sublist (List.map itemName new) (List.map videoName videos) /\
      sublist (List.map errorName errs) (List.map videoName videos) /\
      (length new + length errs <= length videos)%nat.
Proof.
  induction videos as [|video rest IH]; intros ls.
  - exists [], []. cbn. rewrite !app_nil_r. repeat split; constructor.
  - rewrite importSteps_cons.
    destruct (IH (importStep formatLess bucketName prefix client ls video))
      as (new & errs & Hitems & Herrs & Hsub1 & Hsub2 & Hlen).
    destruct (step_result formatLess bucketName prefix client ls video) as (_ & _ & Hres).
    rewrite Hitems, Herrs, Hres. clear Hitems Herrs Hres.
    destruct (outcome (downloadYouTubeVideo formatLess (store ls) (obs ls) bucketName prefix
                         client video)) as [[item [|]]|text] eqn:Hout.
    + exists new, errs. cbn [countSkipped Items Errors List.map length].
      repeat split; try (apply sublist_cons; assumption). lia.
    + destruct (download_item_fields formatLess _ _ _ _ _ _ _ _ Hout)
        as (_ & _ & _ & _ & _ & Htitle & Hid & _).
      exists (item :: new), errs. cbn [appendItem Items Errors List.map length].
      rewrite <- app_assoc. split; [reflexivity|]. split; [reflexivity|].
      split; [|split; [apply sublist_cons; exact Hsub2 | lia]].
      unfold itemName at 1, videoName at 1. rewrite Htitle, Hid.
      apply sublist_skip, Hsub1.
    + eexists new, (_ :: errs). cbn [appendError Items Errors List.map length].
      rewrite <- app_assoc. split; [reflexivity|]. split; [reflexivity|].
      split; [apply sublist_cons; exact Hsub1|]. split; [|lia].
      apply sublist_skip, Hsub2.
Qed.

End BatchOrder.

Section ImportOrder.

Variable formatLess : Format -> Format -> bool.

(** X22: the result keeps the order of the batch.  The imported items
    name resolved videos, in the order in which the videos were
    resolved; the errors are those of the resolution followed by those
    of the transfers, which name resolved videos in that order too; and
    the items and the errors of the transfers together are no more than
    the resolved videos. *)
Theorem ImportYouTube_order (s : BucketService) (input : YouTubeImportInput)
    (ls : LoopState) :
  ImportYouTube formatLess s input = inl ls ->
  exists videos kind r errs,
    resolveYouTubeVideos (youtubeClient s) (TrimSpace (URL input)) emptyResult =
      inl (videos, kind, r) /\
    sublist (List.map itemName (Items (result ls))) (List.map videoName videos) /\
    Errors (result ls) = (Errors r ++ errs)%list /\
    sublist (List.map errorName errs) (List.map videoName videos) /\
    (length (Items (result ls)) + length errs <= length videos)%nat.
Proof.
  intros Hrun.
  destruct (ImportYouTube_inv formatLess s input ls Hrun)
    as (bucketName & st & videos & kind & r0 & _ & _ & Hres & ->).
  assert (Hempty : Items r0 = []).
  { destruct (resolveYouTubeVideos_inv _ _ _ _ _ Hres)
      as [(playlist & _ & _ & _ & _ & _ & _ & H) | (err & video & _ & _ & _ & _ & _ & ->)];
      [exact H | reflexivity]. }
  destruct (steps_order formatLess bucketName
              (normalizeObjectPrefix (DestinationPrefix input)) (youtubeClient s) videos
              {| result := withKind r0 kind; store := st;
                 obs := {| clock := startClock s; emitted := [] |} |})
    as (new & errs & Hitems & Herrs & Hsub1 & Hsub2 & Hlen).
  cbn [result withKind Items Errors] in Hitems, Herrs.
  rewrite Hempty in Hitems. cbn [app] in Hitems.
  exists videos, kind, r0, errs. rewrite Hitems. auto.
Qed.

End ImportOrder.

Lemma ImportYouTube_order_witness :
  exists ls,
    ImportYouTube byBitrate batchService batchInput = inl ls /\
    List.map itemName (Items (result ls)) = [("Same Title", "a1"); ("Same  Title!", "b2")] /\
    List.map errorName (Errors (result ls)) = [("gone", "zz"); ("Silent", "m4")] /\
    exists videos kind r errs,
      resolveYouTubeVideos (youtubeClient batchService) (TrimSpace (URL batchInput))
        emptyResult = inl (videos, kind, r) /\
      sublist (List.map itemName (Items (result ls))) (List.map videoName videos) /\
      Errors (result ls) = (Errors r ++ errs)%list /\
      sublist (List.map errorName errs) (List.map videoName videos) /\
      (length (Items (result ls)) + length errs <= length videos)%nat.
Proof.
  eexists. split; [vm_compute; reflexivity|]. split; [reflexivity|]. split; [reflexivity|].
  apply (ImportYouTube_order byBitrate batchService batchInput).
  vm_compute. reflexivity.
Defined.

(* ===================================================================== *)
(** ** Prefixes that are in normal form already *)
(* ===================================================================== *)

Lemma lastByte_app (t : string) (c : ascii) : lastByte (t ++ String c EmptyString) = Some c.
Proof.
  induction t as [|b t IH]; [reflexivity|].
  rewrite append_cons. cbn [lastByte]. rewrite IH.
  destruct (t ++ String c EmptyString) eqn:E; [|reflexivity].
  destruct t; discriminate E.
Qed.

Lemma lastByte_drop (k : nat) :
  forall s, (k < String.length s)%nat -> lastByte (drop k s) = lastByte s.
Proof.
  induction k as [|k IH]; intros s Hk; [reflexivity|].
  destruct s as [|c r]; [cbn in Hk; lia|].
  cbn [drop]. cbn [String.length] in Hk. rewrite IH by lia.
  destruct r as [|d r']; [cbn in Hk; lia | reflexivity].
Qed.

Lemma HasSuffix_lastByte (s w : string) :
  HasSuffix s w = true -> w <> EmptyString -> lastByte w = lastByte s.
Proof.
  unfold HasSuffix. intros [Hlen Heq]%andb_true_iff Hw.
  apply Nat.leb_le in Hlen. apply String.eqb_eq in Heq.
  rewrite <- Heq at 1. apply lastByte_drop.
  destruct w; [congruence|]. cbn [String.length] in *. lia.
Qed.

Lemma spaceRunes_no_slash (w : string) :
  In w spaceRunes ->
  w <> EmptyString /\ lastByte w <> Some "/"%char /\
  allBytes (fun c => negb (isSlash c)) w = true.
Proof.
  unfold spaceRunes. cbn [List.map In].
  intros H.
  repeat (destruct H as [<-|H]; [repeat split; vm_compute; discriminate|]).
  destruct H.
Qed.

(** A final slash hides no white space at the end. *)
Lemma trailingSpaceWidth_slash (t : string) : trailingSpaceWidth (t ++ "/") = O.
Proof.
  apply trailingSpaceWidth_zero. intros w Hin.
  destruct (spaceRunes_no_slash w Hin) as (Hne & Hlast & _).
  destruct (HasSuffix (t ++ "/") w) eqn:E; [|reflexivity].
  apply HasSuffix_lastByte in E; [|exact Hne].
  rewrite lastByte_app in E. congruence.
Qed.

Lemma HasPrefix_app_other (c : ascii) (w : string) :
  allBytes (fun b => negb (Ascii.eqb b c)) w = true ->
  forall t, HasPrefix (t ++ String c EmptyString) w = true -> HasPrefix t w = true.
Proof.
  induction w as [|a w IH]; intros Hw t H; [destruct t; reflexivity|].
  cbn [allBytes] in Hw. apply andb_true_iff in Hw as [Ha Hw].
  destruct t as [|b t].
  - change (EmptyString ++ String c EmptyString) with (String c EmptyString) in H.
    rewrite HasPrefix_cons in H. apply negb_true_iff in Ha. rewrite Ha in H.
    discriminate H.
  - rewrite append_cons, HasPrefix_cons in H. rewrite HasPrefix_cons.
    destruct (Ascii.eqb a b); [|discriminate H]. exact (IH Hw t H).
Qed.

Lemma leadingSpaceWidth_app_slash (t : string) :
  leadingSpaceWidth t = O -> leadingSpaceWidth (t ++ "/") = O.
Proof.
  rewrite !leadingSpaceWidth_zero. intros H w Hin.
  destruct (spaceRunes_no_slash w Hin) as (_ & _ & Hw).
  destruct (HasPrefix (t ++ "/") w) eqn:E; [|reflexivity].
  rewrite <- (H w Hin). symmetry. exact (HasPrefix_app_other "/" w Hw t E).
Qed.

Lemma leadingSpaceWidth_slash (t : string) : leadingSpaceWidth (String "/" t) = O.
Proof.
  apply leadingSpaceWidth_zero. unfold spaceRunes. cbn [List.map In].
  intros w H. repeat (destruct H as [<-|H]; [reflexivity|]). destruct H.
Qed.

Lemma collapseSlashes_id (s : string) : Contains s "//" = false -> collapseSlashes s = s.
Proof.
  induction s as [|c r IH]; [reflexivity|].
  cbn [Contains]. intros [H1 H2]%orb_false_iff.
  rewrite (collapseSlashes_other c r H1), (IH H2). reflexivity.
Qed.

Lemma trimLeftBytes_id (s : string) :
  HasPrefix s "/" = false -> trimLeftBytes (inCutset "/") s = s.
Proof.
  destruct s as [|c r]; [reflexivity|].
  rewrite HasPrefix_cons. cbn [trimLeftBytes HasPrefix]. rewrite inCutset_slash.
  unfold isSlash.
  rewrite (Ascii.eqb_sym "/" c). destruct (Ascii.eqb c "/"); [discriminate | reflexivity].
Qed.

Lemma trimRightBytes_app_slash (t : string) :
  trimRightBytes (inCutset "/") (t ++ "/") = trimRightBytes (inCutset "/") t.
Proof.
  induction t as [|c r IH]; [reflexivity|].
  rewrite append_cons. cbn [trimRightBytes]. rewrite IH. reflexivity.
Qed.

Lemma trimRightBytes_id (s : string) :
  HasSuffix s "/" = false -> trimRightBytes (inCutset "/") s = s.
Proof.
  induction s as [|c r IH]; [reflexivity|].
  rewrite HasSuffix_byte_cons. cbn [trimRightBytes].
  destruct r as [|d r'].
  - cbn [isEmpty trimRightBytes andb]. rewrite inCutset_slash. unfold isSlash.
    intros ->. reflexivity.
  - cbn [isEmpty]. intros H. rewrite (IH H). reflexivity.
Qed.

Lemma HasPrefix_app_nonempty (t x : string) :
  t <> EmptyString -> HasPrefix (t ++ x) (String "/" EmptyString) = HasPrefix t "/".
Proof.
  intros Hne. destruct t as [|c r]; [congruence|].
  rewrite append_cons, !HasPrefix_cons. reflexivity.
Qed.

(** The last three steps of [normalizeObjectPrefix] on a clean path
    with or without a final slash. *)
Lemma cleanPath_steps (t : string) :
  cleanPath t ->
  Trim (ReplaceAll t "//" "/") "/" = t /\
  Trim (ReplaceAll (t ++ "/") "//" "/") "/" = t.
Proof.
  intros (Hne & _ & Hhead & Hlast & Hpair).
  fold (collapseSlashes t). fold (collapseSlashes (t ++ "/")).
  rewrite (collapseSlashes_id t Hpair).
  rewrite (collapseSlashes_id (t ++ "/") (append_slash_no_pair t Hpair Hlast)).
  unfold Trim. split.
  - rewrite (trimLeftBytes_id t Hhead). apply trimRightBytes_id, Hlast.
  - rewrite trimLeftBytes_id
      by (rewrite (HasPrefix_app_nonempty t "/" Hne); exact Hhead).
    rewrite trimRightBytes_app_slash. apply trimRightBytes_id, Hlast.
Qed.

(** X23: a prefix that is in normal form stays as it is.  For a clean
    path [t], the prefixes [t], [t/], [/t] and [/t/] all normalize to
    [t/]; in particular [normalizeObjectPrefix] returns [t/] unchanged. *)
Theorem normalizeObjectPrefix_fixed (t : string) :
  cleanPath t ->
  normalizeObjectPrefix t = t ++ "/" /\
  normalizeObjectPrefix (t ++ "/") = t ++ "/" /\
  normalizeObjectPrefix ("/" ++ t) = t ++ "/" /\
  normalizeObjectPrefix ("/" ++ t ++ "/") = t ++ "/".
Proof.
  intros Hclean.
  destruct (cleanPath_steps t Hclean) as [Hbare Hslash].
  destruct Hclean as (Hne & Hspace & Hhead & Hlast & Hpair).
  assert (Hl : leadingSpaceWidth t = O).
  { apply leadingSpaceWidth_zero. intros w Hin. exact (proj1 (Hspace w Hin)). }
  assert (Hr : trailingSpaceWidth t = O).
  { apply trailingSpaceWidth_zero. intros w Hin. exact (proj2 (Hspace w Hin)). }
  assert (Hout : (if isEmpty t then EmptyString else t ++ "/") = t ++ "/").
  { destruct t; [congruence | reflexivity]. }
  assert (Hrslash : forall x, trailingSpaceWidth (String "/" x) = O ->
                              TrimSpace (String "/" x) = String "/" x).
  { intros x Hx. apply TrimSpace_none; [apply leadingSpaceWidth_slash | exact Hx]. }
  unfold normalizeObjectPrefix. repeat split.
  - rewrite (TrimSpace_none t Hl Hr). unfold TrimPrefix. rewrite Hhead, Hbare. exact Hout.
  - rewrite (TrimSpace_none (t ++ "/") (leadingSpaceWidth_app_slash t Hl)
               (trailingSpaceWidth_slash t)).
    unfold TrimPrefix. rewrite (HasPrefix_app_nonempty t "/" Hne), Hhead, Hslash.
    exact Hout.
  - change ("/" ++ t) with (String "/" t). rewrite Hrslash.
    + unfold TrimPrefix. cbn [HasPrefix String.length drop].
      rewrite Ascii.eqb_refl. cbn [HasPrefix]. rewrite Hbare. exact Hout.
    + apply trailingSpaceWidth_zero. intros w Hin.
      destruct (spaceRunes_no_slash w Hin) as (Hwne & _ & Hw).
      destruct (HasSuffix (String "/" t) w) eqn:E; [|reflexivity].
      pose proof (HasSuffix_lastByte _ _ E Hwne) as Hlb.
      assert (Hsame : lastByte (String "/" t) = lastByte t).
      { destruct t; [congruence | reflexivity]. }
      rewrite Hsame in Hlb.
      (* the rune would end [t] as well *)
      exfalso. unfold HasSuffix in E. apply andb_true_iff in E as [Hlen Heq].
      apply Nat.leb_le in Hlen. apply String.eqb_eq in Heq.
      cbn [String.length] in Hlen, Heq.
      destruct (Nat.eq_dec (String.length w) (S (String.length t))) as [Hfull | Hshort].
      * rewrite Hfull, Nat.sub_diag in Heq. cbn [drop] in Heq. subst w.
        cbn [allBytes] in Hw. discriminate Hw.
      * replace (S (String.length t) - String.length w)%nat
          with (S (String.length t - String.length w)) in Heq by lia.
        cbn [drop] in Heq.
        assert (Hsuf : HasSuffix t w = true).
        { unfold HasSuffix. apply andb_true_iff. split; [apply Nat.leb_le; lia|].
          apply String.eqb_eq. exact Heq. }
        rewrite (proj2 (Hspace w Hin)) in Hsuf. discriminate Hsuf.
  - change ("/" ++ t ++ "/") with (String "/" (t ++ "/")). rewrite Hrslash.
    + unfold TrimPrefix. cbn [HasPrefix String.length drop].
      rewrite Ascii.eqb_refl. cbn [HasPrefix]. rewrite Hslash. exact Hout.
    + change (String "/" (t ++ "/")) with ((String "/" t) ++ "/").
      apply trailingSpaceWidth_slash.
Qed.

Lemma normalizeObjectPrefix_fixed_witness :
  cleanPath "media/2024" /\
  normalizeObjectPrefix "media/2024/" = "media/2024/".
Proof.
  assert (H : cleanPath "media/2024").
  { split; [discriminate|]. split; [|repeat split; reflexivity].
    unfold spaceRunes. cbn [List.map In]. intros w Hin.
    repeat (destruct Hin as [<-|Hin]; [split; reflexivity|]). destruct Hin. }
  split; [exact H|].
  exact (proj1 (proj2 (normalizeObjectPrefix_fixed "media/2024" H))).
Defined.

(* ===================================================================== *)
(** ** The life cycle the observer sees *)
(* ===================================================================== *)

Lemma emitProgress_on (event : Progress.YouTubeImportProgress)
    (log : list Progress.YouTubeImportProgress) :
  emitProgress true event log = (log ++ [event])%list.
Proof. reflexivity. Qed.

Lemma emitProgress_off (event : Progress.YouTubeImportProgress)
    (log : list Progress.YouTubeImportProgress) :
  emitProgress false event log = log.
Proof. reflexivity. Qed.

Lemma playlistEvents_off (client : Client) (entries : list PlaylistEntry) :
  forall log, playlistEvents false client entries log = log.
Proof.
  induction entries as [|entry rest IH]; intros log; [reflexivity|].
  cbn [playlistEvents]. destruct (VideoFromPlaylistEntryContext client entry);
    rewrite ?emitProgress_off; apply IH.
Qed.

(** With an observer, [videosFromPlaylist] sends one [error] event for
    each error it records. *)
Lemma playlistEvents_stages (client : Client) (entries : list PlaylistEntry) :
  forall log,
    List.map Progress.Stage (playlistEvents true client entries log) =
    (List.map Progress.Stage log ++
       repeat "error" (length (unresolvedEntries client entries)))%list.
Proof.
  unfold unresolvedEntries.
  induction entries as [|entry rest IH]; intros log.
  - cbn. rewrite app_nil_r. reflexivity.
  - cbn [playlistEvents omap list_omap].
    destruct (VideoFromPlaylistEntryContext client entry) as [video|err].
    + apply IH.
    + rewrite IH, emitProgress_on, map_app, <- app_assoc. reflexivity.
Qed.

Lemma fold_emit_off {A : Type} (f : A -> Progress.YouTubeImportProgress) (l : list A) :
  forall log, fold_left (fun log x => emitProgress false (f x) log) l log = log.
Proof. induction l as [|x l IH]; intros log; [reflexivity | apply IH]. Qed.

Lemma fold_emit_on {A : Type} (f : A -> Progress.YouTubeImportProgress) (l : list A) :
  forall log,
    fold_left (fun log x => emitProgress true (f x) log) l log = (log ++ List.map f l)%list.
Proof.
  induction l as [|x l IH]; intros log; cbn [fold_left List.map].
  - rewrite app_nil_r. reflexivity.
  - rewrite IH, emitProgress_on, <- app_assoc. reflexivity.
Qed.

Lemma map_const_repeat {A B : Type} (f : A -> B) (b : B) (l : list A) :
  (forall x, f x = b) -> List.map f l = repeat b (length l).
Proof.
  intros H. induction l as [|x l IH]; [reflexivity|].
  cbn. rewrite H, IH. reflexivity.
Qed.

Section LifecycleFacts.

Variable formatLess : Format -> Format -> bool.
Variable quote : string -> string.
Variables bucketName prefix : string.
Variable client : Client.

Lemma stepEvents_off (kind : string) (total : Z) (i : nat) (ls : LoopState)
    (video : Video) (log : list Progress.YouTubeImportProgress) :
  stepEvents formatLess quote false kind total bucketName prefix client i ls video log = log.
Proof.
  unfold stepEvents. cbv zeta. rewrite emitProgress_off, fold_emit_off.
  destruct (outcome _) as [[item [|]]|text]; reflexivity.
Qed.

(** With an observer, the events of one item are [starting], a number
    of samples and the event of the outcome. *)
Lemma stepEvents_stages (kind : string) (total : Z) (i : nat) (ls : LoopState)
    (video : Video) (log : list Progress.YouTubeImportProgress) :
  exists k,
    List.map Progress.Stage
      (stepEvents formatLess quote true kind total bucketName prefix client i ls video log) =
    (List.map Progress.Stage log ++
       itemStages (k, outcomeStage
                        (outcome (downloadYouTubeVideo formatLess (store ls) (obs ls)
                                    bucketName prefix client video))))%list.
Proof.
  unfold stepEvents. cbv zeta. rewrite fold_emit_on.
  set (d := downloadYouTubeVideo formatLess (store ls) (obs ls) bucketName prefix client
              video).
  set (samples := List.skipn (length (emitted (obs ls))) (emitted (obsAfter d))).
  exists (length samples). unfold itemStages. cbn [fst snd].
  assert (Hs : forall f : Sample -> Progress.YouTubeImportProgress,
             (forall s, Progress.Stage (f s) = "downloading") ->
             List.map Progress.Stage (List.map f samples) =
             repeat "downloading" (length samples)).
  { intros f Hf. rewrite List.map_map. apply map_const_repeat, Hf. }
  destruct (outcome d) as [[item [|]]|text]; cbn [outcomeStage];
    rewrite !emitProgress_on, !map_app, Hs by reflexivity;
    cbn [List.map Progress.Stage Progress.starting Progress.skipped Progress.downloaded
           Progress.failed];
    rewrite <- !app_assoc; reflexivity.
Qed.

Lemma loopEvents_off (kind : string) (total : Z) (ctxErr : nat -> option string)
    (videos : list Video) :
  forall (i : nat) (ls : LoopState) (log : list Progress.YouTubeImportProgress),
    loopEvents formatLess quote false kind total ctxErr bucketName prefix client i videos
      ls log = log.
Proof.
  induction videos as [|video rest IH]; intros i ls log; [reflexivity|].
  cbn [loopEvents]. destruct (ctxErr i); [reflexivity|].
  rewrite IH. apply stepEvents_off.
Qed.

Lemma countStage_cons (stage : string) (run : nat * string) (runs : list (nat * string)) :
  countStage stage (run :: runs) =
  ((if String.eqb (snd run) stage then 1 else 0) + countStage stage runs)%nat.
Proof.
  unfold countStage. cbn [List.filter]. destruct (String.eqb (snd run) stage); reflexivity.
Qed.

(** With an observer and no cancellation, the loop sends the events of
    its items one item after the other; the items that end in
    [downloaded] are the imported ones, those that end in [error] the
    failed ones. *)
Lemma loopEvents_stages (kind : string) (total : Z) (ctxErr : nat -> option string)
    (videos : list Video) :
  forall (i : nat) (ls : LoopState) (log : list Progress.YouTubeImportProgress),
    (forall j, (j < length videos)%nat -> ctxErr (i + j)%nat = None) ->
    exists runs,
      length runs = length videos /\
      Forall (fun run => snd run = "downloaded" \/ snd run = "skipped" \/ snd run = "error")
        runs /\
      List.map Progress.Stage
        (loopEvents formatLess quote true kind total ctxErr bucketName prefix client i videos
           ls log) =
      (List.map Progress.Stage log ++ concat (List.map itemStages runs))%list /\
      length (Items (result (importSteps formatLess bucketName prefix client videos ls))) =
        (length (Items (result ls)) + countStage "downloaded" runs)%nat /\
      length (Errors (result (importSteps formatLess bucketName prefix client videos ls))) =
        (length (Errors (result ls)) + countStage "error" runs)%nat.
Proof.
  induction videos as [|video rest IH]; intros i ls log Hok.
  - exists []. cbn. rewrite app_nil_r, !Nat.add_0_r. repeat split. constructor.
  - cbn [loopEvents]. pose proof (Hok O) as H0. rewrite Nat.add_0_r in H0.
    rewrite H0 by (cbn; lia). rewrite importSteps_cons.
    destruct (stepEvents_stages kind total i ls video log) as [k Hk].
    destruct (IH (S i) (importStep formatLess bucketName prefix client ls video)
                (stepEvents formatLess quote true kind total bucketName prefix client i ls
                   video log))
      as (runs & Hlen & Hterm & Hstages & Hitems & Herrs).
    { intros j Hj. replace (S i + j)%nat with (i + S j)%nat by lia. apply Hok. cbn. lia. }
    destruct (step_result formatLess bucketName prefix client ls video) as (_ & _ & Hres).
    set (out := outcome (downloadYouTubeVideo formatLess (store ls) (obs ls) bucketName
                           prefix client video)) in *.
    exists ((k, outcomeStage out) :: runs).
    split; [cbn; lia|]. split; [|split; [|split]].
    + constructor; [|exact Hterm]. cbn [snd].
      destruct out as [[item [|]]|text]; cbn; auto.
    + rewrite Hstages, Hk. cbn [List.map concat]. rewrite <- app_assoc. reflexivity.
    + rewrite Hitems, Hres, countStage_cons. cbn [snd].
      destruct out as [[item [|]]|text];
        cbn [outcomeStage countSkipped appendItem appendError Items];
        eval_stage_tests; rewrite ?length_app; cbn [length]; lia.
    + rewrite Herrs, Hres, countStage_cons. cbn [snd].
      destruct out as [[item [|]]|text];
        cbn [outcomeStage countSkipped appendItem appendError Errors];
        eval_stage_tests; rewrite ?length_app; cbn [length]; lia.
Qed.

End LifecycleFacts.

Lemma resolveEvents_off (client : Client) (url : string)
    (log : list Progress.YouTubeImportProgress) :
  resolveEvents false client url log = log.
Proof.
  unfold resolveEvents. destruct (GetPlaylistContext client url); [|reflexivity].
  apply playlistEvents_off.
Qed.

(** With an observer, the resolution sends one [error] event for each
    error it leaves in the result. *)
Lemma resolveEvents_stages (client : Client) (url : string)
    (videos : list Video) (kind : string) (r : YouTubeImportResult)
    (log : list Progress.YouTubeImportProgress) :
  resolveYouTubeVideos client url emptyResult = inl (videos, kind, r) ->
  List.map Progress.Stage (resolveEvents true client url log) =
  (List.map Progress.Stage log ++ repeat "error" (length (Errors r)))%list.
Proof.
  unfold resolveYouTubeVideos, resolveEvents.
  destruct (GetPlaylistContext client url) as [playlist|err].
  - pose proof (videosFromPlaylist_lists client (Videos playlist) []
                  (withKind emptyResult "playlist")) as [_ He].
    destruct (videosFromPlaylist client (Videos playlist) [] (withKind emptyResult "playlist"))
      as [vs r'].
    intros [= <- <- <-]. cbn [snd withKind Errors emptyResult app] in He.
    rewrite He. apply playlistEvents_stages.
  - destruct (negb (IsInvalidPlaylist err)); [discriminate|].
    destruct (GetVideoContext client url); [|discriminate].
    intros [= <- <- <-]. cbn. rewrite app_nil_r. reflexivity.
Qed.

Lemma filter_emit (stage : string) (event : Progress.YouTubeImportProgress)
    (log : list Progress.YouTubeImportProgress) :
  List.filter (isStage stage) (emitProgress true event log) =
  (List.filter (isStage stage) log ++
     if isStage stage event then [event] else [])%list.
Proof. rewrite emitProgress_on, List.filter_app. reflexivity. Qed.

Lemma filter_none {A : Type} (p : A -> bool) (l : list A) :
  (forall x, In x l -> p x = false) -> List.filter p l = [].
Proof.
  induction l as [|x l IH]; intros H; [reflexivity|].
  cbn [List.filter]. rewrite (H x (or_introl eq_refl)). apply IH.
  intros y Hy. apply H. right. exact Hy.
Qed.

Lemma playlistEvents_no_stage (stage : string) (progress : bool) (client : Client)
    (entries : list PlaylistEntry) :
  String.eqb "error" stage = false ->
  forall log,
    List.filter (isStage stage) (playlistEvents progress client entries log) =
    List.filter (isStage stage) log.
Proof.
  intros Hstage. induction entries as [|entry rest IH]; intros log; [reflexivity|].
  cbn [playlistEvents]. destruct (VideoFromPlaylistEntryContext client entry); [apply IH|].
  rewrite IH. destruct progress; [|reflexivity].
  rewrite filter_emit. unfold isStage at 2. cbn [Progress.Stage Progress.unresolved].
  rewrite Hstage, app_nil_r. reflexivity.
Qed.

Section LifecycleEvents.

Variable formatLess : Format -> Format -> bool.
Variable quote : string -> string.
Variables bucketName prefix : string.
Variable client : Client.

(** The [starting] event of an item is the one event of that stage the
    item sends. *)
Lemma stepEvents_starting (kind : string) (total : Z) (i : nat) (ls : LoopState)
    (video : Video) (log : list Progress.YouTubeImportProgress) :
  List.map announcement
    (List.filter (isStage "starting")
       (stepEvents formatLess quote true kind total bucketName prefix client i ls video
          log)) =
  (List.map announcement (List.filter (isStage "starting") log) ++
     [(Z.of_nat i + 1, total, Title video, ID video)])%list.
Proof.
  unfold stepEvents. cbv zeta. rewrite fold_emit_on.
  assert (Hsamples : forall (f : Sample -> Progress.YouTubeImportProgress) l,
             (forall s, Progress.Stage (f s) = "downloading") ->
             List.filter (isStage "starting") (List.map f l) = []).
  { intros f l Hf. apply filter_none. intros e He.
    apply in_map_iff in He as (s0 & <- & _). unfold isStage. rewrite Hf. reflexivity. }
  destruct (outcome _) as [[item [|]]|text];
    rewrite filter_emit, List.filter_app, filter_emit, Hsamples by reflexivity;
    unfold isStage at 2 3;
    cbn [Progress.Stage Progress.starting Progress.skipped Progress.downloaded
           Progress.failed];
    eval_stage_tests; rewrite !app_nil_r, map_app; reflexivity.
Qed.

Lemma loopEvents_starting (kind : string) (total : Z) (ctxErr : nat -> option string)
    (videos : list Video) :
  forall (i : nat) (ls : LoopState) (log : list Progress.YouTubeImportProgress),
    (forall j, (j < length videos)%nat -> ctxErr (i + j)%nat = None) ->
    List.map announcement
      (List.filter (isStage "starting")
         (loopEvents formatLess quote true kind total ctxErr bucketName prefix client i
            videos ls log)) =
    (List.map announcement (List.filter (isStage "starting") log) ++
       imap (fun j video => (Z.of_nat (i + j) + 1, total, Title video, ID video)) videos)%list.
Proof.
  induction videos as [|video rest IH]; intros i ls log Hok.
  - cbn. rewrite app_nil_r. reflexivity.
  - cbn [loopEvents]. pose proof (Hok O) as H0. rewrite Nat.add_0_r in H0.
    rewrite H0 by (cbn; lia).
    rewrite IH, stepEvents_starting.
    2: { intros j Hj. replace (S i + j)%nat with (i + S j)%nat by lia. apply Hok. cbn. lia. }
    rewrite <- app_assoc. cbn [app imap]. rewrite Nat.add_0_r. f_equal. f_equal.
    apply imap_ext. intros j v _. cbn [compose].
    replace (S i + j)%nat with (i + S j)%nat by lia. reflexivity.
Qed.

(** No item sends a [finished] event. *)
Lemma stepEvents_not_finished (progress : bool) (kind : string) (total : Z) (i : nat)
    (ls : LoopState) (video : Video) (log : list Progress.YouTubeImportProgress) :
  List.filter (isStage "finished")
    (stepEvents formatLess quote progress kind total bucketName prefix client i ls video log) =
  List.filter (isStage "finished") log.
Proof.
  destruct progress; [|rewrite stepEvents_off; reflexivity].
  unfold stepEvents. cbv zeta. rewrite fold_emit_on.
  assert (Hsamples : forall (f : Sample -> Progress.YouTubeImportProgress) l,
             (forall s, Progress.Stage (f s) = "downloading") ->
             List.filter (isStage "finished") (List.map f l) = []).
  { intros f l Hf. apply filter_none. intros e He.
    apply in_map_iff in He as (s0 & <- & _). unfold isStage. rewrite Hf. reflexivity. }
  destruct (outcome _) as [[item [|]]|text];
    rewrite filter_emit, List.filter_app, filter_emit, Hsamples by reflexivity;
    unfold isStage at 2 3;
    cbn [Progress.Stage Progress.starting Progress.skipped Progress.downloaded
           Progress.failed];
    eval_stage_tests; rewrite !app_nil_r; reflexivity.
Qed.

Lemma loopEvents_not_finished (progress : bool) (kind : string) (total : Z)
    (ctxErr : nat -> option string) (videos : list Video) :
  forall (i : nat) (ls : LoopState) (log : list Progress.YouTubeImportProgress),
    List.filter (isStage "finished")
      (loopEvents formatLess quote progress kind total ctxErr bucketName prefix client i
         videos ls log) =
    List.filter (isStage "finished") log.
Proof.
  induction videos as [|video rest IH]; intros i ls log; [reflexivity|].
  cbn [loopEvents]. destruct (ctxErr i); [reflexivity|].
  rewrite IH. apply stepEvents_not_finished.
Qed.

End LifecycleEvents.

Section ImportLifecycle.

Variable formatLess : Format -> Format -> bool.
Variable quote : string -> string.

(** X25: the life cycle of a batch that returns its result, as an
    observer sees it.  The stages of the events are [resolving], one
    [error] for each entry that did not resolve, [resolved], then for
    each resolved video in turn [starting], a number of [downloading]
    samples and one of [downloaded], [skipped] and [error], and at the
    very end [finished].  As many items end in [downloaded] as the
    result holds items, and the [error] events are as many as the
    errors of the result; the [finished] event carries the counters of
    the result. *)
Theorem ImportYouTubeEvents_lifecycle
    (s : BucketService) (input : YouTubeImportInput) (ls : LoopState) :
  ImportYouTube formatLess s input = inl ls ->
  exists videos kind r runs before,
    resolveYouTubeVideos (youtubeClient s) (TrimSpace (URL input)) emptyResult =
      inl (videos, kind, r) /\
    length runs = length videos /\
    Forall (fun run => snd run = "downloaded" \/ snd run = "skipped" \/ snd run = "error")
      runs /\
    List.map Progress.Stage (ImportYouTubeEvents formatLess quote s input true) =
      ("resolving" :: repeat "error" (length (Errors r)) ++
       "resolved" :: concat (List.map itemStages runs) ++ ["finished"])%list /\
    countStage "downloaded" runs = length (Items (result ls)) /\
    (length (Errors r) + countStage "error" runs = length (Errors (result ls)))%nat /\
    ImportYouTubeEvents formatLess quote s input true =
      (before ++
       [Progress.finished kind (Imported (result ls))
          (Z.of_nat (length (Errors (result ls)))) (Skipped (result ls))
          (Z.of_nat (length videos)) (TotalBytes (result ls))])%list.
Proof.
  intros Hrun. unfold ImportYouTube in Hrun. fold emptyResult in Hrun.
  unfold ImportYouTubeEvents.
  destruct (isEmpty (TrimSpace (URL input))); [discriminate Hrun|].
  destruct (getBucketName s) as [bucketName|]; [|discriminate Hrun].
  destruct (GetObjectStore s) as [st|]; [|discriminate Hrun].
  destruct (resolveYouTubeVideos (youtubeClient s) (TrimSpace (URL input)) emptyResult)
    as [[[videos kind] r]|] eqn:Hres; [|discriminate Hrun].
  cbv zeta. rewrite Hrun.
  set (prefix := normalizeObjectPrefix (DestinationPrefix input)) in *.
  set (ls0 := {| result := withKind r kind; store := st;
                 obs := {| clock := startClock s; emitted := [] |} |}) in *.
  set (log0 := emitProgress true (Progress.resolved kind (Z.of_nat (length videos)) prefix)
                 (resolveEvents true (youtubeClient s) (TrimSpace (URL input))
                    (emitProgress true (Progress.resolving prefix) []))).
  destruct (loopEvents_stages formatLess quote bucketName prefix (youtubeClient s) kind
              (Z.of_nat (length videos)) (ctxErr s) videos O ls0 log0)
    as (runs & Hlen & Hterm & Hstages & Hitems & Herrs).
  { intros j Hj. exact (importLoop_returned _ _ _ _ _ _ _ _ _ Hrun j Hj). }
  rewrite <- (importLoop_steps formatLess bucketName prefix (youtubeClient s) (ctxErr s)
                videos O ls0 ls Hrun) in Hitems, Herrs.
  assert (Hempty : Items r = []).
  { destruct (resolveYouTubeVideos_inv _ _ _ _ _ Hres)
      as [(playlist & _ & _ & _ & _ & _ & _ & H) | (err & video & _ & _ & _ & _ & _ & ->)];
      [exact H | reflexivity]. }
  cbn [ls0 result withKind Items Errors] in Hitems, Herrs.
  rewrite Hempty in Hitems. cbn [length Nat.add] in Hitems.
  exists videos, kind, r, runs. eexists.
  split; [reflexivity|]. split; [exact Hlen|]. split; [exact Hterm|].
  split; [|split; [symmetry; exact Hitems | split; [symmetry; exact Herrs | reflexivity]]].
  rewrite emitProgress_on, map_app, Hstages. subst log0.
  rewrite emitProgress_on, map_app, (resolveEvents_stages _ _ _ _ _ _ Hres).
  rewrite emitProgress_on. cbn [app List.map Progress.Stage Progress.resolving
                                  Progress.resolved Progress.finished].
  rewrite <- !app_assoc. reflexivity.
Qed.

(** X26: every resolved video is announced once, in the order of the
    batch: the [starting] events of a batch that returns its result
    carry the one-based index of the video, the number of resolved
    videos, and the title and the identifier of the video. *)
Theorem ImportYouTubeEvents_announcements
    (s : BucketService) (input : YouTubeImportInput) (ls : LoopState) :
  ImportYouTube formatLess s input = inl ls ->
  exists videos kind r,
    resolveYouTubeVideos (youtubeClient s) (TrimSpace (URL input)) emptyResult =
      inl (videos, kind, r) /\
    List.map announcement
      (List.filter (isStage "starting") (ImportYouTubeEvents formatLess quote s input true)) =
    imap (fun i video =>
            (Z.of_nat i + 1, Z.of_nat (length videos), Title video, ID video)) videos.
Proof.
  intros Hrun. unfold ImportYouTube in Hrun. fold emptyResult in Hrun.
  unfold ImportYouTubeEvents.
  destruct (isEmpty (TrimSpace (URL input))); [discriminate Hrun|].
  destruct (getBucketName s) as [bucketName|]; [|discriminate Hrun].
  destruct (GetObjectStore s) as [st|]; [|discriminate Hrun].
  destruct (resolveYouTubeVideos (youtubeClient s) (TrimSpace (URL input)) emptyResult)
    as [[[videos kind] r]|] eqn:Hres; [|discriminate Hrun].
  cbv zeta. rewrite Hrun. exists videos, kind, r. split; [reflexivity|].
  rewrite filter_emit. unfold isStage at 2. cbn [Progress.Stage Progress.finished].
  eval_stage_tests. rewrite app_nil_r.
  rewrite (loopEvents_starting formatLess quote)
    by (intros j Hj; exact (importLoop_returned _ _ _ _ _ _ _ _ _ Hrun j Hj)).
  rewrite filter_emit. unfold isStage at 2. cbn [Progress.Stage Progress.resolved].
  eval_stage_tests. rewrite app_nil_r.
  assert (Hnone : List.filter (isStage "starting")
                    (resolveEvents true (youtubeClient s) (TrimSpace (URL input))
                       (emitProgress true
                          (Progress.resolving
                             (normalizeObjectPrefix (DestinationPrefix input))) [])) = []).
  { unfold resolveEvents.
    destruct (GetPlaylistContext (youtubeClient s) (TrimSpace (URL input)));
      [rewrite playlistEvents_no_stage by reflexivity|]; reflexivity. }
  rewrite Hnone. reflexivity.
Qed.

(** X27: when the observer is called.  Without an observer nothing is
    sent.  A batch that returns an error, be it a fatal one or the
    cancellation of the context, never sends [finished]; a batch that
    returns its result sends [finished] once. *)
Theorem ImportYouTubeEvents_finished (s : BucketService) (input : YouTubeImportInput) :
  ImportYouTubeEvents formatLess quote s input false = [] /\
  (forall progress text,
     ImportYouTube formatLess s input = inr text ->
     List.filter (isStage "finished")
       (ImportYouTubeEvents formatLess quote s input progress) = []) /\
  (forall ls,
     ImportYouTube formatLess s input = inl ls ->
     length (List.filter (isStage "finished")
               (ImportYouTubeEvents formatLess quote s input true)) = 1%nat).
Proof.
  assert (Hbefore : forall progress bucketName st videos kind r,
            List.filter (isStage "finished")
              (loopEvents formatLess quote progress kind (Z.of_nat (length videos))
                 (ctxErr s) bucketName (normalizeObjectPrefix (DestinationPrefix input))
                 (youtubeClient s) O videos
                 {| result := withKind r kind; store := st;
                    obs := {| clock := startClock s; emitted := [] |} |}
                 (emitProgress progress
                    (Progress.resolved kind (Z.of_nat (length videos))
                       (normalizeObjectPrefix (DestinationPrefix input)))
                    (resolveEvents progress (youtubeClient s) (TrimSpace (URL input))
                       (emitProgress progress
                          (Progress.resolving
                             (normalizeObjectPrefix (DestinationPrefix input))) [])))) = []).
  { intros progress bucketName st videos kind r.
    rewrite loopEvents_not_finished.
    destruct progress; [|rewrite !emitProgress_off, resolveEvents_off; reflexivity].
    rewrite filter_emit. unfold isStage at 2. cbn [Progress.Stage Progress.resolved].
    eval_stage_tests. rewrite app_nil_r. unfold resolveEvents.
    destruct (GetPlaylistContext (youtubeClient s) (TrimSpace (URL input)));
      [rewrite playlistEvents_no_stage by reflexivity|]; reflexivity. }
  split; [|split].
  - unfold ImportYouTubeEvents.
    destruct (isEmpty (TrimSpace (URL input))); [reflexivity|].
    destruct (getBucketName s) as [bucketName|]; [|reflexivity].
    destruct (GetObjectStore s) as [st|]; [|reflexivity].
    cbv zeta. rewrite !emitProgress_off, resolveEvents_off.
    destruct (resolveYouTubeVideos _ _ _) as [[[videos kind] r]|]; [|reflexivity].
    rewrite loopEvents_off.
    destruct (importLoop _ _ _ _ _ _ _ _); reflexivity.
  - intros progress text Hrun. unfold ImportYouTube in Hrun. fold emptyResult in Hrun.
    unfold ImportYouTubeEvents.
    destruct (isEmpty (TrimSpace (URL input))); [reflexivity|].
    destruct (getBucketName s) as [bucketName|]; [|reflexivity].
    destruct (GetObjectStore s) as [st|]; [|reflexivity].
    cbv zeta.
    destruct (resolveYouTubeVideos (youtubeClient s) (TrimSpace (URL input)) emptyResult)
      as [[[videos kind] r]|] eqn:Hres.
    + rewrite Hrun. apply Hbefore.
    + unfold resolveEvents. unfold resolveYouTubeVideos in Hres.
      destruct (GetPlaylistContext (youtubeClient s) (TrimSpace (URL input))) as [playlist|err].
      * destruct (videosFromPlaylist _ _ _ _). discriminate Hres.
      * destruct progress; reflexivity.
  - intros ls Hrun. unfold ImportYouTube in Hrun. fold emptyResult in Hrun.
    unfold ImportYouTubeEvents.
    destruct (isEmpty (TrimSpace (URL input))); [discriminate Hrun|].
    destruct (getBucketName s) as [bucketName|]; [|discriminate Hrun].
    destruct (GetObjectStore s) as [st|]; [|discriminate Hrun].
    destruct (resolveYouTubeVideos (youtubeClient s) (TrimSpace (URL input)) emptyResult)
      as [[[videos kind] r]|] eqn:Hres; [|discriminate Hrun].
    cbv zeta. rewrite Hrun, filter_emit, Hbefore. reflexivity.
Qed.

End ImportLifecycle.

(** The playlist of five entries, as the observer sees it. *)
Lemma ImportYouTubeEvents_lifecycle_witness :
  List.map Progress.Stage (ImportYouTubeEvents byBitrate markQuote batchService batchInput true) =
    ["resolving"; "error"; "resolved";
     "starting"; "downloading"; "downloaded";
     "starting"; "downloading"; "downloaded";
     "starting"; "error";
     "starting"; "skipped";
     "finished"] /\
  exists ls videos kind r runs before,
    ImportYouTube byBitrate batchService batchInput = inl ls /\
    resolveYouTubeVideos (youtubeClient batchService) (TrimSpace (URL batchInput))
      emptyResult = inl (videos, kind, r) /\
    length runs = length videos /\
    Forall (fun run => snd run = "downloaded" \/ snd run = "skipped" \/ snd run = "error")
      runs /\
    List.map Progress.Stage (ImportYouTubeEvents byBitrate markQuote batchService batchInput
                               true) =
      ("resolving" :: repeat "error" (length (Errors r)) ++
       "resolved" :: concat (List.map itemStages runs) ++ ["finished"])%list /\
    countStage "downloaded" runs = length (Items (result ls)) /\
    (length (Errors r) + countStage "error" runs = length (Errors (result ls)))%nat /\
    ImportYouTubeEvents byBitrate markQuote batchService batchInput true =
      (before ++
       [Progress.finished kind (Imported (result ls))
          (Z.of_nat (length (Errors (result ls)))) (Skipped (result ls))
          (Z.of_nat (length videos)) (TotalBytes (result ls))])%list.
Proof.
  split; [vm_compute; reflexivity|].
  eexists.
  refine ((fun H => let '(ex_intro _ videos (ex_intro _ kind (ex_intro _ r
                           (ex_intro _ runs (ex_intro _ before P))))) :=
                      ImportYouTubeEvents_lifecycle byBitrate markQuote batchService batchInput
                        _ H in
                    ex_intro _ videos (ex_intro _ kind (ex_intro _ r
                      (ex_intro _ runs (ex_intro _ before (conj H P)))))) _).
  vm_compute. reflexivity.
Defined.

Lemma ImportYouTubeEvents_announcements_witness :
  exists ls,
    ImportYouTube byBitrate batchService batchInput = inl ls /\
    List.map announcement
      (List.filter (isStage "starting")
         (ImportYouTubeEvents byBitrate markQuote batchService batchInput true)) =
    [(1, 4, "Same Title", "a1"); (2, 4, "Same  Title!", "b2");
     (3, 4, "Silent", "m4"); (4, 4, "Same Title", "a1")] /\
    exists videos kind r,
      resolveYouTubeVideos (youtubeClient batchService) (TrimSpace (URL batchInput))
        emptyResult = inl (videos, kind, r) /\
      List.map announcement
        (List.filter (isStage "starting")
           (ImportYouTubeEvents byBitrate markQuote batchService batchInput true)) =
      imap (fun i video =>
              (Z.of_nat i + 1, Z.of_nat (length videos), Title video, ID video)) videos.
Proof.
  eexists. split; [vm_compute; reflexivity|]. split; [vm_compute; reflexivity|].
  eapply (ImportYouTubeEvents_announcements byBitrate markQuote batchService batchInput).
  vm_compute. reflexivity.
Defined.

(* ===================================================================== *)
(** ** The samples reach the observer *)
(* ===================================================================== *)

Lemma readBody_emitted (steps : list (Z * ReadErr)) :
  forall (p : progressReader) (o : Obs),
    exists extra, emitted (snd (readBody steps p o)) = (emitted o ++ extra)%list.
Proof.
  induction steps as [|step rest IH]; intros p o; cbn [readBody];
    destruct (progressReader_Read p o) as [[[n err] p1] o1] eqn:Hr;
    destruct (progressReader_Read_core _ _ _ _ _ Hr)
      as (_ & _ & _ & _ & _ & e1 & He1 & _).
  - exists e1. exact He1.
  - destruct err; try (exists e1; exact He1).
    destruct (IH p1 o1) as [e2 He2]. exists (e1 ++ e2)%list.
    rewrite He2, He1, <- app_assoc. reflexivity.
Qed.

Lemma PutObject_emitted (st : ObjectStore) (bucketName key contentType : string)
    (p : progressReader) (o : Obs) (metadata : gmap string string) :
  exists extra,
    emitted (snd (PutObject st bucketName key p o contentType metadata)) =
    (emitted o ++ extra)%list.
Proof.
  unfold PutObject. destruct (nextFault (putFaults st)).
  - exists []. cbn. rewrite app_nil_r. reflexivity.
  - destruct (readBody_emitted (pending (rc p)) p o) as [extra He].
    destruct (readBody (pending (rc p)) p o) as [[err p1] o1]. cbn [snd] in He.
    exists extra. destruct err; exact He.
Qed.

Section SamplesFacts.

Variable formatLess : Format -> Format -> bool.
Variable quote : string -> string.
Variables bucketName prefix : string.
Variable client : Client.

(** A transfer only adds to the samples emitted. *)
Lemma download_emitted (st : ObjectStore) (o : Obs) (video : Video) :
  exists extra,
    emitted (obsAfter (downloadYouTubeVideo formatLess st o bucketName prefix client video)) =
    (emitted o ++ extra)%list.
Proof.
  assert (Hsame : forall d, obsAfter d = o ->
                            exists extra, emitted (obsAfter d) = (emitted o ++ extra)%list).
  { intros d ->. exists []. rewrite app_nil_r. reflexivity. }
  destruct (selectYouTubeFormat formatLess video) as [f|text] eqn:Ef.
  2: { rewrite (download_no_format formatLess st o bucketName prefix client video text Ef).
       apply Hsame. reflexivity. }
  destruct (GetStreamContext client video f) as [[stream hint]|err] eqn:Es.
  2: { rewrite (download_no_stream formatLess st o bucketName prefix client video f err
                  Ef Es).
       apply Hsame. reflexivity. }
  pose proof (download_decision formatLess st o bucketName prefix client video
                f stream hint Ef Es) as D. cbv zeta in D.
  destruct (transferDecision _ _ _ _ _) as [text|key|key].
  - destruct D as (_ & _ & Hobs & _). apply Hsame, Hobs.
  - destruct D as (_ & _ & Hobs & _). apply Hsame, Hobs.
  - destruct D as (p0 & o0 & putErr & st3 & p3 & Hnew & Hput & _).
    assert (H0 : emitted o0 = emitted o).
    { unfold newProgressReader in Hnew. pose proof (timeNow_emitted o) as Ht.
      destruct (timeNow o) as [now o1]. injection Hnew as _ <-. exact Ht. }
    match type of Hput with
    | PutObject ?a ?b ?c ?d ?e ?f ?g = _ =>
        destruct (PutObject_emitted a b c f d e g) as [extra He]
    end.
    rewrite Hput in He. cbn [snd] in He. exists extra. rewrite He, H0. reflexivity.
Qed.

Lemma stepEvents_samples (kind : string) (total : Z) (i : nat) (ls : LoopState)
    (video : Video) (log : list Progress.YouTubeImportProgress) :
  exists new,
    emitted (obs (importStep formatLess bucketName prefix client ls video)) =
      (emitted (obs ls) ++ new)%list /\
    List.map eventCounters
      (List.filter (isStage "downloading")
         (stepEvents formatLess quote true kind total bucketName prefix client i ls video
            log)) =
    (List.map eventCounters (List.filter (isStage "downloading") log) ++
       List.map sampleCounters new)%list.
Proof.
  destruct (download_emitted (store ls) (obs ls) video) as [new Hnew].
  exists new. split; [exact Hnew|].
  unfold stepEvents. cbv zeta. rewrite fold_emit_on, Hnew.
  rewrite List.skipn_app, List.skipn_all, Nat.sub_diag. cbn [List.skipn app].
  assert (Hall : forall (f : Sample -> Progress.YouTubeImportProgress) l,
             (forall s, Progress.Stage (f s) = "downloading") ->
             List.filter (isStage "downloading") (List.map f l) = List.map f l).
  { intros f l Hf. induction l as [|x l IH]; [reflexivity|].
    cbn [List.map List.filter]. unfold isStage at 1. rewrite Hf, IH. reflexivity. }
  destruct (outcome _) as [[item [|]]|text];
    rewrite filter_emit, List.filter_app, filter_emit, Hall by reflexivity;
    unfold isStage at 2 3;
    cbn [Progress.Stage Progress.starting Progress.skipped Progress.downloaded
           Progress.failed];
    eval_stage_tests; rewrite !app_nil_r, map_app, List.map_map; reflexivity.
Qed.

Lemma loopEvents_samples (kind : string) (total : Z) (ctxErr : nat -> option string)
    (videos : list Video) :
  forall (i : nat) (ls : LoopState) (log : list Progress.YouTubeImportProgress),
    (forall j, (j < length videos)%nat -> ctxErr (i + j)%nat = None) ->
    exists new,
      emitted (obs (importSteps formatLess bucketName prefix client videos ls)) =
        (emitted (obs ls) ++ new)%list /\
      List.map eventCounters
        (List.filter (isStage "downloading")
           (loopEvents formatLess quote true kind total ctxErr bucketName prefix client i
              videos ls log)) =
      (List.map eventCounters (List.filter (isStage "downloading") log) ++
         List.map sampleCounters new)%list.
Proof.
  induction videos as [|video rest IH]; intros i ls log Hok.
  - exists []. cbn. rewrite !app_nil_r. split; reflexivity.
  - cbn [loopEvents]. pose proof (Hok O) as H0. rewrite Nat.add_0_r in H0.
    rewrite H0 by (cbn; lia). rewrite importSteps_cons.
    destruct (stepEvents_samples kind total i ls video log) as (new1 & Hem1 & Hev1).
    destruct (IH (S i) (importStep formatLess bucketName prefix client ls video)
                (stepEvents formatLess quote true kind total bucketName prefix client i ls
                   video log))
      as (new2 & Hem2 & Hev2).
    { intros j Hj. replace (S i + j)%nat with (i + S j)%nat by lia. apply Hok. cbn. lia. }
    exists (new1 ++ new2)%list. split.
    + rewrite Hem2, Hem1, <- app_assoc. reflexivity.
    + rewrite Hev2, Hev1, map_app, <- app_assoc. reflexivity.
Qed.

End SamplesFacts.

Section ImportSamples.

Variable formatLess : Format -> Format -> bool.
Variable quote : string -> string.

(** X28: every sample of the progress reader reaches the observer.  In
    a batch that returns its result, the [downloading] events carry, in
    their order, the byte count and the expected total of the samples
    the progress readers of the batch emitted. *)
Theorem ImportYouTubeEvents_samples
    (s : BucketService) (input : YouTubeImportInput) (ls : LoopState) :
  ImportYouTube formatLess s input = inl ls ->
  List.map eventCounters
    (List.filter (isStage "downloading") (ImportYouTubeEvents formatLess quote s input true)) =
  List.map sampleCounters (emitted (obs ls)).
Proof.
  intros Hrun. unfold ImportYouTube in Hrun. fold emptyResult in Hrun.
  unfold ImportYouTubeEvents.
  destruct (isEmpty (TrimSpace (URL input))); [discriminate Hrun|].
  destruct (getBucketName s) as [bucketName|]; [|discriminate Hrun].
  destruct (GetObjectStore s) as [st|]; [|discriminate Hrun].
  destruct (resolveYouTubeVideos (youtubeClient s) (TrimSpace (URL input)) emptyResult)
    as [[[videos kind] r]|] eqn:Hres; [|discriminate Hrun].
  cbv zeta. rewrite Hrun.
  rewrite filter_emit. unfold isStage at 2. cbn [Progress.Stage Progress.finished].
  eval_stage_tests. rewrite app_nil_r.
  match goal with
  | |- context [loopEvents _ _ _ ?k ?t ?c ?b ?p ?cl ?i ?vs ?l0 ?lg] =>
      destruct (loopEvents_samples formatLess quote b p cl k t c vs i l0 lg)
        as (new & Hem & Hev)
  end.
  { intros j Hj. exact (importLoop_returned _ _ _ _ _ _ _ _ _ Hrun j Hj). }
  rewrite Hev.
  rewrite <- (importLoop_steps formatLess _ _ _ _ _ _ _ _ Hrun) in Hem.
  cbn [obs emitted app] in Hem. rewrite Hem.
  rewrite filter_emit. unfold isStage at 2. cbn [Progress.Stage Progress.resolved].
  eval_stage_tests. rewrite app_nil_r.
  assert (Hnone : List.filter (isStage "downloading")
                    (resolveEvents true (youtubeClient s) (TrimSpace (URL input))
                       (emitProgress true
                          (Progress.resolving
                             (normalizeObjectPrefix (DestinationPrefix input))) [])) = []).
  { unfold resolveEvents.
    destruct (GetPlaylistContext (youtubeClient s) (TrimSpace (URL input)));
      [rewrite playlistEvents_no_stage by reflexivity|]; reflexivity. }
  rewrite Hnone. reflexivity.
Qed.

End ImportSamples.

Lemma ImportYouTubeEvents_samples_witness :
  exists ls,
    ImportYouTube byBitrate batchService batchInput = inl ls /\
    List.map sampleCounters (emitted (obs ls)) = [(1000, 1000); (1000, 1000)] /\
    List.map eventCounters
      (List.filter (isStage "downloading")
         (ImportYouTubeEvents byBitrate markQuote batchService batchInput true)) =
    List.map sampleCounters (emitted (obs ls)).
Proof.
  eexists. split; [vm_compute; reflexivity|]. split; [vm_compute; reflexivity|].
  eapply (ImportYouTubeEvents_samples byBitrate markQuote batchService batchInput).
  vm_compute. reflexivity.
Defined.

(* ===================================================================== *)
(** * The properties the specification states *)
(* ===================================================================== *)


(* ===================================================================== *)
(** ** C1: every resolved item is accounted for *)
(* ===================================================================== *)

(** C1: when [ImportYouTube] returns a result, the imported and the
    skipped items and the recorded errors add up to the number of items
    the resolver yielded: the entries of the playlist, those that failed
    to resolve included, or one for a single video.  (The counters are
    of type [int]; the number of entries of a Go slice fits in it.) *)
Theorem ImportYouTube_accounting
    (formatLess : Format -> Format -> bool)
    (s : BucketService) (input : YouTubeImportInput) (ls : LoopState) :
  ImportYouTube formatLess s input = inl ls ->
  Z.of_nat (resolvedItems (youtubeClient s) (TrimSpace (URL input))) <= max_int64 ->
  Imported (result ls) + Skipped (result ls) + Z.of_nat (length (Errors (result ls))) =
  Z.of_nat (resolvedItems (youtubeClient s) (TrimSpace (URL input))).
Proof.
  intros Hrun Hmax.
  destruct (ImportYouTube_inv _ _ _ _ Hrun)
    as (bucketName & st & videos & kind & r0 & _ & _ & Hres & ->).
  set (ls0 := {| result := withKind r0 kind; store := st; obs := _ |}).
  assert (Hcount : (length videos + length (Errors r0) =
                    resolvedItems (youtubeClient s) (TrimSpace (URL input)))%nat /\
                   Imported r0 = 0 /\ Skipped r0 = 0).
  { unfold resolvedItems.
    destruct (resolveYouTubeVideos_inv _ _ _ _ _ Hres)
      as [(pl & -> & _ & Hlen & Hi & Hs & _) | (err & v & -> & _ & _ & _ & -> & ->)];
      auto. }
  destruct Hcount as (Hlen & Hi & Hs).
  destruct (steps_accounting formatLess bucketName
              (normalizeObjectPrefix (DestinationPrefix input)) (youtubeClient s)
              videos ls0 0 0) as (a & b & c & Hsum & Ha & Hb & Hc);
    [exact Hi | exact Hs |].
  rewrite Ha, Hb, Hc. simpl Errors.
  unfold max_int64 in Hmax. rewrite pow63 in Hmax.
  rewrite !wrap64_small by (unfold min_int64, max_int64; rewrite pow63; lia).
  lia.
Qed.

(** The playlist of five entries: two imported, one skipped, two errors. *)
Lemma ImportYouTube_accounting_witness :
  exists ls,
    ImportYouTube byBitrate batchService batchInput = inl ls /\
    Z.of_nat (resolvedItems (youtubeClient batchService) (TrimSpace (URL batchInput)))
      <= max_int64 /\
    Imported (result ls) = 2 /\ Skipped (result ls) = 1 /\
    length (Errors (result ls)) = 2%nat /\
    Imported (result ls) + Skipped (result ls) + Z.of_nat (length (Errors (result ls))) =
    Z.of_nat (resolvedItems (youtubeClient batchService) (TrimSpace (URL batchInput))).
Proof.
  eexists. split; [vm_compute; reflexivity|].
  split; [vm_compute; discriminate|].
  split; [reflexivity|]. split; [reflexivity|]. split; [reflexivity|].
  apply (ImportYouTube_accounting byBitrate batchService batchInput);
    [vm_compute; reflexivity | vm_compute; discriminate].
Defined.

(* ===================================================================== *)
(** ** C2: the order of the naming and de-duplication plan *)
(* ===================================================================== *)




(* ===================================================================== *)
(** ** C3: the destination keys of one batch *)
(* ===================================================================== *)

(** C3, as stated, fails: two items whose titles give the same base
    name, one with an audio encoding and one with a video encoding, are
    imported under their two primary keys; the second does not fall back
    to its legacy key. *)
Lemma ImportYouTube_same_name_other_extension :
  ID videoC <> ID videoB /\
  buildYouTubeBaseName (Title videoC) = buildYouTubeBaseName (Title videoB) /\
  legacyKeyOf EmptyString videoB fmtMp4 = "Same-Title-b2.mp4" /\
  exists ls,
    ImportYouTube byBitrate mixedService mixedInput = inl ls /\
    List.map VideoID (Items (result ls)) = ["c3"; "b2"] /\
    List.map Key (Items (result ls)) = ["Same-Title.m4a"; "Same-Title.mp4"].
Proof.
  split; [discriminate|]. split; [reflexivity|]. split; [reflexivity|].
  eexists. split; [vm_compute; reflexivity|]. split; reflexivity.
Qed.

(** C3 (amended): as long as the store reports an absent object only
    for an absent object, the items of a returned result have pairwise
    distinct keys.  And when the loop imports an item and later another
    one with the same base name and the same extension, that is with the
    same primary key, the later one is stored under its legacy key, and
    the two keys differ. *)
Theorem ImportYouTube_distinct_keys
    (formatLess : Format -> Format -> bool)
    (s : BucketService) (input : YouTubeImportInput) (ls : LoopState) :
  ImportYouTube formatLess s input = inl ls ->
  (forall st, GetObjectStore s = inl st -> soundFaults (headFaults st)) ->
  NoDup (List.map Key (Items (result ls))) /\
  (forall bucketName prefix client ls0 v1 between v2 f1 stream1 hint1 f2 stream2 hint2 x y,
     let ls1 := importStep formatLess bucketName prefix client ls0 v1 in
     let ls2 := importSteps formatLess bucketName prefix client between ls1 in
     soundFaults (headFaults (store ls0)) ->
     selectYouTubeFormat formatLess v1 = inl f1 ->
     GetStreamContext client v1 f1 = inl (stream1, hint1) ->
     selectYouTubeFormat formatLess v2 = inl f2 ->
     GetStreamContext client v2 f2 = inl (stream2, hint2) ->
     outcome (downloadYouTubeVideo formatLess (store ls0) (obs ls0) bucketName prefix
                client v1) = inl (x, false) ->
     outcome (downloadYouTubeVideo formatLess (store ls2) (obs ls2) bucketName prefix
                client v2) = inl (y, false) ->
     buildYouTubeBaseName (Title v1) = buildYouTubeBaseName (Title v2) ->
     extensionFromMime (MimeType (withSizeHint f1 hint1)) =
       extensionFromMime (MimeType (withSizeHint f2 hint2)) ->
     Key y = legacyKeyOf prefix v2 (withSizeHint f2 hint2) /\ Key x <> Key y).
Proof.
  intros Hrun Hsound. split.
  - destruct (ImportYouTube_inv _ _ _ _ Hrun)
      as (bucketName & st & videos & kind & r0 & _ & Hst & Hres & ->).
    apply steps_keysStored. repeat split; simpl.
    + now apply Hsound.
    + replace (Items r0) with (@nil YouTubeImportedItem); [constructor|].
      destruct (resolveYouTubeVideos_inv _ _ _ _ _ Hres)
        as [(pl & _ & _ & _ & _ & _ & _ & ->) | (err & v & _ & _ & _ & _ & _ & ->)];
        reflexivity.
    + replace (Items r0) with (@nil YouTubeImportedItem); [constructor|].
      destruct (resolveYouTubeVideos_inv _ _ _ _ _ Hres)
        as [(pl & _ & _ & _ & _ & _ & _ & ->) | (err & v & _ & _ & _ & _ & _ & ->)];
        reflexivity.
  - intros bucketName prefix client ls0 v1 between v2 f1 stream1 hint1 f2 stream2 hint2
      x y ls1 ls2 Hs0 Hsel1 Hopen1 Hsel2 Hopen2 Hx Hy Hbase Hext.
    assert (Hpk : primaryKeyOf prefix v1 (withSizeHint f1 hint1) =
                  primaryKeyOf prefix v2 (withSizeHint f2 hint2))
      by (unfold primaryKeyOf, buildYouTubeFilename; now rewrite Hbase, Hext).
    destruct (step_result formatLess bucketName prefix client ls0 v1) as (Hst1 & _ & _).
    fold ls1 in Hst1.
    pose proof (download_imported_primary formatLess _ _ _ _ _ _ _ _ _ _
                  Hs0 Hsel1 Hopen1 Hx) as Hp1.
    rewrite <- Hst1 in Hp1.
    pose proof (download_store formatLess (store ls0) (obs ls0) bucketName prefix client
                  v1 Hs0) as [Hs1 Hobj1].
    rewrite Hx in Hobj1. destruct Hobj1 as (obj & _ & _ & Hobj1).
    rewrite <- Hst1 in Hs1, Hobj1.
    destruct (steps_store formatLess bucketName prefix client between ls1 Hs1)
      as (Hs2 & Hmono). fold ls2 in Hs2, Hmono.
    split.
    + apply (download_imported_legacy formatLess (store ls2) (obs ls2) bucketName prefix
               client v2 f2 stream2 hint2 y Hs2 Hsel2 Hopen2); [|exact Hy].
      rewrite <- Hpk. now apply Hmono.
    + intros Heq.
      pose proof (download_store formatLess (store ls2) (obs ls2) bucketName prefix client
                    v2 Hs2) as [_ Hobj2].
      rewrite Hy in Hobj2. destruct Hobj2 as (obj2 & Hfree & _).
      assert (Hin : is_Some (objects (store ls2) !! Key x)).
      { apply Hmono. rewrite Hobj1, lookup_insert_eq. eauto. }
      rewrite Heq, Hfree in Hin. now destruct Hin.
Qed.

(** The playlist of five entries: [videoB] has the primary key of
    [videoA] and goes to its legacy key. *)
Lemma ImportYouTube_distinct_keys_witness :
  (forall st, GetObjectStore batchService = inl st -> soundFaults (headFaults st)) /\
  exists ls,
    ImportYouTube byBitrate batchService batchInput = inl ls /\
    List.map Key (Items (result ls)) = ["media/Same-Title.mp4"; "media/Same-Title-b2.mp4"] /\
    NoDup (List.map Key (Items (result ls))).
Proof.
  assert (Hsound : forall st, GetObjectStore batchService = inl st ->
                              soundFaults (headFaults st)).
  { intros st [= <-]. constructor. }
  split; [exact Hsound|].
  eexists. split; [vm_compute; reflexivity|]. split; [reflexivity|].
  refine (proj1 (ImportYouTube_distinct_keys byBitrate batchService batchInput _ _ Hsound)).
  vm_compute; reflexivity.
Defined.

(* ===================================================================== *)
(** ** C4: the total of the imported bytes *)
(* ===================================================================== *)

(** C4, as stated, fails when the sum of the sizes leaves the range of
    [int64].  An item whose upload counted no byte reports the length
    its encoding declares; two items that declare 6 * 10^18 bytes each
    are both imported, nothing is skipped, the sizes add up to
    12 * 10^18, and [TotalBytes], added up in [int64], is negative. *)
Lemma ImportYouTube_totalBytes_overflow :
  exists ls,
    ImportYouTube byBitrate hugeService mixedInput = inl ls /\
    List.map SizeBytes (Items (result ls)) =
      [6000000000000000000; 6000000000000000000] /\
    Skipped (result ls) = 0 /\
    sumSizes (Items (result ls)) = 12000000000000000000 /\
    TotalBytes (result ls) = -6446744073709551616 /\
    TotalBytes (result ls) <> sumSizes (Items (result ls)).
Proof.
  eexists. split; [vm_compute; reflexivity|].
  split; [reflexivity|]. split; [reflexivity|]. split; [reflexivity|].
  split; [reflexivity | discriminate].
Qed.

(** C4 (amended): when [ImportYouTube] returns a result, [TotalBytes]
    is the sum of [SizeBytes] over [Items] as [int64] addition gives it,
    that is the sum reduced modulo 2^64 into the range of [int64]; it is
    the sum itself whenever the sum lies in that range.  [Imported]
    counts the items.
    A transfer that reports a skip reports size 0, and its step of the
    loop leaves [Items] and [TotalBytes] as they were. *)
Theorem ImportYouTube_totalBytes
    (formatLess : Format -> Format -> bool)
    (s : BucketService) (input : YouTubeImportInput) (ls : LoopState) :
  ImportYouTube formatLess s input = inl ls ->
  TotalBytes (result ls) = sum64 (Items (result ls)) /\
  TotalBytes (result ls) = wrap64 (sumSizes (Items (result ls))) /\
  (min_int64 <= sumSizes (Items (result ls)) <= max_int64 ->
   TotalBytes (result ls) = sumSizes (Items (result ls))) /\
  Imported (result ls) = wrap64 (Z.of_nat (length (Items (result ls)))) /\
  (forall bucketName prefix client ls0 video item,
     outcome (downloadYouTubeVideo formatLess (store ls0) (obs ls0) bucketName prefix
                client video) = inl (item, true) ->
     SizeBytes item = 0 /\
     Items (result (importStep formatLess bucketName prefix client ls0 video)) =
       Items (result ls0) /\
     TotalBytes (result (importStep formatLess bucketName prefix client ls0 video)) =
       TotalBytes (result ls0)).
Proof.
  intros Hrun.
  destruct (ImportYouTube_inv _ _ _ _ Hrun)
    as (bucketName & st & videos & kind & r0 & _ & _ & Hres & ->).
  set (ls0 := {| result := withKind r0 kind; store := st; obs := _ |}).
  assert (H0 : TotalBytes r0 = 0 /\ Imported r0 = 0 /\ Items r0 = []).
  { destruct (resolveYouTubeVideos_inv _ _ _ _ _ Hres)
      as [(pl & _ & _ & _ & Hi & _ & Ht & Hit) | (err & v & _ & _ & _ & _ & _ & ->)];
      auto. }
  destruct H0 as (Ht & Hi & Hit).
  destruct (steps_items formatLess bucketName
              (normalizeObjectPrefix (DestinationPrefix input)) (youtubeClient s)
              videos ls0 0 0 Ht Hi) as (new & Hitems & Htotal & Himp).
  simpl Items in Hitems. rewrite Hit in Hitems. simpl in Hitems. rewrite Hitems.
  rewrite Htotal, Himp, !Z.add_0_l.
  split; [now rewrite sum64_wrap|].
  split; [reflexivity | split; [apply wrap64_small | split; [reflexivity|]]].
  intros b p c l v item Hout. unfold importStep. rewrite Hout.
  destruct (download_skipped_item _ _ _ _ _ _ _ _ Hout) as (key & ct & ->).
  repeat split.
Qed.

(** The playlist of five entries: two items of 1000 bytes each, a sum
    within the range of [int64], and the total is that sum. *)
Lemma ImportYouTube_totalBytes_witness :
  exists ls,
    ImportYouTube byBitrate batchService batchInput = inl ls /\
    List.map SizeBytes (Items (result ls)) = [1000; 1000] /\
    min_int64 <= sumSizes (Items (result ls)) <= max_int64 /\
    TotalBytes (result ls) = 2000 /\
    TotalBytes (result ls) = sum64 (Items (result ls)) /\
    TotalBytes (result ls) = sumSizes (Items (result ls)).
Proof.
  eexists. split; [vm_compute; reflexivity|].
  split; [reflexivity|].
  split; [vm_compute; split; discriminate|]. split; [reflexivity|].
  split.
  - refine (proj1 (ImportYouTube_totalBytes byBitrate batchService batchInput _ _)).
    vm_compute; reflexivity.
  - match goal with
    | |- TotalBytes (result ?l) = _ =>
        refine (proj1 (proj2 (proj2 (ImportYouTube_totalBytes byBitrate batchService
                                       batchInput l _))) _)
    end; [vm_compute; reflexivity | vm_compute; split; discriminate].
Defined.
(* ===================================================================== *)
(** ** C5: format selection *)
(* ===================================================================== *)




(* ===================================================================== *)
(** ** C6: the final sample of the progress reporter *)
(* ===================================================================== *)

(** C6: a fresh reporter with a callback makes a sequence of reads, the
    last of which returns [io.EOF].  Whatever the clock says and
    whatever the reads before the last return, the reads pass through
    unchanged, and the last call of the callback reports the bytes read
    from the stream (their count fits in an [int64]). *)
Theorem progressReader_final_sample
    (stream : Stream) (expected : Z) (o : Obs) (pre : list (Z * ReadErr)) (n : Z) :
  pending stream = (pre ++ [(n, ErrEOF)])%list ->
  streamBytes (pending stream) <= max_int64 ->
  let start := newProgressReader stream expected true o in
  let run := readTimes (length (pending stream)) (fst start) (snd start) in
  fst (fst run) = pending stream /\
  progressReader_BytesRead (snd (fst run)) = streamBytes (pending stream) /\
  exists earlier,
    emitted (snd run) =
    (emitted o ++ earlier ++
       [{| BytesRead := streamBytes (pending stream); TotalBytesExpected := expected |}])%list.
Proof.
  intros Hpend Hmax. cbv zeta.
  destruct (newProgressReader stream expected true o) as [p0 o0] eqn:Hstart.
  assert (H0 : rc p0 = stream /\ total p0 = expected /\ read p0 = wrap64 0 /\
               callback p0 = true /\ emitted o0 = emitted o).
  { unfold newProgressReader in Hstart.
    destruct (timeNow o) as [now o1] eqn:Hnow. injection Hstart as <- <-.
    unfold timeNow in Hnow. destruct (clock o); injection Hnow as _ <-; auto. }
  destruct H0 as (Hrc0 & Htot0 & Hread0 & Hcb0 & Hem0).
  rewrite Hpend, length_app, readTimes_app. cbn [fst snd].
  assert (Hpend0 : pending (rc p0) = (pre ++ [(n, ErrEOF)])%list) by now rewrite Hrc0.
  pose proof (readTimes_reads pre p0 o0 [(n, ErrEOF)] 0 Hpend0 Hread0) as H1.
  destruct (readTimes (length pre) p0 o0) as [[r1 p1] o1]. simpl in H1.
  destruct H1 as (-> & Hp1 & _ & Ht1 & Hc1 & Hr1 & e1 & He1).
  simpl. destruct (progressReader_Read p1 o1) as [[r p2] o2] eqn:Hr.
  destruct (progressReader_Read_effect _ _ _ _ _ _ _ _ Hp1 Hr)
    as (-> & _ & _ & Ht2 & Hc2 & Hr2 & e2 & He2 & Hlast).
  destruct Hlast as [earlier ->]; [congruence | reflexivity |].
  assert (Hbytes : read p2 = streamBytes (pre ++ [(n, ErrEOF)])%list).
  { pose proof (streamBytes_nonneg (pre ++ [(n, ErrEOF)])%list) as Hnn.
    rewrite Hpend in Hmax. rewrite streamBytes_app in Hmax, Hnn |- *.
    simpl in Hmax, Hnn |- *. rewrite Hr2, Hr1.
    unfold max_int64, min_int64 in *. rewrite pow63 in *.
    destruct (0 <? n); [rewrite add64_wrap|];
      (rewrite wrap64_small; [|unfold max_int64, min_int64; rewrite pow63]); lia. }
  simpl. repeat split.
  - exact Hbytes.
  - exists (e1 ++ earlier)%list.
    rewrite He2, He1, Hem0, Hbytes, Ht1, Htot0. now rewrite <- !app_assoc.
Qed.

(** The 1000-byte stream, with a clock that never leaves the first half
    second: the reads bring no sample, the end of the stream brings the
    one that reports 1000 bytes. *)
Lemma progressReader_final_sample_witness :
  pending body1000 = ([(400, ErrNil); (600, ErrNil)] ++ [(0, ErrEOF)])%list /\
  streamBytes (pending body1000) <= max_int64 /\
  exists earlier,
    emitted (snd (readTimes 3
                    (fst (newProgressReader body1000 1000 true
                            {| clock := [0; 1; 2; 3; 4]; emitted := [] |}))
                    (snd (newProgressReader body1000 1000 true
                            {| clock := [0; 1; 2; 3; 4]; emitted := [] |})))) =
    ([] ++ earlier ++ [{| BytesRead := 1000; TotalBytesExpected := 1000 |}])%list.
Proof.
  split; [reflexivity|].
  split; [vm_compute; discriminate|].
  exact (proj2 (proj2 (progressReader_final_sample body1000 1000
                         {| clock := [0; 1; 2; 3; 4]; emitted := [] |}
                         [(400, ErrNil); (600, ErrNil)] 0 eq_refl
                         ltac:(vm_compute; discriminate)))).
Defined.

(** The pace of the samples: the first read comes 0.6 s after the
    creation of the reader and is reported; the next two come within
    half a second of that report and are not; the end of the stream is
    reported although only 0.3 s have passed. *)
Example progressReader_throttled_samples :
  emitted (snd (readTimes 3 (fst (newProgressReader bodyThreeReads 1000 true slowClock))
                  (snd (newProgressReader bodyThreeReads 1000 true slowClock)))) =
  [{| BytesRead := 400; TotalBytesExpected := 1000 |};
   {| BytesRead := 1000; TotalBytesExpected := 1000 |}].
Proof. reflexivity. Qed.

(* ===================================================================== *)
(** ** C7: closing the source stream *)
(* ===================================================================== *)

(** C7, as stated, fails: on a successful import the source stream,
    never closed before, has received two calls of [Close] when the
    transfer returns; the deferred [progressReader.Close()] and the
    deferred [stream.Close()] both reach it. *)
Lemma downloadYouTubeVideo_closes_twice :
  closeCalls body1000 = O /\
  outcome (downloadYouTubeVideo byBitrate emptyStore noObs "bucket" EmptyString
             (sampleClient [videoA] []) videoA) =
  inl ({| ItemTitle := "Same Title"; Key := "Same-Title.mp4"; VideoID := "a1";
          SizeBytes := 1000; ContentType := "video/mp4" |}, false) /\
  streamAfter (downloadYouTubeVideo byBitrate emptyStore noObs "bucket" EmptyString
                 (sampleClient [videoA] []) videoA) =
  Some {| pending := []; closeCalls := 2 |}.
Proof. repeat split; vm_compute; reflexivity. Qed.

(** C7 (amended): closing the progress reader closes the stream it wraps
    exactly once.  A call that opens no stream (no format, or the client
    refuses the stream) closes none.  A call that opens the stream has
    closed it when it returns, on every path: once where it returns
    before it makes the progress reader (a skip, a failed lookup), twice
    where it makes it (an upload, failed or not), once through the
    reader and once directly. *)
Theorem downloadYouTubeVideo_closes_stream
    (formatLess : Format -> Format -> bool)
    (st : ObjectStore) (o : Obs) (bucketName prefix : string)
    (client : Client) (video : Video) :
  let d := downloadYouTubeVideo formatLess st o bucketName prefix client video in
  (forall p,
     closeCalls (rc (progressReader_Close p)) = S (closeCalls (rc p)) /\
     pending (rc (progressReader_Close p)) = pending (rc p)) /\
  match selectYouTubeFormat formatLess video with
  | inr _ => streamAfter d = None
  | inl f =>
      match GetStreamContext client video f with
      | inr _ => streamAfter d = None
      | inl (stream, hint) =>
          let format := withSizeHint f hint in
          let pk := primaryKeyOf prefix video format in
          let lk := legacyKeyOf prefix video format in
          let h1 := fst (HeadObject st bucketName pk) in
          let h2 := fst (HeadObject (snd (HeadObject st bucketName pk)) bucketName lk) in
          exists s',
            streamAfter d = Some s' /\
            closeCalls s' =
              match transferDecision h1 h2 (ID video) pk lk with
              | Write _ => S (S (closeCalls stream))
              | _ => S (closeCalls stream)
              end /\
            (forall item, outcome d = inl (item, true) ->
                          closeCalls s' = S (closeCalls stream)) /\
            (forall item, outcome d = inl (item, false) ->
                          closeCalls s' = S (S (closeCalls stream)))
      end
  end.
Proof.
  cbv zeta. split; [intros p; split; reflexivity|].
  destruct (selectYouTubeFormat formatLess video) as [f|text] eqn:Hsel;
    [|now rewrite (download_no_format _ _ _ _ _ _ _ _ Hsel)].
  destruct (GetStreamContext client video f) as [[stream hint]|err] eqn:Hopen;
    [|now rewrite (download_no_stream _ _ _ _ _ _ _ _ _ Hsel Hopen)].
  destruct (download_closeCalls formatLess st o bucketName prefix client video
              f stream hint Hsel Hopen) as (s' & Hs' & Hcc).
  pose proof (download_decision formatLess st o bucketName prefix client video
                f stream hint Hsel Hopen) as H.
  cbv zeta in Hcc, H.
  exists s'. split; [exact Hs' | split; [exact Hcc|]].
  destruct (transferDecision _ _ _ _ _) as [text|key|key].
  - destruct H as (-> & _). split; intros item; [auto | discriminate].
  - destruct H as (-> & _). split; intros item; [auto | discriminate].
  - destruct H as (p0 & o0 & putErr & st3 & p3 & _ & _ & _ & _ & ->).
    destruct putErr; split; intros item; (discriminate || auto).
Qed.

(* ===================================================================== *)
(** ** C8: the kind of the batch *)
(* ===================================================================== *)

(** C8, as stated, fails: the kind of a batch made of a single video is
    the string [video], and that of a playlist is [playlist]. *)
Lemma ImportYouTube_kind_not_single :
  (exists ls,
     ImportYouTube byBitrate singleService singleInput = inl ls /\
     Kind (result ls) = "video" /\ Kind (result ls) <> "single") /\
  (exists ls,
     ImportYouTube byBitrate batchService batchInput = inl ls /\
     Kind (result ls) = "playlist" /\ Kind (result ls) <> "collection").
Proof.
  split; eexists; (split; [vm_compute; reflexivity|]); split;
    [reflexivity | discriminate | reflexivity | discriminate].
Qed.

(** C8 (amended): when [ImportYouTube] returns a result, its kind is
    [playlist] when the reference resolved to a playlist and [video]
    when it resolved to a single video, and no other value. *)
Theorem ImportYouTube_kind
    (formatLess : Format -> Format -> bool)
    (s : BucketService) (input : YouTubeImportInput) (ls : LoopState) :
  ImportYouTube formatLess s input = inl ls ->
  Kind (result ls) =
    match GetPlaylistContext (youtubeClient s) (TrimSpace (URL input)) with
    | inl _ => "playlist"
    | inr _ => "video"
    end /\
  (Kind (result ls) = "video" \/ Kind (result ls) = "playlist").
Proof.
  intros Hrun.
  destruct (ImportYouTube_inv _ _ _ _ Hrun)
    as (bucketName & st & videos & kind & r0 & _ & _ & Hres & ->).
  rewrite steps_kind. simpl.
  destruct (resolveYouTubeVideos_inv _ _ _ _ _ Hres)
    as [(pl & -> & -> & _) | (err & v & -> & _ & _ & -> & _)]; auto.
Qed.

(** The single video and the playlist of five entries. *)
Lemma ImportYouTube_kind_witness :
  exists ls,
    ImportYouTube byBitrate singleService singleInput = inl ls /\
    Kind (result ls) =
      match GetPlaylistContext (youtubeClient singleService)
              (TrimSpace (URL singleInput)) with
      | inl _ => "playlist"
      | inr _ => "video"
      end.
Proof.
  eexists. split; [vm_compute; reflexivity|].
  refine (proj1 (ImportYouTube_kind byBitrate singleService singleInput _ _)).
  vm_compute; reflexivity.
Defined.

(* ===================================================================== *)
(** ** C9: the normalized destination prefix *)
(* ===================================================================== *)

(** C9, as stated, fails.  The input [" / "] is neither made of slashes
    only nor of white space only, yet its normalized prefix is empty and
    so does not end with a slash.  And the single pass of
    [strings.ReplaceAll] halves a run of slashes: a run of three leaves
    two side by side. *)
Lemma normalizeObjectPrefix_mixed_input_empty :
  (allSlashes " / " = false /\
   ~ allSpaces " / " /\
   normalizeObjectPrefix " / " = EmptyString /\
   HasSuffix (normalizeObjectPrefix " / ") "/" = false) /\
  (normalizeObjectPrefix "a///b" = "a//b/" /\
   Contains (normalizeObjectPrefix "a///b") "//" = true).
Proof.
  repeat split; try reflexivity.
  intros H. apply TrimSpace_allSpaces in H. discriminate H.
Qed.

(** C9 (amended): for every destination prefix, the normalized prefix
    has no leading slash; it is empty exactly when the input, once its
    outer white space is trimmed, holds nothing but slashes, which is
    the case of an all-slash and of an all-white-space input; when it is
    not empty it ends with exactly one slash; and it holds no two
    slashes side by side when the input holds no run of three. *)
Theorem normalizeObjectPrefix_shape (prefix : string) :
  HasPrefix (normalizeObjectPrefix prefix) "/" = false /\
  (normalizeObjectPrefix prefix = EmptyString <->
     allSlashes (TrimSpace prefix) = true) /\
  (allSlashes prefix = true -> normalizeObjectPrefix prefix = EmptyString) /\
  (allSpaces prefix -> normalizeObjectPrefix prefix = EmptyString) /\
  (normalizeObjectPrefix prefix <> EmptyString ->
     exists body, normalizeObjectPrefix prefix = body ++ "/" /\
                  HasSuffix body "/" = false) /\
  (Contains prefix "///" = false ->
     Contains (normalizeObjectPrefix prefix) "//" = false).
Proof.
  assert (Hempty : normalizeObjectPrefix prefix = EmptyString <->
                   allSlashes (TrimSpace prefix) = true).
  { rewrite normalizeObjectPrefix_unfold, <- trimmedPrefix_empty.
    destruct (trimmedPrefix prefix) as [|c r]; simpl; rewrite ?append_cons;
      split; congruence. }
  split; [|split; [exact Hempty | split; [|split; [|split]]]].
  - rewrite normalizeObjectPrefix_unfold.
    pose proof (trimmedPrefix_head prefix) as Hh.
    destruct (trimmedPrefix prefix) as [|c r]; [reflexivity|].
    simpl isEmpty. cbv iota. rewrite append_cons.
    rewrite HasPrefix_cons in Hh |- *.
    destruct (Ascii.eqb "/" c); [discriminate | reflexivity].
  - intros Hs. apply Hempty.
    destruct (TrimSpace_part prefix) as (a & b & ->).
    now apply allBytes_take, allBytes_drop.
  - intros Hs. apply Hempty. now rewrite (TrimSpace_allSpaces _ Hs).
  - intros Hne. rewrite normalizeObjectPrefix_unfold in Hne |- *.
    destruct (isEmpty (trimmedPrefix prefix)); [congruence|].
    exists (trimmedPrefix prefix). split; [reflexivity | apply trimmedPrefix_last].
  - intros H3. rewrite normalizeObjectPrefix_unfold.
    destruct (isEmpty (trimmedPrefix prefix)); [reflexivity|].
    apply append_slash_no_pair;
      [now apply trimmedPrefix_no_pair | apply trimmedPrefix_last].
Qed.

(* ===================================================================== *)
(** ** C10: matching the identity metadata *)
(* ===================================================================== *)

(** C10: the match holds exactly when the identifier is not empty and
    some key of the metadata that equals the identity key under case
    folding holds the identifier.  For a key made of ASCII bytes, case
    folding is equality without regard to the case of the letters A to
    Z, which is equality after lowering the letters: a tag whose key
    differs from the identity key in letter case only is matched, and
    among ASCII keys no other is.  The match fails on empty metadata and
    on an empty identifier.  So an item with an empty identifier is
    never skipped by the check at the primary key: when its transfer
    reports a skip, the key reported is the legacy key. *)
Theorem metadataMatchesYouTubeVideo_identity :
  (forall metadata videoID,
     metadataMatchesYouTubeVideo metadata videoID = true <->
     videoID <> EmptyString /\
     exists k, EqualFold k youtubeVideoIDMetadataKey = true /\
               metadata !! k = Some videoID) /\
  (forall k, allBytes isASCII k = true ->
     (EqualFold k youtubeVideoIDMetadataKey = true <->
      ToLower k = youtubeVideoIDMetadataKey)) /\
  (forall k, allBytes isASCII k = true ->
     EqualFold k youtubeVideoIDMetadataKey =
     equalIgnoringCase k youtubeVideoIDMetadataKey) /\
  (forall (metadata : gmap string string) k videoID,
     videoID <> EmptyString ->
     equalIgnoringCase k youtubeVideoIDMetadataKey = true ->
     metadata !! k = Some videoID ->
     metadataMatchesYouTubeVideo metadata videoID = true) /\
  (forall (metadata : gmap string string) videoID,
     (forall k, is_Some (metadata !! k) -> allBytes isASCII k = true) ->
     metadataMatchesYouTubeVideo metadata videoID = true ->
     exists k, equalIgnoringCase k youtubeVideoIDMetadataKey = true /\
               metadata !! k = Some videoID) /\
  (forall videoID, metadataMatchesYouTubeVideo ∅ videoID = false) /\
  (forall metadata, metadataMatchesYouTubeVideo metadata EmptyString = false) /\
  (forall formatLess st o bucketName prefix client video item,
     ID video = EmptyString ->
     outcome (downloadYouTubeVideo formatLess st o bucketName prefix client video) =
       inl (item, true) ->
     exists f stream hint,
       selectYouTubeFormat formatLess video = inl f /\
       GetStreamContext client video f = inl (stream, hint) /\
       Key item = legacyKeyOf prefix video (withSizeHint f hint) /\
       Key item <> primaryKeyOf prefix video (withSizeHint f hint)).
Proof.
  split; [exact metadataMatches_carries|].
  split; [intros k Hk; exact (EqualFold_ascii k youtubeVideoIDMetadataKey Hk)|].
  split; [intros k Hk; exact (EqualFold_equalIgnoringCase k _ Hk)|].
  split.
  { intros metadata k videoID Hid Hk Hlook. apply metadataMatches_carries.
    split; [exact Hid|]. exists k. split; [exact (EqualFold_identity_key k Hk) | exact Hlook]. }
  split.
  { intros metadata videoID Hascii Hm.
    apply metadataMatches_carries in Hm as (_ & k & Hk & Hlook).
    exists k. split; [|exact Hlook].
    rewrite <- (EqualFold_equalIgnoringCase k _ (Hascii k (ex_intro _ _ Hlook))).
    exact Hk. }
  split; [exact metadataMatches_empty_map|].
  split; [exact metadataMatches_empty_id|].
  intros formatLess st o bucketName prefix client video item Hid Hout.
  destruct (selectYouTubeFormat formatLess video) as [f|text] eqn:Hsel;
    [|rewrite (download_no_format _ _ _ _ _ _ _ _ Hsel) in Hout; discriminate].
  destruct (GetStreamContext client video f) as [[stream hint]|err] eqn:Hopen;
    [|rewrite (download_no_stream _ _ _ _ _ _ _ _ _ Hsel Hopen) in Hout; discriminate].
  exists f, stream, hint. split; [reflexivity | split; [exact Hopen|]].
  pose proof (download_decision formatLess st o bucketName prefix client video
                f stream hint Hsel Hopen) as H. cbv zeta in H.
  pose proof (primaryKey_neq_legacyKey prefix video (withSizeHint f hint)) as Hne.
  unfold transferDecision in H. rewrite Hid in H.
  destruct (fst (HeadObject st bucketName _)) as [md|text1].
  - rewrite metadataMatches_empty_id in H.
    destruct (fst (HeadObject _ bucketName _)) as [md2|text2].
    + destruct H as (H & _). rewrite H in Hout. injection Hout as <-.
      cbn [skippedItem Key]. split; congruence.
    + destruct (negb (isNotFoundText text2)).
      * destruct H as (H & _). rewrite H in Hout. discriminate.
      * destruct H as (p0 & o0 & putErr & st3 & p3 & _ & _ & _ & _ & H).
        rewrite H in Hout. destruct putErr; discriminate.
  - destruct (negb (isNotFoundText text1)).
    { destruct H as (H & _). rewrite H in Hout. discriminate. }
    destruct (fst (HeadObject _ bucketName _)) as [md2|text2].
    + destruct H as (H & _). rewrite H in Hout. injection Hout as <-.
      cbn [skippedItem Key]. split; congruence.
    + destruct (negb (isNotFoundText text2)).
      * destruct H as (H & _). rewrite H in Hout. discriminate.
      * destruct H as (p0 & o0 & putErr & st3 & p3 & _ & _ & _ & _ & H).
        rewrite H in Hout. destruct putErr; discriminate.
Qed.

(** A tag whose key is spelt with capitals, as a store returns it in a
    header, is matched. *)
Lemma metadataMatchesYouTubeVideo_identity_witness :
  equalIgnoringCase "Bucketbird-Video-Id" youtubeVideoIDMetadataKey = true /\
  "Bucketbird-Video-Id" <> youtubeVideoIDMetadataKey /\
  metadataMatchesYouTubeVideo {[ "Bucketbird-Video-Id" := "a1" ]} "a1" = true.
Proof.
  split; [reflexivity|]. split; [discriminate|].
  refine (proj1 (proj2 (proj2 (proj2 metadataMatchesYouTubeVideo_identity)))
            {[ "Bucketbird-Video-Id" := "a1" ]} "Bucketbird-Video-Id" "a1" _ _ _).
  - discriminate.
  - reflexivity.
  - apply lookup_singleton_eq.
Defined.

(** The identity key as a store returns it in a header, with capitals. *)
Example metadataMatches_header_case :
  metadataMatchesYouTubeVideo {[ "Bucketbird-Video-Id" := "a1" ]} "a1" = true /\
  metadataMatchesYouTubeVideo {[ "bucketbird-video-id" := "a1" ]} "b2" = false /\
  metadataMatchesYouTubeVideo {[ "bucketbird-video-title" := "a1" ]} "a1" = false.
Proof. repeat split; reflexivity. Qed.
